(** * SD-SLAM Local Mapping: a shallow embedding of [src/LocalMapping.cc]

    The development follows the C++ translation unit function by function.
    Pointers to [KeyFrame] and [MapPoint] objects are handles into two
    stores, so that aliasing (one map point reachable from several keyframe
    slots and from the recent-added list) is kept.  Values the C++ holds in
    [float]/[double] are read as the rationals they denote. *)

From Stdlib Require Import ZArith QArith Qfield Lia.
From stdpp Require Import gmap list.

Local Close Scope Q_scope.
Local Open Scope Z_scope.

(** ** Handles *)

Abbreviation kfptr := nat (only parsing).
Abbreviation mpptr := nat (only parsing).

(** ** The control surface of [LocalMapping]

    The member variables of the class that the queue and the
    stop/reset/finish protocol read and write. *)

Record LocalMapping := mkLocalMapping {
  mbMonocular : bool;
  mbResetRequested : bool;
  mbFinishRequested : bool;
  mbFinished : bool;
  mbAbortBA : bool;
  mbStopped : bool;
  mbStopRequested : bool;
  mbNotStop : bool;
  mbAcceptKeyFrames : bool;
  mlNewKeyFrames : list kfptr;
  mlpRecentAddedMapPoints : list mpptr;
  mpCurrentKeyFrame : option kfptr
}.

(** The constructor's initialiser list. *)
Definition LocalMapping_new (bMonocular : bool) : LocalMapping :=
  {| mbMonocular := bMonocular; mbResetRequested := false;
     mbFinishRequested := false; mbFinished := true; mbAbortBA := false;
     mbStopped := false; mbStopRequested := false; mbNotStop := false;
     mbAcceptKeyFrames := true; mlNewKeyFrames := [];
     mlpRecentAddedMapPoints := []; mpCurrentKeyFrame := None |}.

Definition set_mbResetRequested (b : bool) (l : LocalMapping) : LocalMapping :=
  mkLocalMapping (mbMonocular l) b (mbFinishRequested l) (mbFinished l)
    (mbAbortBA l) (mbStopped l) (mbStopRequested l) (mbNotStop l)
    (mbAcceptKeyFrames l) (mlNewKeyFrames l) (mlpRecentAddedMapPoints l)
    (mpCurrentKeyFrame l).

Definition set_mbFinishRequested (b : bool) (l : LocalMapping) : LocalMapping :=
  mkLocalMapping (mbMonocular l) (mbResetRequested l) b (mbFinished l)
    (mbAbortBA l) (mbStopped l) (mbStopRequested l) (mbNotStop l)
    (mbAcceptKeyFrames l) (mlNewKeyFrames l) (mlpRecentAddedMapPoints l)
    (mpCurrentKeyFrame l).

Definition set_mbFinished (b : bool) (l : LocalMapping) : LocalMapping :=
  mkLocalMapping (mbMonocular l) (mbResetRequested l) (mbFinishRequested l) b
    (mbAbortBA l) (mbStopped l) (mbStopRequested l) (mbNotStop l)
    (mbAcceptKeyFrames l) (mlNewKeyFrames l) (mlpRecentAddedMapPoints l)
    (mpCurrentKeyFrame l).

Definition set_mbAbortBA (b : bool) (l : LocalMapping) : LocalMapping :=
  mkLocalMapping (mbMonocular l) (mbResetRequested l) (mbFinishRequested l)
    (mbFinished l) b (mbStopped l) (mbStopRequested l) (mbNotStop l)
    (mbAcceptKeyFrames l) (mlNewKeyFrames l) (mlpRecentAddedMapPoints l)
    (mpCurrentKeyFrame l).

Definition set_mbStopped (b : bool) (l : LocalMapping) : LocalMapping :=
  mkLocalMapping (mbMonocular l) (mbResetRequested l) (mbFinishRequested l)
    (mbFinished l) (mbAbortBA l) b (mbStopRequested l) (mbNotStop l)
    (mbAcceptKeyFrames l) (mlNewKeyFrames l) (mlpRecentAddedMapPoints l)
    (mpCurrentKeyFrame l).

Definition set_mbStopRequested (b : bool) (l : LocalMapping) : LocalMapping :=
  mkLocalMapping (mbMonocular l) (mbResetRequested l) (mbFinishRequested l)
    (mbFinished l) (mbAbortBA l) (mbStopped l) b (mbNotStop l)
    (mbAcceptKeyFrames l) (mlNewKeyFrames l) (mlpRecentAddedMapPoints l)
    (mpCurrentKeyFrame l).

Definition set_mbNotStop (b : bool) (l : LocalMapping) : LocalMapping :=
  mkLocalMapping (mbMonocular l) (mbResetRequested l) (mbFinishRequested l)
    (mbFinished l) (mbAbortBA l) (mbStopped l) (mbStopRequested l) b
    (mbAcceptKeyFrames l) (mlNewKeyFrames l) (mlpRecentAddedMapPoints l)
    (mpCurrentKeyFrame l).

Definition set_mbAcceptKeyFrames (b : bool) (l : LocalMapping) : LocalMapping :=
  mkLocalMapping (mbMonocular l) (mbResetRequested l) (mbFinishRequested l)
    (mbFinished l) (mbAbortBA l) (mbStopped l) (mbStopRequested l)
    (mbNotStop l) b (mlNewKeyFrames l) (mlpRecentAddedMapPoints l)
    (mpCurrentKeyFrame l).

Definition set_mlNewKeyFrames (q : list kfptr) (l : LocalMapping) : LocalMapping :=
  mkLocalMapping (mbMonocular l) (mbResetRequested l) (mbFinishRequested l)
    (mbFinished l) (mbAbortBA l) (mbStopped l) (mbStopRequested l)
    (mbNotStop l) (mbAcceptKeyFrames l) q (mlpRecentAddedMapPoints l)
    (mpCurrentKeyFrame l).

Definition set_mlpRecentAddedMapPoints (r : list mpptr) (l : LocalMapping)
  : LocalMapping :=
  mkLocalMapping (mbMonocular l) (mbResetRequested l) (mbFinishRequested l)
    (mbFinished l) (mbAbortBA l) (mbStopped l) (mbStopRequested l)
    (mbNotStop l) (mbAcceptKeyFrames l) (mlNewKeyFrames l) r
    (mpCurrentKeyFrame l).

Definition set_mpCurrentKeyFrame (k : option kfptr) (l : LocalMapping)
  : LocalMapping :=
  mkLocalMapping (mbMonocular l) (mbResetRequested l) (mbFinishRequested l)
    (mbFinished l) (mbAbortBA l) (mbStopped l) (mbStopRequested l)
    (mbNotStop l) (mbAcceptKeyFrames l) (mlNewKeyFrames l)
    (mlpRecentAddedMapPoints l) k.

(** [LocalMapping::InsertKeyFrame] *)
Definition InsertKeyFrame (pKF : kfptr) (l : LocalMapping) : LocalMapping :=
  set_mbAbortBA true (set_mlNewKeyFrames (mlNewKeyFrames l ++ [pKF]) l).

(** [LocalMapping::CheckNewKeyFrames] *)
Definition CheckNewKeyFrames (l : LocalMapping) : bool :=
  match mlNewKeyFrames l with [] => false | _ :: _ => true end.

(** [LocalMapping::RequestStop] *)
Definition RequestStop (l : LocalMapping) : LocalMapping :=
  set_mbAbortBA true (set_mbStopRequested true l).

(** [LocalMapping::Stop]: the returned flag and the state afterwards. *)
Definition Stop (l : LocalMapping) : bool * LocalMapping :=
  if mbStopRequested l && negb (mbNotStop l)
  then (true, set_mbStopped true l)
  else (false, l).

(** [LocalMapping::isStopped], [LocalMapping::stopRequested] *)
Definition isStopped (l : LocalMapping) : bool := mbStopped l.
Definition stopRequested (l : LocalMapping) : bool := mbStopRequested l.

(** [LocalMapping::Release].  The [delete] of the queued keyframes frees
    memory only; the queue itself is what the model keeps. *)
Definition Release (l : LocalMapping) : LocalMapping :=
  if mbFinished l then l
  else set_mlNewKeyFrames [] (set_mbStopRequested false (set_mbStopped false l)).

(** [LocalMapping::AcceptKeyFrames], [LocalMapping::SetAcceptKeyFrames] *)
Definition AcceptKeyFrames (l : LocalMapping) : bool := mbAcceptKeyFrames l.
Definition SetAcceptKeyFrames (flag : bool) (l : LocalMapping) : LocalMapping :=
  set_mbAcceptKeyFrames flag l.

(** [LocalMapping::SetNotStop] *)
Definition SetNotStop (flag : bool) (l : LocalMapping) : bool * LocalMapping :=
  if flag && mbStopped l then (false, l)
  else (true, set_mbNotStop flag l).

(** [LocalMapping::InterruptBA] *)
Definition InterruptBA (l : LocalMapping) : LocalMapping := set_mbAbortBA true l.

(** [LocalMapping::ResetIfRequested] *)
Definition ResetIfRequested (l : LocalMapping) : LocalMapping :=
  if mbResetRequested l
  then set_mbResetRequested false
         (set_mlpRecentAddedMapPoints [] (set_mlNewKeyFrames [] l))
  else l.

(** [LocalMapping::RequestFinish], [CheckFinish], [SetFinish], [isFinished] *)
Definition RequestFinish (l : LocalMapping) : LocalMapping :=
  set_mbFinishRequested true l.
Definition CheckFinish (l : LocalMapping) : bool := mbFinishRequested l.
Definition SetFinish (l : LocalMapping) : LocalMapping :=
  set_mbStopped true (set_mbFinished true l).
Definition isFinished (l : LocalMapping) : bool := mbFinished l.


(** ** Numeric values

    [float] and [double] values are read as rationals; the comparisons the
    code makes on them are the boolean tests below. *)

Definition Qlt_bool (x y : Q) : bool := negb (Qle_bool y x).

Definition Vec3 : Type := Q * Q * Q.
Definition Mat3 : Type := Vec3 * Vec3 * Vec3.        (* the three rows *)

Definition dot (a b : Vec3) : Q :=
  let '(a0, a1, a2) := a in let '(b0, b1, b2) := b in
  (a0 * b0 + a1 * b1 + a2 * b2)%Q.

Definition vsub (a b : Vec3) : Vec3 :=
  let '(a0, a1, a2) := a in let '(b0, b1, b2) := b in
  ((a0 - b0)%Q, (a1 - b1)%Q, (a2 - b2)%Q).

Definition row (m : Mat3) (i : nat) : Vec3 :=
  let '(r0, r1, r2) := m in
  match i with O => r0 | S O => r1 | _ => r2 end.

Definition transpose (m : Mat3) : Mat3 :=
  let '((a, b, c), (d, e, f), (g, h, i)) := m in
  ((a, d, g), (b, e, h), (c, f, i)).

Definition mulv (m : Mat3) (v : Vec3) : Vec3 :=
  (dot (row m 0) v, dot (row m 1) v, dot (row m 2) v).

(** The [(int)] cast of an integer id, and [int] subtraction, on 32 bits. *)
Definition to_int (z : Z) : Z := (z + 2 ^ 31) mod 2 ^ 32 - 2 ^ 31.
Definition int_sub (a b : Z) : Z := to_int (a - b).

(** ** Map entities *)

(** [cv::KeyPoint]: the image point and the pyramid level. *)
Record KeyPoint := mkKeyPoint { pt_x : Q; pt_y : Q; octave : Z }.

Module KeyFrame.
Record t := mk {
  mnId : Z;
  mbBad : bool;
  mnFuseTargetForKF : Z;
  Rcw : Mat3;
  tcw : Vec3;
  Ow : Vec3;
  fx : Q; fy : Q; cx : Q; cy : Q; invfx : Q; invfy : Q;
  mb : Q; mbf : Q;
  mThDepth : Q;
  mfScaleFactor : Q;
  mvScaleFactors : list Q;
  mvLevelSigma2 : list Q;
  mvKeysUn : list KeyPoint;
  mvuRight : list Q;
  mvDepth : list Q;
  mvpMapPoints : list (option mpptr)
}.

Definition set_mbBad (b : bool) (k : t) : t :=
  mk (mnId k) b (mnFuseTargetForKF k) (Rcw k) (tcw k) (Ow k) (fx k) (fy k)
     (cx k) (cy k) (invfx k) (invfy k) (mb k) (mbf k) (mThDepth k)
     (mfScaleFactor k) (mvScaleFactors k) (mvLevelSigma2 k) (mvKeysUn k)
     (mvuRight k) (mvDepth k) (mvpMapPoints k).

Definition set_mnFuseTargetForKF (z : Z) (k : t) : t :=
  mk (mnId k) (mbBad k) z (Rcw k) (tcw k) (Ow k) (fx k) (fy k)
     (cx k) (cy k) (invfx k) (invfy k) (mb k) (mbf k) (mThDepth k)
     (mfScaleFactor k) (mvScaleFactors k) (mvLevelSigma2 k) (mvKeysUn k)
     (mvuRight k) (mvDepth k) (mvpMapPoints k).

Definition set_mvpMapPoints (v : list (option mpptr)) (k : t) : t :=
  mk (mnId k) (mbBad k) (mnFuseTargetForKF k) (Rcw k) (tcw k) (Ow k) (fx k)
     (fy k) (cx k) (cy k) (invfx k) (invfy k) (mb k) (mbf k) (mThDepth k)
     (mfScaleFactor k) (mvScaleFactors k) (mvLevelSigma2 k) (mvKeysUn k)
     (mvuRight k) (mvDepth k) v.

(** Modelled from the spec: the accessors of class [KeyFrame], which is
    not among the sources, return the attribute they are named after. *)
Definition GetRotation := Rcw.
Definition GetTranslation := tcw.
Definition GetCameraCenter := Ow.
Definition GetMapPointMatches := mvpMapPoints.
Definition isBad := mbBad.
End KeyFrame.

Module MapPoint.
Record t := mk {
  mbBad : bool;
  mObservations : gmap kfptr nat;
  nObs : Z;
  mnFirstKFid : Z;
  mnFound : Z;
  mnVisible : positive;
  mnFuseCandidateForKF : Z
}.

Definition set_mbBad (b : bool) (p : t) : t :=
  mk b (mObservations p) (nObs p) (mnFirstKFid p) (mnFound p) (mnVisible p)
     (mnFuseCandidateForKF p).

Definition set_observations (o : gmap kfptr nat) (n : Z) (p : t) : t :=
  mk (mbBad p) o n (mnFirstKFid p) (mnFound p) (mnVisible p)
     (mnFuseCandidateForKF p).

Definition set_mnFuseCandidateForKF (z : Z) (p : t) : t :=
  mk (mbBad p) (mObservations p) (nObs p) (mnFirstKFid p) (mnFound p)
     (mnVisible p) z.

(** Modelled from the spec: [MapPoint::isBad], the bad-flag tombstone
    (class [MapPoint] is not among the sources). *)
Definition isBad := mbBad.

(** Modelled from the spec: [MapPoint::GetObservations] and
    [MapPoint::Observations], the observation map (KeyFrame to slot index,
    unique per keyframe) and the observation count. *)
Definition GetObservations := mObservations.
Definition Observations := nObs.

(** Modelled from the spec: [MapPoint::IsInKeyFrame], whether the keyframe
    is among the observers. *)
Definition IsInKeyFrame (pKF : kfptr) (p : t) : bool :=
  bool_decide (is_Some (mObservations p !! pKF)).

(** Modelled from the spec: [MapPoint::GetFoundRatio], the ratio of times
    the point was matched to the times it was predicted visible (the
    visible counter starts at one and only grows). *)
Definition GetFoundRatio (p : t) : Q := (mnFound p # mnVisible p)%Q.

(** Modelled from the spec: [MapPoint::AddObservation] adds the
    observation (keyframe, slot); the keyframe key is unique, so a keyframe
    already observing the point keeps its slot; a new observation adds
    one to the count. *)
Definition AddObservation (pKF : kfptr) (idx : nat) (p : t) : t :=
  match mObservations p !! pKF with
  | Some _ => p
  | None => set_observations (<[pKF := idx]> (mObservations p)) (nObs p + 1) p
  end.

(** Modelled from the spec: [MapPoint::SetBadFlag] raises the tombstone;
    identity and storage persist. *)
Definition SetBadFlag (p : t) : t := set_mbBad true p.

(** Modelled from the spec: the object built by
    [new MapPoint(x3D, pRefKF, pMap)] is not bad, has no observation yet,
    and its first-observed keyframe id is the id of the reference
    keyframe; the visible and found counters start at one. *)
Definition new (firstKFid : Z) : t :=
  mk false ∅ 0 firstKFid 1 1 0.
End MapPoint.

(** [Map]: the sets of keyframes and map points it owns. *)
Record Map := mkMap {
  mspKeyFrames : gset kfptr;
  mspMapPoints : gset mpptr
}.

(** The object graph: both stores and the map. *)
Record World := mkWorld {
  keyframes : gmap kfptr KeyFrame.t;
  mappoints : gmap mpptr MapPoint.t;
  mpMap : Map
}.

Definition upd_keyframe (k : kfptr) (f : KeyFrame.t -> KeyFrame.t) (w : World)
  : World :=
  mkWorld (alter f k (keyframes w)) (mappoints w) (mpMap w).

Definition upd_mappoint (p : mpptr) (f : MapPoint.t -> MapPoint.t) (w : World)
  : World :=
  mkWorld (keyframes w) (alter f p (mappoints w)) (mpMap w).

(** Modelled from the spec: [Map::AddKeyFrame], [Map::AddMapPoint] (atomic
    insert) and [Map::KeyFramesInMap] (class [Map] is not among the
    sources). *)
Definition Map_AddKeyFrame (k : kfptr) (w : World) : World :=
  mkWorld (keyframes w) (mappoints w)
    (mkMap ({[k]} ∪ mspKeyFrames (mpMap w)) (mspMapPoints (mpMap w))).

Definition Map_AddMapPoint (p : mpptr) (w : World) : World :=
  mkWorld (keyframes w) (mappoints w)
    (mkMap (mspKeyFrames (mpMap w)) ({[p]} ∪ mspMapPoints (mpMap w))).

Definition Map_EraseKeyFrame (k : kfptr) (w : World) : World :=
  mkWorld (keyframes w) (mappoints w)
    (mkMap (mspKeyFrames (mpMap w) ∖ {[k]}) (mspMapPoints (mpMap w))).

Definition KeyFramesInMap (w : World) : Z :=
  Z.of_nat (size (mspKeyFrames (mpMap w))).

(** ** Results of running source code

    A run either completes, or reaches behaviour the C++ leaves undefined
    (a pointer outside the stores, an index outside a vector, [front()] of
    an empty list), or exhausts the fuel given to a waiting loop. *)

Inductive result (A : Type) : Type :=
| Ok (a : A)
| Undefined
| OutOfFuel.
Arguments Ok {A} a.
Arguments Undefined {A}.
Arguments OutOfFuel {A}.

#[global] Instance result_ret : MRet result := fun A a => Ok a.
#[global] Instance result_bind : MBind result := fun A B f m =>
  match m with
  | Ok a => f a
  | Undefined => Undefined
  | OutOfFuel => OutOfFuel
  end.

(** Dereferencing a pointer or indexing a vector. *)
Definition deref {A} (o : option A) : result A :=
  match o with Some a => Ok a | None => Undefined end.

(** Indexing a vector with an [int]. *)
Definition at_int {A} (l : list A) (i : Z) : result A :=
  if i <? 0 then Undefined else deref (l !! Z.to_nat i).

(** ** Operations of the entities on the object graph *)

(** Modelled from the spec: [KeyFrame::AddMapPoint] stores the point in the
    slot (class [KeyFrame] is not among the sources). *)
Definition KeyFrame_AddMapPoint (pMP : mpptr) (idx : nat) (pKF : kfptr)
  (w : World) : result World :=
  kf ← deref (keyframes w !! pKF);
  if bool_decide (idx < length (KeyFrame.mvpMapPoints kf))%nat
  then Ok (upd_keyframe pKF
             (KeyFrame.set_mvpMapPoints
                (<[idx := Some pMP]> (KeyFrame.mvpMapPoints kf))) w)
  else Undefined.

(** Modelled from the spec: detaching the observation by keyframe [pKF]
    from a point ([MapPoint::EraseObservation]). *)
Definition MapPoint_EraseObservation (pKF : kfptr) (p : MapPoint.t)
  : MapPoint.t :=
  match MapPoint.mObservations p !! pKF with
  | Some _ =>
      MapPoint.set_observations (delete pKF (MapPoint.mObservations p))
        (MapPoint.nObs p - 1) p
  | None => p
  end.

(** Modelled from the spec: [KeyFrame::SetBadFlag] removes the keyframe from
    Map iteration, detaches its observations from all its map points, and
    keeps the object as a tombstone. *)
Definition KeyFrame_SetBadFlag (pKF : kfptr) (w : World) : World :=
  match keyframes w !! pKF with
  | None => w
  | Some kf =>
      let detach slot w :=
        match slot with
        | Some pMP => upd_mappoint pMP (MapPoint_EraseObservation pKF) w
        | None => w
        end in
      Map_EraseKeyFrame pKF
        (upd_keyframe pKF (KeyFrame.set_mbBad true)
           (foldr detach w (KeyFrame.mvpMapPoints kf)))
  end.

(** ** The mapper and the graph it works on *)

Record Sys := mkSys { lm : LocalMapping; world : World }.

(** ** [LocalMapping::ProcessNewKeyFrame]

    [UpdateNormalAndDepth], [ComputeDistinctiveDescriptors] and
    [UpdateConnections] rewrite the normal, depth range, descriptor and
    covisibility weights, none of which is part of [World]. *)

Fixpoint ProcessNewKeyFrame_loop (cur : kfptr) (i : nat)
  (vpMapPointMatches : list (option mpptr)) (w : World) (recent : list mpptr)
  : result (World * list mpptr) :=
  match vpMapPointMatches with
  | [] => Ok (w, recent)
  | None :: rest => ProcessNewKeyFrame_loop cur (S i) rest w recent
  | Some pMP :: rest =>
      mp ← deref (mappoints w !! pMP);
      if MapPoint.isBad mp then ProcessNewKeyFrame_loop cur (S i) rest w recent
      else if MapPoint.IsInKeyFrame cur mp
      then ProcessNewKeyFrame_loop cur (S i) rest w (recent ++ [pMP])
      else ProcessNewKeyFrame_loop cur (S i) rest
             (upd_mappoint pMP (MapPoint.AddObservation cur i) w) recent
  end.

Definition ProcessNewKeyFrame (s : Sys) : result Sys :=
  match mlNewKeyFrames (lm s) with
  | [] => Undefined
  | cur :: q =>
      let l1 := set_mpCurrentKeyFrame (Some cur) (set_mlNewKeyFrames q (lm s)) in
      kf ← deref (keyframes (world s) !! cur);
      '(w, recent) ← ProcessNewKeyFrame_loop cur 0
                        (KeyFrame.GetMapPointMatches kf) (world s)
                        (mlpRecentAddedMapPoints l1);
      Ok (mkSys (set_mlpRecentAddedMapPoints recent l1) (Map_AddKeyFrame cur w))
  end.

(** ** [LocalMapping::MapPointCulling] *)

Fixpoint MapPointCulling_loop (nCurrentKFid : Z) (cnThObs : Z) (w : World)
  (lit : list mpptr) : result (World * list mpptr) :=
  match lit with
  | [] => Ok (w, [])
  | pMP :: rest =>
      mp ← deref (mappoints w !! pMP);
      if MapPoint.isBad mp
      then MapPointCulling_loop nCurrentKFid cnThObs w rest
      else if Qlt_bool (MapPoint.GetFoundRatio mp) (1 # 4)
      then MapPointCulling_loop nCurrentKFid cnThObs
             (upd_mappoint pMP MapPoint.SetBadFlag w) rest
      else if (2 <=? int_sub (to_int nCurrentKFid)
                             (to_int (MapPoint.mnFirstKFid mp)))
              && (MapPoint.Observations mp <=? cnThObs)
      then MapPointCulling_loop nCurrentKFid cnThObs
             (upd_mappoint pMP MapPoint.SetBadFlag w) rest
      else if 3 <=? int_sub (to_int nCurrentKFid)
                            (to_int (MapPoint.mnFirstKFid mp))
      then MapPointCulling_loop nCurrentKFid cnThObs w rest
      else '(w', kept) ← MapPointCulling_loop nCurrentKFid cnThObs w rest;
           Ok (w', pMP :: kept)
  end.

Definition MapPointCulling (s : Sys) : result Sys :=
  cur ← deref (mpCurrentKeyFrame (lm s));
  kf ← deref (keyframes (world s) !! cur);
  let nCurrentKFid := KeyFrame.mnId kf in
  let nThObs := if mbMonocular (lm s) then 2 else 3 in
  '(w, l) ← MapPointCulling_loop nCurrentKFid nThObs (world s)
               (mlpRecentAddedMapPoints (lm s));
  Ok (mkSys (set_mlpRecentAddedMapPoints l (lm s)) w).

(** ** [LocalMapping::KeyFrameCulling] *)

(** The loop over a point's observations, with its early [break]. *)
Fixpoint KeyFrameCulling_observers (w : World) (pKF : kfptr) (scaleLevel : Z)
  (thObs : Z) (observations : list (kfptr * nat)) (nObs : Z) : result Z :=
  match observations with
  | [] => Ok nObs
  | (pKFi, idx) :: rest =>
      if bool_decide (pKFi = pKF)
      then KeyFrameCulling_observers w pKF scaleLevel thObs rest nObs
      else
        kfi ← deref (keyframes w !! pKFi);
        kpi ← deref (KeyFrame.mvKeysUn kfi !! idx);
        let scaleLeveli := octave kpi in
        if scaleLeveli <=? scaleLevel + 1
        then if thObs <=? nObs + 1 then Ok (nObs + 1)
             else KeyFrameCulling_observers w pKF scaleLevel thObs rest (nObs + 1)
        else KeyFrameCulling_observers w pKF scaleLevel thObs rest nObs
  end.

(** One turn of the loop over the slots of [pKF]; the accumulator is
    [(nRedundantObservations, nMPs)]. *)
Definition KeyFrameCulling_slot (w : World) (mono : bool) (pKF : kfptr)
  (kf : KeyFrame.t) (i : nat) (slot : option mpptr) (acc : Z * Z)
  : result (Z * Z) :=
  let thObs := 3 in
  let '(nRedundantObservations, nMPs) := acc in
  match slot with
  | None => Ok acc
  | Some pMP =>
      mp ← deref (mappoints w !! pMP);
      if MapPoint.isBad mp then Ok acc
      else
        far ← (if mono then Ok false
               else d ← deref (KeyFrame.mvDepth kf !! i);
                    Ok (Qlt_bool (KeyFrame.mThDepth kf) d || Qlt_bool d 0));
        if (far : bool) then Ok acc
        else if thObs <? MapPoint.Observations mp
        then
          kp ← deref (KeyFrame.mvKeysUn kf !! i);
          nObs ← KeyFrameCulling_observers w pKF (octave kp) thObs
                    (map_to_list (MapPoint.GetObservations mp)) 0;
          Ok (if thObs <=? nObs then nRedundantObservations + 1
              else nRedundantObservations, nMPs + 1)
        else Ok (nRedundantObservations, nMPs + 1)
  end.

Fixpoint KeyFrameCulling_slots (w : World) (mono : bool) (pKF : kfptr)
  (kf : KeyFrame.t) (i : nat) (vpMapPoints : list (option mpptr))
  (acc : Z * Z) : result (Z * Z) :=
  match vpMapPoints with
  | [] => Ok acc
  | slot :: rest =>
      acc' ← KeyFrameCulling_slot w mono pKF kf i slot acc;
      KeyFrameCulling_slots w mono pKF kf (S i) rest acc'
  end.

(** The body of the loop over the covisible keyframes.  [0.9*nMPs] is a
    [double]; for the [int] counters of the source the comparison has the
    outcome of the exact one, [10 * nRedundantObservations > 9 * nMPs]. *)
Definition KeyFrameCulling_body (mono : bool) (pKF : kfptr) (w : World)
  : result World :=
  kf ← deref (keyframes w !! pKF);
  if KeyFrame.mnId kf =? 0 then Ok w
  else
    '(nRedundantObservations, nMPs) ←
       KeyFrameCulling_slots w mono pKF kf 0 (KeyFrame.GetMapPointMatches kf)
         (0, 0);
    if Qlt_bool ((9 # 10) * inject_Z nMPs) (inject_Z nRedundantObservations)
    then Ok (KeyFrame_SetBadFlag pKF w)
    else Ok w.

Fixpoint KeyFrameCulling_loop (mono : bool) (vpLocalKeyFrames : list kfptr)
  (w : World) : result World :=
  match vpLocalKeyFrames with
  | [] => Ok w
  | pKF :: rest =>
      w' ← KeyFrameCulling_body mono pKF w;
      KeyFrameCulling_loop mono rest w'
  end.

(** ** [LocalMapping::CreateNewMapPoints]: the body of the loop over matches

    What the source gets from Eigen, OpenCV and [KeyFrame] is taken as
    given: the Euclidean norm, the last row of [vt] in the singular value
    decomposition, and [KeyFrame::UnprojectStereo]. *)

Definition Vec4 : Type := Q * Q * Q * Q.

Definition comp (v : Vec3) (i : nat) : Q :=
  let '(a, b, c) := v in match i with O => a | S O => b | _ => c end.

(** Row [i] of the 3x4 matrix [Tcw = [Rcw | tcw]]. *)
Definition Tcw_row (kf : KeyFrame.t) (i : nat) : Vec4 :=
  let '(a, b, c) := row (KeyFrame.Rcw kf) i in
  (a, b, c, comp (KeyFrame.tcw kf) i).

(** [s * a - b] on rows. *)
Definition scale_sub (s : Q) (a b : Vec4) : Vec4 :=
  let '(a0, a1, a2, a3) := a in let '(b0, b1, b2, b3) := b in
  ((s * a0 - b0)%Q, (s * a1 - b1)%Q, (s * a2 - b2)%Q, (s * a3 - b3)%Q).

(** [std::min] *)
Definition std_min (a b : Q) : Q := if Qlt_bool b a then b else a.

(** [cos(2*atan2(y, x))], which is [(x*x - y*y) / (x*x + y*y)]. *)
Definition cos_2atan2 (y x : Q) : Q := ((x * x - y * y) / (x * x + y * y))%Q.

(** How the body of the loop over the matched pairs ends: one constructor
    per [continue], and the success. *)
Inductive Outcome :=
| Degenerate            (* x3D_cv.at<float>(3) == 0 *)
| LowParallax           (* no stereo and very low parallax *)
| BehindCamera1         (* z1 <= 0 *)
| BehindCamera2         (* z2 <= 0 *)
| ReprojError1          (* reprojection error in the first keyframe *)
| ReprojError2          (* reprojection error in the second keyframe *)
| ZeroDistance          (* dist1 == 0 || dist2 == 0 *)
| ScaleInconsistent     (* scale consistency *)
| Triangulated (x3D : Vec3).

(** Lines 284 to 291: the two stereo parallax cosines. *)
Definition StereoParallax (kf1 kf2 : KeyFrame.t) (idx1 idx2 : nat)
  (bStereo1 bStereo2 : bool) (cosParallaxRays : Q) : result (Q * Q) :=
  let cosParallaxStereo := (cosParallaxRays + 1)%Q in
  let cosParallaxStereo1 := cosParallaxStereo in
  let cosParallaxStereo2 := cosParallaxStereo in
  if bStereo1
  then d1 ← deref (KeyFrame.mvDepth kf1 !! idx1);
       Ok (cos_2atan2 (KeyFrame.mb kf1 / 2) d1, cosParallaxStereo2)
  else if bStereo2
  then d2 ← deref (KeyFrame.mvDepth kf2 !! idx2);
       Ok (cosParallaxStereo1, cos_2atan2 (KeyFrame.mb kf2 / 2) d2)
  else Ok (cosParallaxStereo1, cosParallaxStereo2).

(** Line 293: [cosParallaxStereo]. *)
Definition cosParallaxStereo_of (kf1 kf2 : KeyFrame.t) (idx1 idx2 : nat)
  (bStereo1 bStereo2 : bool) (cosParallaxRays : Q) : result Q :=
  '(c1, c2) ← StereoParallax kf1 kf2 idx1 idx2 bStereo1 bStereo2
                 cosParallaxRays;
  Ok (std_min c1 c2).

Section Triangulation.

Variable norm : Vec3 -> Q.
Variable SVD_vt_row3 : Vec4 -> Vec4 -> Vec4 -> Vec4 -> Vec4.
Variable UnprojectStereo : KeyFrame.t -> nat -> Vec3.

(** Lines 325 to 399: cheirality, reprojection error in both keyframes and
    scale consistency of the point [x3D]; [kf1] is [mpCurrentKeyFrame]. *)
Definition GatePoint (kf1 kf2 : KeyFrame.t) (kp1 : KeyPoint) (kp1_ur : Q)
  (kp2 : KeyPoint) (kp2_ur : Q) (x3D : Vec3) : result Outcome :=
  let bStereo1 := Qle_bool 0 kp1_ur in
  let bStereo2 := Qle_bool 0 kp2_ur in
  let Rcw1 := KeyFrame.GetRotation kf1 in
  let tcw1 := KeyFrame.GetTranslation kf1 in
  let Rcw2 := KeyFrame.GetRotation kf2 in
  let tcw2 := KeyFrame.GetTranslation kf2 in
  let z1 := (dot (row Rcw1 2) x3D + comp tcw1 2)%Q in
  if Qle_bool z1 0 then Ok BehindCamera1 else
  let z2 := (dot (row Rcw2 2) x3D + comp tcw2 2)%Q in
  if Qle_bool z2 0 then Ok BehindCamera2 else
  sigmaSquare1 ← at_int (KeyFrame.mvLevelSigma2 kf1) (octave kp1);
  let x1 := (dot (row Rcw1 0) x3D + comp tcw1 0)%Q in
  let y1 := (dot (row Rcw1 1) x3D + comp tcw1 1)%Q in
  let invz1 := (1 / z1)%Q in
  let u1 := (KeyFrame.fx kf1 * x1 * invz1 + KeyFrame.cx kf1)%Q in
  let v1 := (KeyFrame.fy kf1 * y1 * invz1 + KeyFrame.cy kf1)%Q in
  let errX1 := (u1 - pt_x kp1)%Q in
  let errY1 := (v1 - pt_y kp1)%Q in
  let reject1 :=
    if negb bStereo1
    then Qlt_bool ((5991 # 1000) * sigmaSquare1)
           (errX1 * errX1 + errY1 * errY1)
    else
      let u1_r := (u1 - KeyFrame.mbf kf1 * invz1)%Q in
      let errX1_r := (u1_r - kp1_ur)%Q in
      Qlt_bool ((78 # 10) * sigmaSquare1)
        (errX1 * errX1 + errY1 * errY1 + errX1_r * errX1_r) in
  if reject1 then Ok ReprojError1 else
  sigmaSquare2 ← at_int (KeyFrame.mvLevelSigma2 kf2) (octave kp2);
  let x2 := (dot (row Rcw2 0) x3D + comp tcw2 0)%Q in
  let y2 := (dot (row Rcw2 1) x3D + comp tcw2 1)%Q in
  let invz2 := (1 / z2)%Q in
  let u2 := (KeyFrame.fx kf2 * x2 * invz2 + KeyFrame.cx kf2)%Q in
  let v2 := (KeyFrame.fy kf2 * y2 * invz2 + KeyFrame.cy kf2)%Q in
  let errX2 := (u2 - pt_x kp2)%Q in
  let errY2 := (v2 - pt_y kp2)%Q in
  let reject2 :=
    if negb bStereo2
    then Qlt_bool ((5991 # 1000) * sigmaSquare2)
           (errX2 * errX2 + errY2 * errY2)
    else
      let u2_r := (u2 - KeyFrame.mbf kf1 * invz2)%Q in
      let errX2_r := (u2_r - kp2_ur)%Q in
      Qlt_bool ((78 # 10) * sigmaSquare2)
        (errX2 * errX2 + errY2 * errY2 + errX2_r * errX2_r) in
  if reject2 then Ok ReprojError2 else
  let dist1 := norm (vsub x3D (KeyFrame.Ow kf1)) in
  let dist2 := norm (vsub x3D (KeyFrame.Ow kf2)) in
  if Qeq_bool dist1 0 || Qeq_bool dist2 0 then Ok ZeroDistance else
  let ratioDist := (dist2 / dist1)%Q in
  sf1 ← at_int (KeyFrame.mvScaleFactors kf1) (octave kp1);
  sf2 ← at_int (KeyFrame.mvScaleFactors kf2) (octave kp2);
  let ratioOctave := (sf1 / sf2)%Q in
  let ratioFactor := ((3 # 2) * KeyFrame.mfScaleFactor kf1)%Q in
  if Qlt_bool (ratioDist * ratioFactor) ratioOctave
     || Qlt_bool (ratioOctave * ratioFactor) ratioDist
  then Ok ScaleInconsistent
  else Ok (Triangulated x3D).

(** Lines 265 to 399: one matched pair [(idx1, idx2)]. *)
Definition TriangulatePair (kf1 kf2 : KeyFrame.t) (idx1 idx2 : nat)
  : result Outcome :=
  kp1 ← deref (KeyFrame.mvKeysUn kf1 !! idx1);
  kp1_ur ← deref (KeyFrame.mvuRight kf1 !! idx1);
  let bStereo1 := Qle_bool 0 kp1_ur in
  kp2 ← deref (KeyFrame.mvKeysUn kf2 !! idx2);
  kp2_ur ← deref (KeyFrame.mvuRight kf2 !! idx2);
  let bStereo2 := Qle_bool 0 kp2_ur in
  let xn1 : Vec3 :=
    ((pt_x kp1 - KeyFrame.cx kf1) * KeyFrame.invfx kf1,
     (pt_y kp1 - KeyFrame.cy kf1) * KeyFrame.invfy kf1, 1)%Q in
  let xn2 : Vec3 :=
    ((pt_x kp2 - KeyFrame.cx kf2) * KeyFrame.invfx kf2,
     (pt_y kp2 - KeyFrame.cy kf2) * KeyFrame.invfy kf2, 1)%Q in
  let ray1 := mulv (transpose (KeyFrame.GetRotation kf1)) xn1 in
  let ray2 := mulv (transpose (KeyFrame.GetRotation kf2)) xn2 in
  let cosParallaxRays := (dot ray1 ray2 / (norm ray1 * norm ray2))%Q in
  '(cosParallaxStereo1, cosParallaxStereo2) ←
     StereoParallax kf1 kf2 idx1 idx2 bStereo1 bStereo2 cosParallaxRays;
  let cosParallaxStereo := std_min cosParallaxStereo1 cosParallaxStereo2 in
  if Qlt_bool cosParallaxRays cosParallaxStereo && Qlt_bool 0 cosParallaxRays
     && (bStereo1 || bStereo2 || Qlt_bool cosParallaxRays (9998 # 10000))
  then
    let '(_, _, _, w) as v :=
      SVD_vt_row3
        (scale_sub (comp xn1 0) (Tcw_row kf1 2) (Tcw_row kf1 0))
        (scale_sub (comp xn1 1) (Tcw_row kf1 2) (Tcw_row kf1 1))
        (scale_sub (comp xn2 0) (Tcw_row kf2 2) (Tcw_row kf2 0))
        (scale_sub (comp xn2 1) (Tcw_row kf2 2) (Tcw_row kf2 1)) in
    if Qeq_bool w 0 then Ok Degenerate
    else
      let '(x, y, z, _) := v in
      GatePoint kf1 kf2 kp1 kp1_ur kp2 kp2_ur ((x / w)%Q, (y / w)%Q, (z / w)%Q)
  else if bStereo1 && Qlt_bool cosParallaxStereo1 cosParallaxStereo2
  then GatePoint kf1 kf2 kp1 kp1_ur kp2 kp2_ur (UnprojectStereo kf1 idx1)
  else if bStereo2 && Qlt_bool cosParallaxStereo2 cosParallaxStereo1
  then GatePoint kf1 kf2 kp1 kp1_ur kp2 kp2_ur (UnprojectStereo kf2 idx2)
  else Ok LowParallax.

End Triangulation.

(** ** The worker thread among the other threads

    The tracker and the loop closer run concurrently with the mapper.
    Whenever the mapper is about to take one of its mutexes, the other
    threads may have acted: [env t] is what they did to the shared state
    before scheduling point [t].  A run carries the state, the number of
    the next scheduling point, and a log of the calls that matter to the
    statements below. *)

Inductive Event :=
| EvTriangulate (pKF2 : kfptr)   (* CreateNewMapPoints works on neighbour pKF2 *)
| EvFuse (pKF : kfptr)           (* matcher.Fuse(pKF, ...) *)
| EvLocalBA (pKF : kfptr)        (* Optimizer::LocalBundleAdjustment(pKF, ...) *)
| EvKeyFrameCulling              (* KeyFrameCulling() *)
| EvLoopCloser (pKF : kfptr).    (* mpLoopCloser->InsertKeyFrame(pKF) *)

#[global] Instance Event_eq_dec : EqDecision Event.
Proof. solve_decision. Defined.

Record Exec := mkExec { sys : Sys; clock : nat; log : list Event }.

Definition on_lm (f : LocalMapping -> LocalMapping) (e : Exec) : Exec :=
  mkExec (mkSys (f (lm (sys e))) (world (sys e))) (clock e) (log e).

Definition on_world (f : World -> World) (e : Exec) : Exec :=
  mkExec (mkSys (lm (sys e)) (f (world (sys e)))) (clock e) (log e).

Definition with_sys (s : Sys) (e : Exec) : Exec := mkExec s (clock e) (log e).

Definition emit (ev : Event) (e : Exec) : Exec :=
  mkExec (sys e) (clock e) (log e ++ [ev]).

(** The keyframes on which local bundle adjustment was invoked, in order. *)
Definition ba_calls (e : Exec) : list kfptr :=
  omap (fun ev => match ev with EvLocalBA k => Some k | _ => None end) (log e).

(** The keyframes handed to [matcher.Fuse], in order. *)
Definition fuse_calls (e : Exec) : list kfptr :=
  omap (fun ev => match ev with EvFuse k => Some k | _ => None end) (log e).

(** The neighbours [CreateNewMapPoints] worked on, in order. *)
Definition triangulate_calls (e : Exec) : list kfptr :=
  omap (fun ev => match ev with EvTriangulate k => Some k | _ => None end)
    (log e).

(** Lines 402 to 415: the new point is registered in both keyframes, then
    added to the map and to the recent-added list.  The point's position,
    descriptor, normal and depth range are not part of [World]. *)
Definition RegisterNewMapPoint (cur pKF2 : kfptr) (idx1 idx2 : nat) (s : Sys)
  : result Sys :=
  kf1 ← deref (keyframes (world s) !! cur);
  let pMP := fresh (dom (mappoints (world s))) in
  let w0 := mkWorld (keyframes (world s))
              (<[pMP := MapPoint.new (KeyFrame.mnId kf1)]> (mappoints (world s)))
              (mpMap (world s)) in
  let w1 := upd_mappoint pMP (MapPoint.AddObservation cur idx1) w0 in
  let w2 := upd_mappoint pMP (MapPoint.AddObservation pKF2 idx2) w1 in
  w3 ← KeyFrame_AddMapPoint pMP idx1 cur w2;
  w4 ← KeyFrame_AddMapPoint pMP idx2 pKF2 w3;
  let w5 := Map_AddMapPoint pMP w4 in
  Ok (mkSys (set_mlpRecentAddedMapPoints
               (mlpRecentAddedMapPoints (lm s) ++ [pMP]) (lm s)) w5).

Section Worker.

Variable env : nat -> Sys -> Sys.

(** Eigen, OpenCV and [KeyFrame] geometry. *)
Variable norm : Vec3 -> Q.
Variable SVD_vt_row3 : Vec4 -> Vec4 -> Vec4 -> Vec4 -> Vec4.
Variable UnprojectStereo : KeyFrame.t -> nat -> Vec3.
Variable ComputeSceneMedianDepth : World -> kfptr -> Q.

(** The covisibility graph of [KeyFrame]. *)
Variable GetBestCovisibilityKeyFrames : World -> kfptr -> nat -> list kfptr.
Variable GetVectorCovisibleKeyFrames : World -> kfptr -> list kfptr.

(** [ORBmatcher] and [Optimizer]; the fundamental matrix handed to the
    matcher is a function of the two keyframes. *)
Variable SearchForTriangulation : World -> kfptr -> kfptr -> list (nat * nat).
Variable Fuse : kfptr -> list (option mpptr) -> World -> World.
Variable LocalBundleAdjustment : kfptr -> World -> World.

(** Whether [mpLoopCloser] is set. *)
Variable mpLoopCloser : bool.

(** A scheduling point. *)
Definition yield (e : Exec) : Exec :=
  mkExec (env (clock e) (sys e)) (S (clock e)) (log e).

(** *** [LocalMapping::CreateNewMapPoints] *)

(** The loop over the matches of one neighbour. *)
Fixpoint CreateNewMapPoints_matches (cur pKF2 : kfptr)
  (vMatchedIndices : list (nat * nat)) (s : Sys) : result Sys :=
  match vMatchedIndices with
  | [] => Ok s
  | (idx1, idx2) :: rest =>
      kf1 ← deref (keyframes (world s) !! cur);
      kf2 ← deref (keyframes (world s) !! pKF2);
      out ← TriangulatePair norm SVD_vt_row3 UnprojectStereo kf1 kf2 idx1 idx2;
      match out with
      | Triangulated _ =>
          s' ← RegisterNewMapPoint cur pKF2 idx1 idx2 s;
          CreateNewMapPoints_matches cur pKF2 rest s'
      | _ => CreateNewMapPoints_matches cur pKF2 rest s
      end
  end.

(** The loop over the neighbours, from neighbour number [i] on. *)
Fixpoint CreateNewMapPoints_neighbors (cur : kfptr) (i : nat)
  (vpNeighKFs : list kfptr) (e : Exec) : result Exec :=
  match vpNeighKFs with
  | [] => Ok e
  | pKF2 :: rest =>
      let e := if (0 <? i)%nat then yield e else e in
      if (0 <? i)%nat && CheckNewKeyFrames (lm (sys e)) then Ok e
      else
        let e := emit (EvTriangulate pKF2) e in
        kf1 ← deref (keyframes (world (sys e)) !! cur);
        kf2 ← deref (keyframes (world (sys e)) !! pKF2);
        let baseline := norm (vsub (KeyFrame.GetCameraCenter kf2)
                                   (KeyFrame.GetCameraCenter kf1)) in
        let short :=
          if negb (mbMonocular (lm (sys e)))
          then Qlt_bool baseline (KeyFrame.mb kf2)
          else
            let medianDepthKF2 :=
              ComputeSceneMedianDepth (world (sys e)) pKF2 in
            let ratioBaselineDepth := (baseline / medianDepthKF2)%Q in
            Qlt_bool ratioBaselineDepth (1 # 100) in
        if short then CreateNewMapPoints_neighbors cur (S i) rest e
        else
          let vMatchedIndices :=
            SearchForTriangulation (world (sys e)) cur pKF2 in
          s ← CreateNewMapPoints_matches cur pKF2 vMatchedIndices (sys e);
          CreateNewMapPoints_neighbors cur (S i) rest (with_sys s e)
  end.

Definition CreateNewMapPoints (e : Exec) : result Exec :=
  cur ← deref (mpCurrentKeyFrame (lm (sys e)));
  let nn := if mbMonocular (lm (sys e)) then 20%nat else 10%nat in
  let vpNeighKFs := GetBestCovisibilityKeyFrames (world (sys e)) cur nn in
  CreateNewMapPoints_neighbors cur 0 vpNeighKFs e.

(** *** [LocalMapping::SearchInNeighbors] *)

(** Lines 438 to 443: the second neighbours of one target. *)
Fixpoint SearchInNeighbors_second (curId : Z) (vpSecondNeighKFs : list kfptr)
  (w : World) (vpTargetKFs : list kfptr) : result (list kfptr) :=
  match vpSecondNeighKFs with
  | [] => Ok vpTargetKFs
  | pKFi2 :: rest =>
      kfi2 ← deref (keyframes w !! pKFi2);
      if KeyFrame.isBad kfi2
         || (KeyFrame.mnFuseTargetForKF kfi2 =? curId)
         || (KeyFrame.mnId kfi2 =? curId)
      then SearchInNeighbors_second curId rest w vpTargetKFs
      else SearchInNeighbors_second curId rest w (vpTargetKFs ++ [pKFi2])
  end.

(** Lines 429 to 444: the target keyframes. *)
Fixpoint SearchInNeighbors_targets (curId : Z) (vpNeighKFs : list kfptr)
  (w : World) (vpTargetKFs : list kfptr) : result (World * list kfptr) :=
  match vpNeighKFs with
  | [] => Ok (w, vpTargetKFs)
  | pKFi :: rest =>
      kfi ← deref (keyframes w !! pKFi);
      if KeyFrame.isBad kfi || (KeyFrame.mnFuseTargetForKF kfi =? curId)
      then SearchInNeighbors_targets curId rest w vpTargetKFs
      else
        let w := upd_keyframe pKFi (KeyFrame.set_mnFuseTargetForKF curId) w in
        targets ← SearchInNeighbors_second curId
                     (GetBestCovisibilityKeyFrames w pKFi 5) w
                     (vpTargetKFs ++ [pKFi]);
        SearchInNeighbors_targets curId rest w targets
  end.

(** Lines 450 to 454: the current map points are fused into every target;
    the other threads run meanwhile. *)
Fixpoint SearchInNeighbors_fuse (vpTargetKFs : list kfptr)
  (vpMapPointMatches : list (option mpptr)) (e : Exec) : Exec :=
  match vpTargetKFs with
  | [] => e
  | pKFi :: rest =>
      let e := yield e in
      SearchInNeighbors_fuse rest vpMapPointMatches
        (on_world (Fuse pKFi vpMapPointMatches) (emit (EvFuse pKFi) e))
  end.

(** Lines 465 to 473: the fuse candidates among the points of one target. *)
Fixpoint SearchInNeighbors_candidates (curId : Z)
  (vpMapPointsKFi : list (option mpptr)) (w : World)
  (vpFuseCandidates : list (option mpptr))
  : result (World * list (option mpptr)) :=
  match vpMapPointsKFi with
  | [] => Ok (w, vpFuseCandidates)
  | None :: rest =>
      SearchInNeighbors_candidates curId rest w vpFuseCandidates
  | Some pMP :: rest =>
      mp ← deref (mappoints w !! pMP);
      if MapPoint.isBad mp || (MapPoint.mnFuseCandidateForKF mp =? curId)
      then SearchInNeighbors_candidates curId rest w vpFuseCandidates
      else SearchInNeighbors_candidates curId rest
             (upd_mappoint pMP (MapPoint.set_mnFuseCandidateForKF curId) w)
             (vpFuseCandidates ++ [Some pMP])
  end.

(** Lines 460 to 474. *)
Fixpoint SearchInNeighbors_collect (curId : Z) (vpTargetKFs : list kfptr)
  (w : World) (vpFuseCandidates : list (option mpptr))
  : result (World * list (option mpptr)) :=
  match vpTargetKFs with
  | [] => Ok (w, vpFuseCandidates)
  | pKFi :: rest =>
      kfi ← deref (keyframes w !! pKFi);
      '(w', cands) ← SearchInNeighbors_candidates curId
                        (KeyFrame.GetMapPointMatches kfi) w vpFuseCandidates;
      SearchInNeighbors_collect curId rest w' cands
  end.

Definition SearchInNeighbors (e : Exec) : result Exec :=
  cur ← deref (mpCurrentKeyFrame (lm (sys e)));
  kf ← deref (keyframes (world (sys e)) !! cur);
  let nn := if mbMonocular (lm (sys e)) then 20%nat else 10%nat in
  let vpNeighKFs := GetBestCovisibilityKeyFrames (world (sys e)) cur nn in
  '(w, vpTargetKFs) ← SearchInNeighbors_targets (KeyFrame.mnId kf) vpNeighKFs
                         (world (sys e)) [];
  let e := on_world (fun _ => w) e in
  let vpMapPointMatches := KeyFrame.GetMapPointMatches kf in
  let e := SearchInNeighbors_fuse vpTargetKFs vpMapPointMatches e in
  '(w, vpFuseCandidates) ← SearchInNeighbors_collect (KeyFrame.mnId kf)
                              vpTargetKFs (world (sys e)) [];
  let e := on_world (fun _ => w) e in
  let e := yield e in
  Ok (on_world (Fuse cur vpFuseCandidates) (emit (EvFuse cur) e)).

(** *** [LocalMapping::KeyFrameCulling] *)

Definition KeyFrameCulling (e : Exec) : result Exec :=
  cur ← deref (mpCurrentKeyFrame (lm (sys e)));
  let vpLocalKeyFrames := GetVectorCovisibleKeyFrames (world (sys e)) cur in
  w ← KeyFrameCulling_loop (mbMonocular (lm (sys e))) vpLocalKeyFrames
        (world (sys e));
  Ok (emit EvKeyFrameCulling (on_world (fun _ => w) e)).

(** *** [LocalMapping::Run] *)

(** Lines 68 to 81: from [ProcessNewKeyFrame] to [mbAbortBA = false]. *)
Definition Run_mapping (e : Exec) : result Exec :=
  let e := yield e in
  s ← ProcessNewKeyFrame (sys e);
  s ← MapPointCulling s;
  e ← CreateNewMapPoints (with_sys s e);
  let e := yield e in
  e ← (if negb (CheckNewKeyFrames (lm (sys e))) then SearchInNeighbors e
       else Ok e);
  Ok (on_lm (set_mbAbortBA false) e).

(** Lines 83 to 90: local bundle adjustment and keyframe culling. *)
Definition Run_optimization (e : Exec) : result Exec :=
  let e := yield e in
  if negb (CheckNewKeyFrames (lm (sys e)))
  then
    let e := yield e in
    if negb (stopRequested (lm (sys e)))
    then
      let e := yield e in
      e ← (if 2 <? KeyFramesInMap (world (sys e))
           then cur ← deref (mpCurrentKeyFrame (lm (sys e)));
                Ok (on_world (LocalBundleAdjustment cur)
                      (emit (EvLocalBA cur) e))
           else Ok e);
      KeyFrameCulling e
    else Ok e
  else Ok e.

(** Lines 92 and 93. *)
Definition Run_handoff (e : Exec) : result Exec :=
  if mpLoopCloser
  then cur ← deref (mpCurrentKeyFrame (lm (sys e)));
       Ok (emit (EvLoopCloser cur) e)
  else Ok e.

(** Lines 96 to 98: [while (isStopped() && !CheckFinish()) usleep(3000);]
    [fuel] bounds the number of sleeps. *)
Fixpoint Run_wait (fuel : nat) (e : Exec) : result Exec :=
  let e := yield e in
  if isStopped (lm (sys e))
  then
    let e := yield e in
    if negb (CheckFinish (lm (sys e)))
    then match fuel with
         | O => OutOfFuel
         | S fuel' => Run_wait fuel' e
         end
    else Ok e
  else Ok e.

(** Lines 103 to 111; the flag says whether the loop is left. *)
Definition Run_epilogue (e : Exec) : bool * Exec :=
  let e := on_lm ResetIfRequested (yield e) in
  let e := on_lm (SetAcceptKeyFrames true) (yield e) in
  let e := yield e in
  (CheckFinish (lm (sys e)), e).

(** One turn of [while (1)]. *)
Definition Run_iteration (fuel : nat) (e : Exec) : result (bool * Exec) :=
  let e := on_lm (SetAcceptKeyFrames false) (yield e) in
  let e := yield e in
  if CheckNewKeyFrames (lm (sys e))
  then
    e ← Run_mapping e;
    e ← Run_optimization e;
    e ← Run_handoff e;
    Ok (Run_epilogue e)
  else
    let e := yield e in
    let '(stopped, l) := Stop (lm (sys e)) in
    let e := on_lm (fun _ => l) e in
    if stopped
    then
      e ← Run_wait fuel e;
      let e := yield e in
      if CheckFinish (lm (sys e)) then Ok (true, e)
      else Ok (Run_epilogue e)
    else Ok (Run_epilogue e).

(** [LocalMapping::Run]: [mbFinished = false], the loop, [SetFinish()]. *)
Fixpoint Run_loop (turns fuel : nat) (e : Exec) : result Exec :=
  match turns with
  | O => OutOfFuel
  | S turns' =>
      '(leave, e') ← Run_iteration fuel e;
      if (leave : bool) then Ok (on_lm SetFinish (yield e'))
      else Run_loop turns' fuel e'
  end.

Definition Run (turns fuel : nat) (e : Exec) : result Exec :=
  Run_loop turns fuel (on_lm (set_mbFinished false) e).

End Worker.

(** ** Reprojection error, in the words of the specification

    The squared pixel error of [x3D] in a view: two residuals, and a third
    one on the right-image coordinate when the feature is stereo.  [bf] is
    the baseline times the focal length used for the right coordinate. *)
Definition squared_reprojection_error (kf : KeyFrame.t) (bf : Q)
  (kp : KeyPoint) (kp_ur : Q) (x3D : Vec3) : Q :=
  let x := (dot (row (KeyFrame.Rcw kf) 0) x3D + comp (KeyFrame.tcw kf) 0)%Q in
  let y := (dot (row (KeyFrame.Rcw kf) 1) x3D + comp (KeyFrame.tcw kf) 1)%Q in
  let z := (dot (row (KeyFrame.Rcw kf) 2) x3D + comp (KeyFrame.tcw kf) 2)%Q in
  let u := (KeyFrame.fx kf * x * (1 / z) + KeyFrame.cx kf)%Q in
  let v := (KeyFrame.fy kf * y * (1 / z) + KeyFrame.cy kf)%Q in
  let e2 := ((u - pt_x kp) * (u - pt_x kp) + (v - pt_y kp) * (v - pt_y kp))%Q in
  if Qle_bool 0 kp_ur
  then (e2 + (u - bf * (1 / z) - kp_ur) * (u - bf * (1 / z) - kp_ur))%Q
  else e2.

(** The chi-square bound on the squared error that the source applies in a
    view: 5.991 for a monocular feature, 7.8 for a stereo feature. *)
Definition chi2_bound (kp_ur : Q) : Q :=
  if Qle_bool 0 kp_ur then 78 # 10 else 5991 # 1000.

(** The bound of the specification: 5.991 and 7.815. *)
Definition chi2_bound_spec (kp_ur : Q) : Q :=
  if Qle_bool 0 kp_ur then 7815 # 1000 else 5991 # 1000.

(** The depth of [x3D] in a view. *)
Definition depth_in (kf : KeyFrame.t) (x3D : Vec3) : Q :=
  (dot (row (KeyFrame.Rcw kf) 2) x3D + comp (KeyFrame.tcw kf) 2)%Q.

(** ** The map-point culling rule, in the words of the specification

    For a point [p] of the recent-added list, with [N] the id of the current
    keyframe and [N0] the id of the keyframe that first observed [p]. *)

Inductive Verdict :=
| DropBad              (* already bad: removed from the list *)
| CullFoundRatio       (* found ratio below 0.25: marked bad, removed *)
| CullFewObservations  (* old enough and too few observations: marked bad, removed *)
| Graduate             (* removed from the list, kept alive *)
| Advance.             (* stays in the list *)

Definition tau (mono : bool) : Z := if mono then 2 else 3.

Definition culling_verdict (mono : bool) (N : Z) (p : MapPoint.t) : Verdict :=
  let N0 := MapPoint.mnFirstKFid p in
  if MapPoint.mbBad p then DropBad
  else if Qlt_le_dec (MapPoint.GetFoundRatio p) (1 # 4) then CullFoundRatio
  else if decide (N - N0 >= 2 ∧ MapPoint.Observations p <= tau mono)
  then CullFewObservations
  else if decide (N - N0 >= 3) then Graduate
  else Advance.

(** The walk over the list: every point gets the verdict of the state it is
    met in (a point listed twice is met bad the second time if the first
    visit culled it). *)
Fixpoint culling_pass (mono : bool) (N : Z) (w : World) (l : list mpptr)
  : result (World * list mpptr) :=
  match l with
  | [] => Ok (w, [])
  | p :: rest =>
      mp ← deref (mappoints w !! p);
      match culling_verdict mono N mp with
      | DropBad | Graduate => culling_pass mono N w rest
      | CullFoundRatio | CullFewObservations =>
          culling_pass mono N (upd_mappoint p MapPoint.SetBadFlag w) rest
      | Advance =>
          '(w', kept) ← culling_pass mono N w rest; Ok (w', p :: kept)
      end
  end.

(** Ids that the [(int)] cast leaves unchanged. *)
Definition id_fits_int (z : Z) : Prop := 0 <= z < 2 ^ 31.

Definition first_ids_fit_int (w : World) : Prop :=
  map_Forall (fun _ mp => id_fits_int (MapPoint.mnFirstKFid mp)) (mappoints w).

(** ** Keyframe redundancy, in the words of the specification *)

Fixpoint count_if {A} (f : A -> bool) (l : list A) : Z :=
  match l with
  | [] => 0
  | x :: rest => (if f x then 1 else 0) + count_if f rest
  end.

(** Counting the slots of a keyframe that satisfy a test on (index, slot). *)
Fixpoint count_slots (f : nat -> option mpptr -> bool) (i : nat)
  (slots : list (option mpptr)) : Z :=
  match slots with
  | [] => 0
  | slot :: rest => (if f i slot then 1 else 0) + count_slots f (S i) rest
  end.

(** The observation [ob] is by a keyframe other than [pKF], at an octave of
    at most [o + 1]. *)
Definition observes_within (w : World) (pKF : kfptr) (o : Z)
  (ob : kfptr * nat) : bool :=
  negb (bool_decide (ob.1 = pKF))
  && match keyframes w !! ob.1 with
     | Some kfi =>
         match KeyFrame.mvKeysUn kfi !! ob.2 with
         | Some kpi => octave kpi <=? o + 1
         | None => false
         end
     | None => false
     end.

(** How many other keyframes observe the point at octave at most [o + 1]. *)
Definition other_observers (w : World) (pKF : kfptr) (o : Z) (mp : MapPoint.t)
  : Z :=
  count_if (observes_within w pKF o) (map_to_list (MapPoint.mObservations mp)).

(** A close point: depth neither negative nor beyond the threshold. *)
Definition close_depth (kf : KeyFrame.t) (i : nat) : bool :=
  match KeyFrame.mvDepth kf !! i with
  | Some d => Qle_bool 0 d && Qle_bool d (KeyFrame.mThDepth kf)
  | None => false
  end.

(** The slot holds a non-bad point that counts for the keyframe. *)
Definition slot_counted (w : World) (mono : bool) (kf : KeyFrame.t) (i : nat)
  (slot : option mpptr) : bool :=
  match slot with
  | Some p =>
      match mappoints w !! p with
      | Some mp => negb (MapPoint.mbBad mp) && (mono || close_depth kf i)
      | None => false
      end
  | None => false
  end.

(** The slot holds a counted point that at least three other keyframes
    observe at the same or a finer scale. *)
Definition slot_redundant (w : World) (mono : bool) (pKF : kfptr)
  (kf : KeyFrame.t) (i : nat) (slot : option mpptr) : bool :=
  slot_counted w mono kf i slot
  && match slot, KeyFrame.mvKeysUn kf !! i with
     | Some p, Some kp =>
         match mappoints w !! p with
         | Some mp => 3 <=? other_observers w pKF (octave kp) mp
         | None => false
         end
     | _, _ => false
     end.

Definition counted_points (w : World) (mono : bool) (kf : KeyFrame.t) : Z :=
  count_slots (slot_counted w mono kf) 0 (KeyFrame.mvpMapPoints kf).

Definition redundant_points (w : World) (mono : bool) (pKF : kfptr)
  (kf : KeyFrame.t) : Z :=
  count_slots (slot_redundant w mono pKF kf) 0 (KeyFrame.mvpMapPoints kf).

(** *** Well-formed neighbourhood of a keyframe

    What keyframe culling reads is there to be read: every observer of a
    point is a live keyframe object and its slot index is a feature of it. *)
Definition observer_readable (w : World) (ob : kfptr * nat) : bool :=
  match keyframes w !! ob.1 with
  | Some kfi => bool_decide (ob.2 < length (KeyFrame.mvKeysUn kfi))%nat
  | None => false
  end.

(** A slot of [pKF] points at a live object; when that point is not bad,
    [pKF] is one of its observers (observation symmetry), its observation
    count is at least the number of its observers, and all its observers are
    readable. *)
Definition slot_wf (w : World) (pKF : kfptr) (slot : option mpptr) : bool :=
  match slot with
  | None => true
  | Some p =>
      match mappoints w !! p with
      | None => false
      | Some mp =>
          MapPoint.mbBad mp
          || (bool_decide (is_Some (MapPoint.mObservations mp !! pKF))
              && (Z.of_nat (size (MapPoint.mObservations mp))
                  <=? MapPoint.Observations mp)
              && forallb (observer_readable w)
                   (map_to_list (MapPoint.mObservations mp)))
      end
  end.

Definition culling_wf (w : World) (pKF : kfptr) (kf : KeyFrame.t) : bool :=
  bool_decide (length (KeyFrame.mvpMapPoints kf)
               <= length (KeyFrame.mvKeysUn kf))%nat
  && bool_decide (length (KeyFrame.mvpMapPoints kf)
                  <= length (KeyFrame.mvDepth kf))%nat
  && forallb (slot_wf w pKF) (KeyFrame.mvpMapPoints kf).

(** ** Observation symmetry, in the words of the specification *)

(** Point side: for every non-bad point [p] and every [(k, i)] in its
    observations, slot [i] of keyframe [k] holds [p]. *)
Definition obs_in_slots (w : World) : Prop :=
  forall p mp k i,
    mappoints w !! p = Some mp ->
    MapPoint.mbBad mp = false ->
    MapPoint.mObservations mp !! k = Some i ->
    exists kf, keyframes w !! k = Some kf
               /\ KeyFrame.mvpMapPoints kf !! i = Some (Some p).

(** Slot [i] of keyframe [k], which holds [p], is registered in [p]'s
    observations (nothing is asked of a bad point). *)
Definition slot_registered (w : World) (k : kfptr) (i : nat) (p : mpptr)
  : Prop :=
  forall mp,
    mappoints w !! p = Some mp ->
    MapPoint.mbBad mp = false ->
    MapPoint.mObservations mp !! k = Some i.

(** Keyframe side, for one keyframe and for all. *)
Definition slots_in_obs_of (w : World) (k : kfptr) : Prop :=
  forall kf i p,
    keyframes w !! k = Some kf ->
    KeyFrame.mvpMapPoints kf !! i = Some (Some p) ->
    slot_registered w k i p.

Definition slots_in_obs (w : World) : Prop := forall k, slots_in_obs_of w k.

Definition observation_symmetry (w : World) : Prop :=
  obs_in_slots w /\ slots_in_obs w.

(** A keyframe as the tracker hands it over: no non-bad point sits in two
    of its slots. *)
Definition slots_distinct (w : World) (k : kfptr) : Prop :=
  forall kf i j p mp,
    keyframes w !! k = Some kf ->
    KeyFrame.mvpMapPoints kf !! i = Some (Some p) ->
    KeyFrame.mvpMapPoints kf !! j = Some (Some p) ->
    mappoints w !! p = Some mp ->
    MapPoint.mbBad mp = false ->
    i = j.

(** A slot the matcher may pair: it holds no point, or a bad one. *)
Definition slot_vacant (w : World) (k : kfptr) (i : nat) : Prop :=
  forall kf q mq,
    keyframes w !! k = Some kf ->
    KeyFrame.mvpMapPoints kf !! i = Some (Some q) ->
    mappoints w !! q = Some mq ->
    MapPoint.mbBad mq = true.

(** Every slot points at a live map point object. *)
Definition slots_allocated (w : World) : Prop :=
  forall k kf i p,
    keyframes w !! k = Some kf ->
    KeyFrame.mvpMapPoints kf !! i = Some (Some p) ->
    is_Some (mappoints w !! p).

(** The map owns live map point objects only. *)
Definition map_points_allocated (w : World) : Prop :=
  forall p, p ∈ mspMapPoints (mpMap w) -> is_Some (mappoints w !! p).

(** The contract of [ORBmatcher::SearchForTriangulation]: it pairs features
    that have no (live) map point yet, each feature at most once. *)
Definition matches_vacant (w : World) (cur pKF2 : kfptr)
  (pairs : list (nat * nat)) : Prop :=
  NoDup pairs.*1 /\ NoDup pairs.*2
  /\ Forall (fun pr => slot_vacant w cur pr.1 /\ slot_vacant w pKF2 pr.2) pairs.

(** A step of the mapper or of another thread that keeps observation
    symmetry: from a graph whose point side holds and whose slots are live
    it leads to such a graph, and every keyframe whose slots were registered
    still has them registered. *)
Definition keeps_symmetry (w w' : World) : Prop :=
  obs_in_slots w -> slots_allocated w ->
  obs_in_slots w' /\ slots_allocated w'
  /\ forall k, slots_in_obs_of w k -> slots_in_obs_of w' k.

(** The same for a step that may retire keyframes: the keyframe side is
    kept for the keyframes that are not tombstones afterwards. *)
Definition keeps_symmetry_of_live (w w' : World) : Prop :=
  obs_in_slots w -> slots_allocated w ->
  obs_in_slots w' /\ slots_allocated w'
  /\ forall k kf', keyframes w' !! k = Some kf' ->
       KeyFrame.mbBad kf' = false ->
       slots_in_obs_of w k -> slots_in_obs_of w' k.

(** What holds when the loop of [ProcessNewKeyFrame] is about to look at
    slot [i] of the current keyframe, whose slots are [slots0]; [P] picks
    the other keyframes that are followed. *)
Definition ProcessNewKeyFrame_inv (P : kfptr -> Prop) (cur : kfptr)
  (slots0 : list (option mpptr)) (w : World) (i : nat) : Prop :=
  obs_in_slots w
  /\ (forall k, P k -> k <> cur -> slots_in_obs_of w k)
  /\ slots_distinct w cur
  /\ (forall j p, (j < i)%nat -> slots0 !! j = Some (Some p) ->
        slot_registered w cur j p).

(** A step that changes no slot and, in a point, at most raises the bad
    flag, sets a marker, or drops the observation by keyframe [K]. *)
Definition slots_unchanged (w w' : World) : Prop :=
  forall k, KeyFrame.mvpMapPoints <$> keyframes w' !! k
            = KeyFrame.mvpMapPoints <$> keyframes w !! k.

Definition point_refined (K : option kfptr) (o o' : option MapPoint.t)
  : Prop :=
  match o, o' with
  | None, None => True
  | Some mp, Some mp' =>
      (MapPoint.mbBad mp' = false -> MapPoint.mbBad mp = false)
      /\ forall k, MapPoint.mObservations mp' !! k
                     = MapPoint.mObservations mp !! k
                   \/ (K = Some k /\ MapPoint.mObservations mp' !! k = None)
  | _, _ => False
  end.

Definition graph_refined (K : option kfptr) (w w' : World) : Prop :=
  slots_unchanged w w'
  /\ forall p, point_refined K (mappoints w !! p) (mappoints w' !! p).

(** ** Concrete scenes

    Small object graphs on which the statements below are evaluated. *)

Definition I3 : Mat3 := ((1, 0, 0), (0, 1, 0), (0, 0, 1))%Q.

(** A keyframe at the origin with unit intrinsics, eight pyramid levels of
    scale 1.2, baseline [b] and close-depth threshold 40. *)
Definition scene_keyframe (id : Z) (b : Q) (keys : list KeyPoint)
  (uRight depth : list Q) (slots : list (option mpptr)) : KeyFrame.t :=
  KeyFrame.mk id false (-1) I3 (0, 0, 0)%Q (0, 0, 0)%Q 1 1 0 0 1 1 b b 40
    (12 # 10)
    [1; 12 # 10; 144 # 100; 1728 # 1000; 20736 # 10000; 248832 # 100000;
     2985984 # 1000000; 35831808 # 10000000]%Q
    [1; 144 # 100; 20736 # 10000; 2985984 # 1000000; 429981696 # 100000000;
     61917364224 # 10000000000; 8916100448256 # 1000000000000;
     1283918464548864 # 100000000000000]%Q
    keys uRight depth slots.

Definition scene_mappoint (bad : bool) (obs : list (kfptr * nat)) (first : Z)
  (found : Z) (visible : positive) : MapPoint.t :=
  MapPoint.mk bad (list_to_map obs) (Z.of_nat (length obs)) first found
    visible (-1).

(** Culling scene: keyframe 5 is current; point 0 is already bad, point 1
    has found ratio 1/5, point 2 has found ratio exactly 1/4 and is young,
    point 3 is two keyframes old with two observations, point 4 is three
    keyframes old and well observed. *)
Definition culling_scene (mono : bool) : Sys :=
  mkSys
    (set_mpCurrentKeyFrame (Some 5%nat)
       (set_mlpRecentAddedMapPoints [0; 1; 2; 3; 4; 1]%nat
          (LocalMapping_new mono)))
    (mkWorld
       {[ 5%nat := scene_keyframe 5 0 [] [] [] [] ]}
       (list_to_map
          [(0%nat, scene_mappoint true [] 4 1 1);
           (1%nat, scene_mappoint false [(5, 0)]%nat 5 1 5);
           (2%nat, scene_mappoint false [(5, 1)]%nat 5 1 4);
           (3%nat, scene_mappoint false [(3, 0); (4, 0)]%nat 3 1 1);
           (4%nat, scene_mappoint false
                     [(2, 0); (3, 1); (4, 1); (5, 2)]%nat 2 1 1)])
       (mkMap {[ 5%nat ]} ∅)).

(** Redundancy scene (stereo): five keyframes, handles 10 to 14 with ids 0
    to 4, see the same three points in their slots 0 to 2 at octave 0; the
    stored depths of keyframe 11 are given by [depths]. *)
Definition redundancy_keyframe (id : Z) (depths : list Q) : KeyFrame.t :=
  scene_keyframe id (1 # 10)
    [mkKeyPoint 10 10 0; mkKeyPoint 20 10 0; mkKeyPoint 30 10 0]
    [9; 19; 29]%Q depths [Some 0; Some 1; Some 2]%nat.

Definition redundancy_scene (depths : list Q) : World :=
  mkWorld
    (list_to_map
       [(10%nat, redundancy_keyframe 0 [5; 5; 5]%Q);
        (11%nat, redundancy_keyframe 1 depths);
        (12%nat, redundancy_keyframe 2 [5; 5; 5]%Q);
        (13%nat, redundancy_keyframe 3 [5; 5; 5]%Q);
        (14%nat, redundancy_keyframe 4 [5; 5; 5]%Q)])
    (list_to_map
       [(0%nat, scene_mappoint false
                  [(10, 0); (11, 0); (12, 0); (13, 0); (14, 0)]%nat 0 1 1);
        (1%nat, scene_mappoint false
                  [(10, 1); (11, 1); (12, 1); (13, 1); (14, 1)]%nat 0 1 1);
        (2%nat, scene_mappoint false
                  [(10, 2); (11, 2); (12, 2); (13, 2); (14, 2)]%nat 0 1 1)])
    (mkMap (list_to_set [10; 11; 12; 13; 14]%nat) (list_to_set [0; 1; 2]%nat)).

(** Triangulation scene: two stereo keyframes with baseline 1/10 at the
    origin.  The feature of the first is at pixel (0, 0) with right
    coordinate 24/10 and depth 10; the feature of the second is at pixel
    (5/2, 5/4) with right coordinate 24/10 and depth 1. *)
Definition stereo_view1 : KeyFrame.t :=
  scene_keyframe 7 (1 # 10) [mkKeyPoint 0 0 0] [24 # 10]%Q [10]%Q [None].

Definition stereo_view2 : KeyFrame.t :=
  scene_keyframe 6 (1 # 10) [mkKeyPoint (5 # 2) (5 # 4) 0] [24 # 10]%Q [1]%Q
    [None].

(** A point one unit in front of both cameras that projects to pixel
    (5/2, 5/4). *)
Definition scene_point : Vec3 := (5 # 2, 5 # 4, 1)%Q.

(** A stand-in for the Euclidean norm where its value does not matter. *)
Definition unit_norm (v : Vec3) : Q := 1%Q.

(** Worker scene: the mapper is about to process keyframe 14 of the
    redundancy scene.  The covisible neighbours of every keyframe are the
    other four in handle order; the matcher finds nothing to triangulate
    and [Fuse] and the optimizer leave the observation graph alone. *)
Definition scene_neighbors (w : World) (k : kfptr) (n : nat) : list kfptr :=
  take n (List.filter (fun k' => negb (k' =? k)%nat) [10; 11; 12; 13; 14]%nat).

Definition scene_covisible (w : World) (k : kfptr) : list kfptr :=
  scene_neighbors w k 4.

Definition scene_svd (a b c d : Vec4) : Vec4 := (0, 0, 0, 0)%Q.
Definition scene_unproject (kf : KeyFrame.t) (i : nat) : Vec3 := (0, 0, 0)%Q.
Definition scene_median (w : World) (k : kfptr) : Q := 1%Q.
Definition scene_matches (w : World) (k1 k2 : kfptr) : list (nat * nat) := [].
Definition scene_fuse (k : kfptr) (l : list (option mpptr)) (w : World)
  : World := w.
Definition scene_optimizer (k : kfptr) (w : World) : World := w.

(** The other threads do nothing. *)
Definition quiet_env (t : nat) (s : Sys) : Sys := s.

(** The tracker inserts keyframe [k] just before scheduling point [t0]. *)
Definition arrival_env (t0 : nat) (k : kfptr) (t : nat) (s : Sys) : Sys :=
  if (t =? t0)%nat then mkSys (InsertKeyFrame k (lm s)) (world s) else s.

Definition worker_scene (queue : list kfptr) (cur : option kfptr) : Exec :=
  mkExec
    (mkSys
       (set_mbFinished false
          (set_mpCurrentKeyFrame cur
             (set_mlNewKeyFrames queue (LocalMapping_new false))))
       (redundancy_scene [5; 5; 5]%Q))
    0 [].

(** Tracker scene (monocular): keyframe 14 arrives from the tracker with
    point 0, which the tracker created and registered on both sides, in its
    slot 0 and with point 1, known so far to keyframe 13 only, in its
    slot 1; slot 2 of keyframe 14 and slot 0 of keyframe 13 hold no point. *)
Definition tracker_keyframe (id : Z) (slots : list (option mpptr))
  : KeyFrame.t :=
  scene_keyframe id 0
    [mkKeyPoint 10 10 0; mkKeyPoint 20 10 0; mkKeyPoint 30 10 0]
    [-1; -1; -1]%Q [-1; -1; -1]%Q slots.

Definition tracker_world : World :=
  mkWorld
    (<[13%nat := tracker_keyframe 3 [None; Some 1%nat; None]]>
       (<[14%nat := tracker_keyframe 4 [Some 0%nat; Some 1%nat; None]]> ∅))
    (<[0%nat := scene_mappoint false [(14, 0)]%nat 4 1 1]>
       (<[1%nat := scene_mappoint false [(13, 1)]%nat 3 1 1]> ∅))
    (mkMap {[ 13%nat ]} {[ 0%nat; 1%nat ]}).

Definition tracker_scene : Sys :=
  mkSys (set_mlNewKeyFrames [14%nat] (LocalMapping_new true)) tracker_world.

(** ** [LocalMapping::SkewSymmetricMatrix] and [LocalMapping::ComputeF12]

    What the source gets from Eigen: sum, negation and product of 3x3
    matrices, and [inverse()], which for a fixed-size 3x3 matrix is the
    cofactor formula.  The quotient by a zero determinant is an infinity or
    a NaN in the C++ and is not a rational: the statements about
    [ComputeF12] assume regular calibration matrices. *)

Definition vadd (a b : Vec3) : Vec3 :=
  let '(a0, a1, a2) := a in let '(b0, b1, b2) := b in
  ((a0 + b0)%Q, (a1 + b1)%Q, (a2 + b2)%Q).

Definition mneg (m : Mat3) : Mat3 :=
  let '((a, b, c), (d, e, f), (g, h, i)) := m in
  ((- a, - b, - c), (- d, - e, - f), (- g, - h, - i))%Q.

Definition mmul (a b : Mat3) : Mat3 :=
  let bt := transpose b in
  (mulv bt (row a 0), mulv bt (row a 1), mulv bt (row a 2)).

Definition determinant (m : Mat3) : Q :=
  let '((a, b, c), (d, e, f), (g, h, i)) := m in
  ((e * i - f * h) * a + (c * h - b * i) * d + (b * f - c * e) * g)%Q.

Definition inverse (m : Mat3) : Mat3 :=
  let '((a, b, c), (d, e, f), (g, h, i)) := m in
  let invdet := (1 / determinant m)%Q in
  (((e * i - f * h) * invdet, (c * h - b * i) * invdet, (b * f - c * e) * invdet),
   ((f * g - d * i) * invdet, (a * i - c * g) * invdet, (c * d - a * f) * invdet),
   ((d * h - e * g) * invdet, (b * g - a * h) * invdet, (a * e - b * d) * invdet))%Q.

(** [LocalMapping::SkewSymmetricMatrix] *)
Definition SkewSymmetricMatrix (v : Vec3) : Mat3 :=
  let '(v0, v1, v2) := v in
  ((0, - v2, v1), (v2, 0, - v0), (- v1, v0, 0))%Q.

(** [LocalMapping::ComputeF12].  [K1] and [K2] are the calibration matrices
    [pKF1->mK] and [pKF2->mK]. *)
Definition ComputeF12 (K1 K2 : Mat3) (pKF1 pKF2 : KeyFrame.t) : Mat3 :=
  let R1w := KeyFrame.GetRotation pKF1 in
  let t1w := KeyFrame.GetTranslation pKF1 in
  let R2w := KeyFrame.GetRotation pKF2 in
  let t2w := KeyFrame.GetTranslation pKF2 in
  let R12 := mmul R1w (transpose R2w) in
  let t12 := vadd (mulv (mmul (mneg R1w) (transpose R2w)) t2w) t1w in
  let t12x := SkewSymmetricMatrix t12 in
  mmul (mmul (mmul (inverse (transpose K1)) t12x) R12) (inverse K2).

(** Componentwise equality of the rationals in vectors and matrices. *)
Definition veq (a b : Vec3) : Prop :=
  (comp a 0 == comp b 0 /\ comp a 1 == comp b 1 /\ comp a 2 == comp b 2)%Q.

Definition meq (a b : Mat3) : Prop :=
  veq (row a 0) (row b 0) /\ veq (row a 1) (row b 1) /\ veq (row a 2) (row b 2).

(** The camera coordinates of the world point [X] in a keyframe, and its
    homogeneous pixel under the calibration matrix [K]. *)
Definition camera_coordinates (kf : KeyFrame.t) (X : Vec3) : Vec3 :=
  vadd (mulv (KeyFrame.Rcw kf) X) (KeyFrame.tcw kf).

Definition pixel_of (K : Mat3) (kf : KeyFrame.t) (X : Vec3) : Vec3 :=
  mulv K (camera_coordinates kf X).

(** The homogeneous coordinates of a world point, and the product of a row
    of the triangulation matrix [A] with a homogeneous point. *)
Definition homogeneous (X : Vec3) : Vec4 :=
  let '(x, y, z) := X in (x, y, z, 1%Q).

Definition dot4 (a b : Vec4) : Q :=
  let '(a0, a1, a2, a3) := a in let '(b0, b1, b2, b3) := b in
  (a0 * b0 + a1 * b1 + a2 * b2 + a3 * b3)%Q.

(** Lines 277 and 278: the normalised image coordinates of a keypoint. *)
Definition normalized (kf : KeyFrame.t) (kp : KeyPoint) : Vec3 :=
  ((pt_x kp - KeyFrame.cx kf) * KeyFrame.invfx kf,
   (pt_y kp - KeyFrame.cy kf) * KeyFrame.invfy kf, 1)%Q.

(** A keyframe with pose [R | t] and unit intrinsics that holds no
    feature. *)
Definition posed_keyframe (id : Z) (R : Mat3) (t : Vec3) : KeyFrame.t :=
  KeyFrame.mk id false (-1) R t (0, 0, 0)%Q 1 1 0 0 1 1 (1 # 10) (1 # 10) 40
    (12 # 10) [1]%Q [1]%Q [] [] [] [].

(** A calibration matrix, and a rotation about the optical axis. *)
Definition scene_K : Mat3 := ((500, 0, 320), (0, 500, 240), (0, 0, 1))%Q.
Definition scene_R : Mat3 :=
  ((3 # 5, - (4 # 5), 0), (4 # 5, 3 # 5, 0), (0, 0, 1))%Q.

(** Lines 277 to 282: the cosine of the angle between the viewing rays of
    two keypoints. *)
Definition cosParallaxRays_of (norm : Vec3 -> Q) (kf1 kf2 : KeyFrame.t)
  (kp1 kp2 : KeyPoint) : Q :=
  let ray1 := mulv (transpose (KeyFrame.GetRotation kf1)) (normalized kf1 kp1) in
  let ray2 := mulv (transpose (KeyFrame.GetRotation kf2)) (normalized kf2 kp2) in
  (dot ray1 ray2 / (norm ray1 * norm ray2))%Q.

(** Pair scene (stereo): keyframes 1 and 2 both see the scene point as
    their feature 0, which has no map point yet; unprojecting a stereo
    feature gives the scene point. *)
Definition point_unproject (kf : KeyFrame.t) (i : nat) : Vec3 := scene_point.

Definition pair_scene : Sys :=
  mkSys (set_mpCurrentKeyFrame (Some 1%nat) (LocalMapping_new false))
    (mkWorld (<[1%nat := stereo_view2]> (<[2%nat := stereo_view2]> ∅)) ∅
       (mkMap {[ 1%nat; 2%nat ]} ∅)).

(** The keyframe with another value for [mbf], the stereo baseline times
    the focal length. *)
Definition KeyFrame_set_mbf (bf : Q) (k : KeyFrame.t) : KeyFrame.t :=
  KeyFrame.mk (KeyFrame.mnId k) (KeyFrame.mbBad k) (KeyFrame.mnFuseTargetForKF k)
    (KeyFrame.Rcw k) (KeyFrame.tcw k) (KeyFrame.Ow k) (KeyFrame.fx k)
    (KeyFrame.fy k) (KeyFrame.cx k) (KeyFrame.cy k) (KeyFrame.invfx k)
    (KeyFrame.invfy k) (KeyFrame.mb k) bf (KeyFrame.mThDepth k)
    (KeyFrame.mfScaleFactor k) (KeyFrame.mvScaleFactors k)
    (KeyFrame.mvLevelSigma2 k) (KeyFrame.mvKeysUn k) (KeyFrame.mvuRight k)
    (KeyFrame.mvDepth k) (KeyFrame.mvpMapPoints k).

(** ** The fate of a point in [MapPointCulling]

    The tests of lines 175 to 183 on the state [mp] of a listed point, for
    the id [N] of the current keyframe and the threshold [th]: whether
    the point is marked bad, and whether it stays in the list. *)

Definition MapPointCulling_age (N : Z) (mp : MapPoint.t) : Z :=
  int_sub (to_int N) (to_int (MapPoint.mnFirstKFid mp)).

Definition MapPointCulling_culls (N th : Z) (mp : MapPoint.t) : bool :=
  negb (MapPoint.isBad mp)
  && (Qlt_bool (MapPoint.GetFoundRatio mp) (1 # 4)
      || ((2 <=? MapPointCulling_age N mp) && (MapPoint.Observations mp <=? th))).

Definition MapPointCulling_stays (N th : Z) (mp : MapPoint.t) : bool :=
  negb (MapPoint.isBad mp)
  && negb (Qlt_bool (MapPoint.GetFoundRatio mp) (1 # 4))
  && negb ((2 <=? MapPointCulling_age N mp) && (MapPoint.Observations mp <=? th))
  && negb (3 <=? MapPointCulling_age N mp).

Definition culled_in (N th : Z) (w : World) (p : mpptr) : bool :=
  from_option (MapPointCulling_culls N th) false (mappoints w !! p).

Definition stays_in (N th : Z) (w : World) (p : mpptr) : bool :=
  from_option (MapPointCulling_stays N th) false (mappoints w !! p).

(** ** Fuse candidates and targets of [SearchInNeighbors]

    Lines 469 and 431: the point is not bad and not yet marked as a fuse
    candidate for the current keyframe; the keyframe is not bad and not yet
    marked as a fuse target for it. *)

Definition is_fuse_candidate (curId : Z) (w : World) (p : mpptr) : bool :=
  from_option
    (fun mp => negb (MapPoint.isBad mp || (MapPoint.mnFuseCandidateForKF mp =? curId)))
    false (mappoints w !! p).

Definition is_fuse_target (curId : Z) (w : World) (k : kfptr) : bool :=
  from_option
    (fun kf => negb (KeyFrame.isBad kf || (KeyFrame.mnFuseTargetForKF kf =? curId)))
    false (keyframes w !! k).

(** The point sits in a slot of one of the keyframes [ks]. *)
Definition held_by (w : World) (ks : list kfptr) (p : mpptr) : Prop :=
  exists k kf, k ∈ ks /\ keyframes w !! k = Some kf
               /\ Some p ∈ KeyFrame.GetMapPointMatches kf.

(** ** The mapper's own state between two of its steps

    [lm_drift env l l'] holds when [l'] arises from [l] by steps of the
    other threads (at any scheduling point, on any graph) and by the
    mapper replacing its recent-added list: what the stages between
    [ProcessNewKeyFrame] and the end of an iteration do to the members of
    [LocalMapping]. *)

Inductive lm_drift (env : nat -> Sys -> Sys)
  : LocalMapping -> LocalMapping -> Prop :=
| drift_refl (l : LocalMapping) : lm_drift env l l
| drift_env (l l' : LocalMapping) (t : nat) (w : World) :
    lm_drift env (lm (env t (mkSys l w))) l' -> lm_drift env l l'
| drift_recent (l l' : LocalMapping) (r : list mpptr) :
    lm_drift env (set_mlpRecentAddedMapPoints r l) l' -> lm_drift env l l'.

(** The other threads do nothing to the mapper but insert keyframes. *)
Definition inserts_keyframes (env : nat -> Sys -> Sys) : Prop :=
  forall t s, exists ks,
    lm (env t s) = foldl (fun l k => InsertKeyFrame k l) (lm s) ks.

(** The flags of the stop and finish protocol, and the sensor flag. *)
Definition control (l : LocalMapping) : bool * bool * bool * bool * bool * bool :=
  (mbMonocular l, mbFinishRequested l, mbFinished l, mbStopped l,
   mbStopRequested l, mbNotStop l).

(** The mapper is stopped only on request and never while a client holds
    it with [SetNotStop(true)]. *)
Definition stop_lock (c : bool * bool * bool * bool * bool * bool) : Prop :=
  let '(_, _, _, stopped, requested, notStop) := c in
  stopped = true -> requested = true /\ notStop = false.

(** Stopped and not asked to finish: the condition of the wait loop. *)
Definition waiting (s : Sys) : Prop :=
  isStopped (lm s) = true /\ CheckFinish (lm s) = false.

(** The tracker requests a stop just before scheduling point [t0]. *)
Definition stop_env (t0 : nat) (t : nat) (s : Sys) : Sys :=
  if (t =? t0)%nat then mkSys (RequestStop (lm s)) (world s) else s.

(** The mapper of the worker scene, stopped. *)
Definition stopped_scene : Exec :=
  on_lm (fun l => snd (Stop (RequestStop l))) (worker_scene [] None).

(** ** The member functions the other threads call

    A call of one of the member functions of [LocalMapping] that the
    tracker, the loop closer and the system use, with its effect on the
    members; [RequestReset] stands for the request it makes before it
    waits for the mapper to clear it. *)

Inductive Call :=
| CallInsertKeyFrame (pKF : kfptr)
| CallRequestStop
| CallRequestReset
| CallStop
| CallRelease
| CallSetAcceptKeyFrames (flag : bool)
| CallSetNotStop (flag : bool)
| CallInterruptBA
| CallRequestFinish.

Definition call (c : Call) (l : LocalMapping) : LocalMapping :=
  match c with
  | CallInsertKeyFrame pKF => InsertKeyFrame pKF l
  | CallRequestStop => RequestStop l
  | CallRequestReset => set_mbResetRequested true l
  | CallStop => snd (Stop l)
  | CallRelease => Release l
  | CallSetAcceptKeyFrames flag => SetAcceptKeyFrames flag l
  | CallSetNotStop flag => snd (SetNotStop flag l)
  | CallInterruptBA => InterruptBA l
  | CallRequestFinish => RequestFinish l
  end.

Definition calls (cs : list Call) (l : LocalMapping) : LocalMapping :=
  foldl (fun l c => call c l) l cs.

(** * Theorems *)

(** ** Control surface *)

(** C9. [Stop()] returns true exactly when a stop was requested and the
    not-stop veto is clear; in that case the loop is stopped afterwards and
    nothing else changes, and otherwise the state is left as it was.
    [SetNotStop(flag)] returns false exactly when [flag] is true and the
    loop is already stopped, and then leaves the state (the veto included)
    as it was; in every other case it stores [flag] in the veto and
    returns true. *)
Theorem Stop_SetNotStop_contract (l : LocalMapping) (flag : bool) :
  (fst (Stop l) = true <-> mbStopRequested l = true /\ mbNotStop l = false)
  /\ (fst (Stop l) = true ->
        snd (Stop l) = set_mbStopped true l /\ isStopped (snd (Stop l)) = true)
  /\ (fst (Stop l) = false -> snd (Stop l) = l)
  /\ (fst (SetNotStop flag l) = false <-> flag = true /\ mbStopped l = true)
  /\ (fst (SetNotStop flag l) = false -> snd (SetNotStop flag l) = l)
  /\ (fst (SetNotStop flag l) = true ->
        snd (SetNotStop flag l) = set_mbNotStop flag l
        /\ mbNotStop (snd (SetNotStop flag l)) = flag).
Proof.
  unfold Stop, SetNotStop, isStopped.
  destruct (mbStopRequested l), (mbNotStop l), flag, (mbStopped l);
    cbn; intuition congruence.
Qed.

(** A mapper in which a stop was requested stops; once stopped, the veto
    is refused. *)
Lemma Stop_SetNotStop_contract_witness :
  fst (Stop (RequestStop (LocalMapping_new false))) = true
  /\ fst (SetNotStop true
            (snd (Stop (RequestStop (LocalMapping_new false))))) = false.
Proof.
  split.
  - apply (Stop_SetNotStop_contract (RequestStop (LocalMapping_new false))
             true). split; reflexivity.
  - apply (Stop_SetNotStop_contract
             (snd (Stop (RequestStop (LocalMapping_new false)))) true).
    split; reflexivity.
Defined.

(** C10.  [SetFinish] sets the finished and the stopped flag.  On a
    finished mapper [Release] changes nothing: the queue, the stopped flag
    and the stop-requested flag stay as they are.  On a mapper that is not
    finished it empties the queue and clears both stop flags, and nothing
    else. *)
Theorem Release_after_finish (l : LocalMapping) :
  (mbFinished (SetFinish l) = true /\ mbStopped (SetFinish l) = true)
  /\ Release (SetFinish l) = SetFinish l
  /\ (mbFinished l = true -> Release l = l)
  /\ (mbFinished l = false ->
      Release l
      = set_mlNewKeyFrames []
          (set_mbStopRequested false (set_mbStopped false l))
      /\ mlNewKeyFrames (Release l) = []
      /\ mbStopped (Release l) = false
      /\ mbStopRequested (Release l) = false).
Proof.
  split; [by split|]. split; [reflexivity|]. split.
  - unfold Release. by intros ->.
  - unfold Release. intros ->. by repeat split.
Qed.

(** A running mapper with a pending keyframe and a stop in force is
    released; after [SetFinish] the same call leaves everything as it is. *)
Lemma Release_after_finish_witness :
  mlNewKeyFrames
    (Release (set_mbFinished false
                (set_mbStopped true
                   (RequestStop (InsertKeyFrame 14%nat
                                   (LocalMapping_new false)))))) = []
  /\ mlNewKeyFrames
       (Release (SetFinish
                   (RequestStop (InsertKeyFrame 14%nat
                                   (LocalMapping_new false))))) = [14%nat].
Proof.
  split.
  - apply (Release_after_finish
             (set_mbFinished false
                (set_mbStopped true
                   (RequestStop (InsertKeyFrame 14%nat
                                   (LocalMapping_new false)))))).
    reflexivity.
  - destruct (Release_after_finish
                (RequestStop (InsertKeyFrame 14%nat (LocalMapping_new false))))
      as (_ & -> & _).
    reflexivity.
Defined.

(** ** Numeric helpers *)

Lemma Qlt_bool_iff (x y : Q) : Qlt_bool x y = true <-> (x < y)%Q.
Proof.
  unfold Qlt_bool. rewrite negb_true_iff.
  split.
  - intros H. apply Qnot_le_lt. intros Hle.
    apply Qle_bool_iff in Hle. congruence.
  - intros H. destruct (Qle_bool y x) eqn:E; [|reflexivity].
    apply Qle_bool_iff in E. exfalso. exact (Qlt_not_le _ _ H E).
Qed.

Lemma Qlt_bool_false_iff (x y : Q) : Qlt_bool x y = false <-> (y <= x)%Q.
Proof.
  unfold Qlt_bool. rewrite negb_false_iff. apply Qle_bool_iff.
Qed.

Lemma to_int_fits (z : Z) : - 2 ^ 31 <= z < 2 ^ 31 -> to_int z = z.
Proof.
  intros H. unfold to_int.
  change (2 ^ 31) with 2147483648 in *. change (2 ^ 32) with 4294967296.
  rewrite Z.mod_small by lia. lia.
Qed.

Lemma int_sub_fits (a b : Z) :
  id_fits_int a -> id_fits_int b -> int_sub (to_int a) (to_int b) = a - b.
Proof.
  unfold id_fits_int, int_sub.
  change (2 ^ 31) with 2147483648. intros Ha Hb.
  rewrite (to_int_fits a), (to_int_fits b), to_int_fits;
    change (2 ^ 31) with 2147483648; lia.
Qed.

(** ** Map-point culling *)

Lemma first_ids_fit_int_SetBadFlag (w : World) (p : mpptr) :
  first_ids_fit_int w -> first_ids_fit_int (upd_mappoint p MapPoint.SetBadFlag w).
Proof.
  unfold first_ids_fit_int, upd_mappoint. cbn.
  intros H q mq Hq.
  apply lookup_alter_Some in Hq as [(-> & mp & Hmp & ->)|[_ Hq]].
  - cbn. exact (H _ _ Hmp).
  - exact (H _ _ Hq).
Qed.

Lemma MapPointCulling_loop_verdict (mono : bool) (N : Z) (l : list mpptr) :
  id_fits_int N ->
  forall w, first_ids_fit_int w ->
  MapPointCulling_loop N (tau mono) w l = culling_pass mono N w l.
Proof.
  intros HN. induction l as [|p rest IH]; intros w Hw; [reflexivity|].
  cbn [MapPointCulling_loop culling_pass].
  destruct (mappoints w !! p) as [mp|] eqn:Hp; [|reflexivity].
  cbn [deref mbind result_bind].
  pose proof (Hw _ _ Hp) as Hfit. cbn in Hfit.
  unfold culling_verdict, MapPoint.isBad.
  destruct (MapPoint.mbBad mp); [by apply IH|].
  rewrite (int_sub_fits _ _ HN Hfit).
  destruct (Qlt_le_dec _ _) as [Hlt|Hge].
  { apply Qlt_bool_iff in Hlt. rewrite Hlt.
    apply IH. by apply first_ids_fit_int_SetBadFlag. }
  apply Qlt_bool_false_iff in Hge. rewrite Hge.
  destruct (decide _) as [[H2 Hobs]|Hn].
  { replace (2 <=? _) with true by (symmetry; apply Z.leb_le; lia).
    replace (_ <=? tau mono) with true by (symmetry; apply Z.leb_le; lia).
    cbn [andb]. apply IH. by apply first_ids_fit_int_SetBadFlag. }
  replace (_ && _) with false; cycle 1.
  { symmetry. apply andb_false_iff.
    destruct (Z.leb_spec 2 (N - MapPoint.mnFirstKFid mp)); [|by left].
    right. apply Z.leb_gt.
    destruct (Z.le_gt_cases (MapPoint.Observations mp) (tau mono)); [|lia].
    exfalso. apply Hn. split; lia. }
  destruct (decide _) as [H3|H3].
  { replace (3 <=? _) with true by (symmetry; apply Z.leb_le; lia).
    by apply IH. }
  replace (3 <=? _) with false by (symmetry; apply Z.leb_gt; lia).
  by rewrite IH.
Qed.

Lemma culling_pass_total (mono : bool) (N : Z) (l : list mpptr) :
  forall w, (forall p, p ∈ l -> is_Some (mappoints w !! p)) ->
  exists r, culling_pass mono N w l = Ok r.
Proof.
  induction l as [|p rest IH]; intros w Hall; [by eexists|].
  cbn [culling_pass].
  destruct (Hall p) as [mp Hp]; [by left|]. rewrite Hp.
  cbn [deref mbind result_bind].
  assert (Hrest : forall q, q ∈ rest -> is_Some (mappoints w !! q))
    by (intros q Hq; apply Hall; by right).
  assert (Hrest' : forall q, q ∈ rest ->
            is_Some (mappoints (upd_mappoint p MapPoint.SetBadFlag w) !! q)).
  { intros q Hq. cbn. destruct (Hrest q Hq) as [mq Hmq].
    destruct (decide (p = q)) as [->|Hne].
    - rewrite lookup_alter_eq, Hmq. by eexists.
    - rewrite lookup_alter_ne by done. by eexists. }
  destruct (culling_verdict mono N mp); try (by apply IH).
  destruct (IH w Hrest) as [[w' kept] ->]. by eexists.
Qed.

(** C2. [MapPointCulling] walks the recent-added list and gives every point
    the verdict of the specification's rule, in this order: bad points are
    dropped; a found ratio below 0.25 culls; an age of at least two
    keyframes with at most [tau] observations culls; an age of at least
    three keyframes graduates; anything else stays.  The pass completes
    when every listed pointer is live, and a found ratio of exactly 0.25
    never gives the ratio verdict.  Ids are those the [(int)] casts of the
    source keep unchanged. *)
Theorem MapPointCulling_decision_sequence (s : Sys) (cur : kfptr)
  (kf : KeyFrame.t) :
  mpCurrentKeyFrame (lm s) = Some cur ->
  keyframes (world s) !! cur = Some kf ->
  id_fits_int (KeyFrame.mnId kf) ->
  first_ids_fit_int (world s) ->
  MapPointCulling s =
    ('(w, l) ← culling_pass (mbMonocular (lm s)) (KeyFrame.mnId kf) (world s)
                 (mlpRecentAddedMapPoints (lm s));
     Ok (mkSys (set_mlpRecentAddedMapPoints l (lm s)) w))
  /\ ((forall p, p ∈ mlpRecentAddedMapPoints (lm s) ->
         is_Some (mappoints (world s) !! p)) ->
      exists s', MapPointCulling s = Ok s')
  /\ (forall mono N p,
        (MapPoint.GetFoundRatio p == 1 # 4)%Q ->
        culling_verdict mono N p <> CullFoundRatio).
Proof.
  intros Hcur Hkf HN Hw.
  assert (Heq : MapPointCulling s =
    ('(w, l) ← culling_pass (mbMonocular (lm s)) (KeyFrame.mnId kf) (world s)
                 (mlpRecentAddedMapPoints (lm s));
     Ok (mkSys (set_mlpRecentAddedMapPoints l (lm s)) w))).
  { unfold MapPointCulling. rewrite Hcur. cbn [deref mbind result_bind].
    rewrite Hkf. cbn [deref mbind result_bind].
    change (if mbMonocular (lm s) then 2 else 3) with (tau (mbMonocular (lm s))).
    by rewrite MapPointCulling_loop_verdict. }
  split; [exact Heq|split].
  - intros Hall. rewrite Heq.
    destruct (culling_pass_total (mbMonocular (lm s)) (KeyFrame.mnId kf)
                (mlpRecentAddedMapPoints (lm s)) (world s) Hall) as [[w l] ->].
    by eexists.
  - intros mono N p Hratio. unfold culling_verdict.
    destruct (MapPoint.mbBad p); [discriminate|].
    destruct (Qlt_le_dec _ _) as [Hlt|_].
    + rewrite Hratio in Hlt. exfalso. exact (Qlt_irrefl _ Hlt).
    + repeat case_decide; discriminate.
Qed.

Lemma first_ids_fit_int_culling_scene (mono : bool) :
  first_ids_fit_int (world (culling_scene mono)).
Proof.
  unfold first_ids_fit_int. cbn [world culling_scene mappoints].
  apply map_Forall_to_list. rewrite map_to_list_to_map.
  - repeat (apply Forall_cons; split;
            [cbn; unfold id_fits_int; change (2 ^ 31) with 2147483648; lia|]).
    apply Forall_nil_2.
  - cbn. apply (bool_decide_unpack _). by vm_compute.
Qed.

(** On the culling scene, stereo configuration: points 0, 1, 3 and 4 leave the
    list, point 2 (ratio exactly 1/4) stays, and exactly points 1 and 3 are
    newly bad. *)
Lemma MapPointCulling_decision_sequence_witness :
  exists s',
    MapPointCulling (culling_scene false) = Ok s'
    /\ mlpRecentAddedMapPoints (lm s') = [2%nat]
    /\ (MapPoint.mbBad <$> mappoints (world s') !! 1%nat) = Some true
    /\ (MapPoint.mbBad <$> mappoints (world s') !! 2%nat) = Some false
    /\ (MapPoint.mbBad <$> mappoints (world s') !! 3%nat) = Some true
    /\ (MapPoint.mbBad <$> mappoints (world s') !! 4%nat) = Some false.
Proof.
  destruct (MapPointCulling_decision_sequence (culling_scene false) 5%nat
              (scene_keyframe 5 0 [] [] [] []) eq_refl eq_refl) as [Heq _].
  - cbn. unfold id_fits_int. change (2 ^ 31) with 2147483648. lia.
  - apply first_ids_fit_int_culling_scene.
  - rewrite Heq. eexists. split; [vm_compute; reflexivity|].
    vm_compute. repeat split.
Defined.

(** ** Keyframe culling *)

Lemma count_if_nonneg {A} (f : A -> bool) (l : list A) : 0 <= count_if f l.
Proof. induction l as [|x l IH]; cbn; [lia|]. destruct (f x); lia. Qed.

Lemma count_if_excluded {A} (f : A -> bool) (l : list A) (x : A) :
  x ∈ l -> f x = false -> count_if f l <= Z.of_nat (length l) - 1.
Proof.
  induction l as [|y l IH]; intros Hin Hx; [by apply elem_of_nil in Hin|].
  cbn [count_if length]. apply elem_of_cons in Hin as [<-|Hin].
  - rewrite Hx.
    assert (count_if f l <= Z.of_nat (length l)).
    { clear. induction l as [|z l IH]; cbn [count_if length]; [lia|].
      destruct (f z); lia. }
    lia.
  - specialize (IH Hin Hx). destruct (f y); lia.
Qed.

Lemma KeyFrameCulling_observers_min (w : World) (pKF : kfptr) (o : Z)
  (obs : list (kfptr * nat)) :
  forall n, 0 <= n < 3 ->
  forallb (observer_readable w) obs = true ->
  KeyFrameCulling_observers w pKF o 3 obs n
  = Ok (Z.min 3 (n + count_if (observes_within w pKF o) obs)).
Proof.
  induction obs as [|[k idx] rest IH]; intros n Hn Hr;
    cbn [KeyFrameCulling_observers count_if].
  { f_equal. lia. }
  cbn [forallb] in Hr. apply andb_true_iff in Hr as [Hk Hr].
  pose proof (count_if_nonneg (observes_within w pKF o) rest) as Hpos.
  unfold observes_within at 1. unfold observer_readable in Hk.
  cbn [fst snd] in *.
  case_bool_decide as Heq; cbn [negb andb].
  { rewrite IH by done. f_equal. }
  destruct (keyframes w !! k) as [kfi|]; [|discriminate].
  apply bool_decide_eq_true in Hk. apply lookup_lt_is_Some in Hk as [kpi Hkpi].
  cbn [deref mbind result_bind]. rewrite !Hkpi. cbn [deref mbind result_bind].
  destruct (octave kpi <=? o + 1).
  - destruct (Z.leb_spec 3 (n + 1)).
    + f_equal. lia.
    + rewrite IH by (done || lia). f_equal. lia.
  - rewrite IH by done. f_equal.
Qed.

Ltac run := cbn [deref mbind result_bind mret result_ret].

Lemma far_is_not_close (kf : KeyFrame.t) (i : nat) (d : Q) :
  KeyFrame.mvDepth kf !! i = Some d ->
  Qlt_bool (KeyFrame.mThDepth kf) d || Qlt_bool d 0 = negb (close_depth kf i).
Proof.
  intros Hd. unfold close_depth, Qlt_bool. rewrite Hd.
  destruct (Qle_bool d (KeyFrame.mThDepth kf)), (Qle_bool 0 d); reflexivity.
Qed.

Lemma other_observers_lt_size (w : World) (pKF : kfptr) (o : Z)
  (mp : MapPoint.t) :
  is_Some (MapPoint.mObservations mp !! pKF) ->
  other_observers w pKF o mp < Z.of_nat (size (MapPoint.mObservations mp)).
Proof.
  intros [idx Hidx]. unfold other_observers.
  rewrite <- length_map_to_list.
  apply elem_of_map_to_list in Hidx.
  pose proof (count_if_excluded (observes_within w pKF o) _ _ Hidx) as H.
  assert (observes_within w pKF o (pKF, idx) = false) as Hex.
  { unfold observes_within. cbn [fst]. by rewrite bool_decide_eq_true_2. }
  specialize (H Hex). lia.
Qed.

(** One slot adds to the two counters exactly what the specification's
    tests say. *)
Lemma KeyFrameCulling_slot_counts (w : World) (mono : bool) (pKF : kfptr)
  (kf : KeyFrame.t) (i : nat) (slot : option mpptr) (nRed nMPs : Z) :
  slot_wf w pKF slot = true ->
  (i < length (KeyFrame.mvKeysUn kf))%nat ->
  (i < length (KeyFrame.mvDepth kf))%nat ->
  KeyFrameCulling_slot w mono pKF kf i slot (nRed, nMPs)
  = Ok (nRed + (if slot_redundant w mono pKF kf i slot then 1 else 0),
        nMPs + (if slot_counted w mono kf i slot then 1 else 0)).
Proof.
  intros Hwf Hkeys Hdepth.
  apply lookup_lt_is_Some in Hkeys as [kp Hkp].
  apply lookup_lt_is_Some in Hdepth as [d Hd].
  unfold KeyFrameCulling_slot, slot_redundant, slot_counted, slot_wf in *.
  destruct slot as [p|]; [|by rewrite !Z.add_0_r].
  destruct (mappoints w !! p) as [mp|]; [|discriminate]. run.
  unfold MapPoint.isBad. rewrite Hkp.
  destruct (MapPoint.mbBad mp); cbn [negb andb orb] in *;
    [by rewrite !Z.add_0_r|].
  apply andb_true_iff in Hwf as [Hwf Hread].
  apply andb_true_iff in Hwf as [Hself Hcount].
  apply bool_decide_eq_true in Hself. apply Z.leb_le in Hcount.
  pose proof (other_observers_lt_size w pKF (octave kp) mp Hself) as Hlt.
  assert (Hbody :
    (if 3 <? MapPoint.Observations mp
     then kp0 ← deref (Some kp);
          nObs ← KeyFrameCulling_observers w pKF (octave kp0) 3
                    (map_to_list (MapPoint.GetObservations mp)) 0;
          Ok (if 3 <=? nObs then nRed + 1 else nRed, nMPs + 1)
     else Ok (nRed, nMPs + 1))
    = Ok (nRed + (if 3 <=? other_observers w pKF (octave kp) mp
                  then 1 else 0), nMPs + 1)).
  { destruct (Z.ltb_spec 3 (MapPoint.Observations mp)) as [Hobs|Hobs]; run.
    - unfold MapPoint.GetObservations.
      rewrite KeyFrameCulling_observers_min by (done || lia). run.
      fold (other_observers w pKF (octave kp) mp).
      destruct (Z.leb_spec 3 (other_observers w pKF (octave kp) mp));
        [rewrite Z.min_l by lia|rewrite Z.min_r by lia].
      + reflexivity.
      + rewrite (proj2 (Z.leb_gt _ _)) by lia. by rewrite Z.add_0_r.
    - rewrite (proj2 (Z.leb_gt 3 _)) by lia. by rewrite Z.add_0_r. }
  destruct mono; run; cbn [orb andb].
  - exact Hbody.
  - rewrite Hd. run. rewrite (far_is_not_close kf i d Hd).
    destruct (close_depth kf i); cbn [negb andb].
    + exact Hbody.
    + by rewrite !Z.add_0_r.
Qed.

Lemma KeyFrameCulling_slots_counts (w : World) (mono : bool) (pKF : kfptr)
  (kf : KeyFrame.t) (slots : list (option mpptr)) :
  forall i nRed nMPs,
  forallb (slot_wf w pKF) slots = true ->
  (i + length slots <= length (KeyFrame.mvKeysUn kf))%nat ->
  (i + length slots <= length (KeyFrame.mvDepth kf))%nat ->
  KeyFrameCulling_slots w mono pKF kf i slots (nRed, nMPs)
  = Ok (nRed + count_slots (slot_redundant w mono pKF kf) i slots,
        nMPs + count_slots (slot_counted w mono kf) i slots).
Proof.
  induction slots as [|slot rest IH]; intros i nRed nMPs Hwf Hk Hd;
    cbn [KeyFrameCulling_slots count_slots].
  { by rewrite !Z.add_0_r. }
  cbn [forallb length] in *. apply andb_true_iff in Hwf as [Hslot Hwf].
  rewrite KeyFrameCulling_slot_counts by (done || lia). run.
  rewrite IH by (done || lia). f_equal. f_equal; lia.
Qed.

Lemma nine_tenths_exceeded (nMPs nRed : Z) :
  Qlt_bool ((9 # 10) * inject_Z nMPs) (inject_Z nRed) = true
  <-> 9 * nMPs < 10 * nRed.
Proof.
  rewrite Qlt_bool_iff. unfold Qlt, Qmult, inject_Z. cbn. lia.
Qed.

Lemma KeyFrame_SetBadFlag_marks (w : World) (pKF : kfptr) (kf : KeyFrame.t) :
  keyframes w !! pKF = Some kf ->
  keyframes (KeyFrame_SetBadFlag pKF w) !! pKF
  = Some (KeyFrame.set_mbBad true kf).
Proof.
  intros Hkf. unfold KeyFrame_SetBadFlag. rewrite Hkf.
  cbn [Map_EraseKeyFrame upd_keyframe keyframes].
  assert (Hfold : forall slots,
    keyframes (foldr (fun slot w0 =>
        match slot with
        | Some pMP => upd_mappoint pMP (MapPoint_EraseObservation pKF) w0
        | None => w0
        end) w slots) = keyframes w).
  { induction slots as [|[p|] rest IH]; cbn; done. }
  rewrite Hfold, lookup_alter_eq, Hkf. reflexivity.
Qed.



(** C7 (as the code has it).  In the stereo/RGB-D configuration a slot of
    the examined keyframe whose stored depth is negative or greater than the
    close-depth threshold adds nothing to either counter, and a slot holding
    a non-bad point whose depth lies between zero and the threshold, both
    included, is counted. *)
Theorem KeyFrameCulling_counts_close_points (w : World) (pKF : kfptr)
  (kf : KeyFrame.t) (i : nat) (p : mpptr) (mp : MapPoint.t) (d : Q)
  (nRed nMPs : Z) :
  mappoints w !! p = Some mp ->
  KeyFrame.mvDepth kf !! i = Some d ->
  ((d < 0 \/ KeyFrame.mThDepth kf < d)%Q ->
   KeyFrameCulling_slot w false pKF kf i (Some p) (nRed, nMPs)
   = Ok (nRed, nMPs))
  /\ (MapPoint.mbBad mp = false ->
      (0 <= d /\ d <= KeyFrame.mThDepth kf)%Q ->
      forall acc',
        KeyFrameCulling_slot w false pKF kf i (Some p) (nRed, nMPs) = Ok acc' ->
        acc'.2 = nMPs + 1).
Proof.
  intros Hp Hd. unfold KeyFrameCulling_slot. rewrite Hp, Hd. run.
  unfold MapPoint.isBad. split.
  - intros Hfar. destruct (MapPoint.mbBad mp); [reflexivity|].
    replace (Qlt_bool (KeyFrame.mThDepth kf) d || Qlt_bool d 0) with true;
      [reflexivity|].
    symmetry. apply orb_true_iff.
    destruct Hfar as [Hneg|Hbeyond]; [right|left]; by apply Qlt_bool_iff.
  - intros -> [H0 Hth] acc'.
    replace (Qlt_bool (KeyFrame.mThDepth kf) d || Qlt_bool d 0) with false;
      cycle 1.
    { symmetry. apply orb_false_iff. split; by apply Qlt_bool_false_iff. }
    destruct (3 <? MapPoint.Observations mp).
    + destruct (KeyFrame.mvKeysUn kf !! i) as [kp|]; run; [|discriminate].
      destruct (KeyFrameCulling_observers _ _ _ _ _ _); run;
        try discriminate.
      by intros [= <-].
    + by intros [= <-].
Qed.

(** Keyframe 11 of the redundancy scene with depths 0, -1 and 50: the slot
    at depth 50 and the slot at depth -1 are skipped, the slot at depth 0 is
    counted. *)
Lemma KeyFrameCulling_counts_close_points_witness :
  KeyFrameCulling_slot (redundancy_scene [0; -1; 50]%Q) false 11%nat
    (redundancy_keyframe 1 [0; -1; 50]%Q) 2 (Some 2%nat) (0, 0) = Ok (0, 0)
  /\ KeyFrameCulling_slot (redundancy_scene [0; -1; 50]%Q) false 11%nat
       (redundancy_keyframe 1 [0; -1; 50]%Q) 1 (Some 1%nat) (0, 0) = Ok (0, 0)
  /\ KeyFrameCulling_slot (redundancy_scene [0; -1; 50]%Q) false 11%nat
       (redundancy_keyframe 1 [0; -1; 50]%Q) 0 (Some 0%nat) (0, 0) = Ok (1, 1).
Proof.
  split; [|split].
  - apply (KeyFrameCulling_counts_close_points
             (redundancy_scene [0; -1; 50]%Q) 11%nat
             (redundancy_keyframe 1 [0; -1; 50]%Q) 2 2%nat _ 50%Q 0 0
             eq_refl eq_refl).
    right. reflexivity.
  - apply (KeyFrameCulling_counts_close_points
             (redundancy_scene [0; -1; 50]%Q) 11%nat
             (redundancy_keyframe 1 [0; -1; 50]%Q) 1 1%nat _ (-1)%Q 0 0
             eq_refl eq_refl).
    left. reflexivity.
  - vm_compute. reflexivity.
Defined.

(** C7, boundary.  The claim that every point of non-positive depth is
    ignored fails at depth exactly zero: the source tests [mvDepth[i] < 0],
    so such a point is counted. *)
Lemma KeyFrameCulling_counts_zero_depth :
  ~ (forall (w : World) (pKF : kfptr) (kf : KeyFrame.t) (i : nat) (p : mpptr)
            (mp : MapPoint.t) (d : Q) (acc : Z * Z),
       mappoints w !! p = Some mp ->
       KeyFrame.mvDepth kf !! i = Some d ->
       (d <= 0 \/ KeyFrame.mThDepth kf < d)%Q ->
       KeyFrameCulling_slot w false pKF kf i (Some p) acc = Ok acc).
Proof.
  intros Hclaim.
  specialize (Hclaim (redundancy_scene [0; -1; 50]%Q) 11%nat
                (redundancy_keyframe 1 [0; -1; 50]%Q) 0%nat 0%nat _ 0%Q (0, 0)
                eq_refl eq_refl).
  assert (Hzero : (0 <= 0 \/ KeyFrame.mThDepth
                     (redundancy_keyframe 1 [0; -1; 50]%Q) < 0)%Q)
    by (left; apply Qle_refl).
  specialize (Hclaim Hzero). vm_compute in Hclaim. discriminate.
Qed.

(** ** Triangulation gates *)

Lemma Qle_bool_false_of_lt (x y : Q) : (x < y)%Q -> Qle_bool y x = false.
Proof.
  intros H. apply Qlt_bool_iff in H. unfold Qlt_bool in H.
  by apply negb_true_iff in H.
Qed.

(** The reprojection tests of the source, read as one comparison per view. *)
Lemma GatePoint_cascade (norm : Vec3 -> Q) (kf1 kf2 : KeyFrame.t)
  (kp1 : KeyPoint) (kp1_ur : Q) (kp2 : KeyPoint) (kp2_ur : Q) (x3D : Vec3)
  (s1 s2 : Q) :
  at_int (KeyFrame.mvLevelSigma2 kf1) (octave kp1) = Ok s1 ->
  at_int (KeyFrame.mvLevelSigma2 kf2) (octave kp2) = Ok s2 ->
  (0 < depth_in kf1 x3D)%Q ->
  (0 < depth_in kf2 x3D)%Q ->
  exists tail : result Outcome,
    tail <> Ok ReprojError1 /\ tail <> Ok ReprojError2
    /\ GatePoint norm kf1 kf2 kp1 kp1_ur kp2 kp2_ur x3D
       = if Qlt_bool (chi2_bound kp1_ur * s1)
              (squared_reprojection_error kf1 (KeyFrame.mbf kf1) kp1 kp1_ur x3D)
         then Ok ReprojError1
         else if Qlt_bool (chi2_bound kp2_ur * s2)
                   (squared_reprojection_error kf2 (KeyFrame.mbf kf1) kp2
                      kp2_ur x3D)
         then Ok ReprojError2
         else tail.
Proof.
  intros Hs1 Hs2 Hz1 Hz2. unfold depth_in in *.
  unfold GatePoint, KeyFrame.GetRotation, KeyFrame.GetTranslation.
  cbv zeta.
  rewrite (Qle_bool_false_of_lt _ _ Hz1), (Qle_bool_false_of_lt _ _ Hz2).
  rewrite Hs1. run. rewrite Hs2. run.
  unfold squared_reprojection_error, chi2_bound. cbv zeta.
  eexists. split; [|split]; cycle 2.
  - destruct (Qle_bool 0 kp1_ur), (Qle_bool 0 kp2_ur); cbn [negb];
      reflexivity.
  - repeat (match goal with
            | |- context [if ?b then _ else _] => destruct b
            | |- context [at_int ?l ?i] => destruct (at_int l i)
            end; run); discriminate.
  - repeat (match goal with
            | |- context [if ?b then _ else _] => destruct b
            | |- context [at_int ?l ?i] => destruct (at_int l i)
            end; run); discriminate.
Qed.


Lemma scene_point_in_front (kf : KeyFrame.t) :
  KeyFrame.Rcw kf = I3 -> KeyFrame.tcw kf = (0, 0, 0)%Q ->
  (0 < depth_in kf scene_point)%Q.
Proof. unfold depth_in. intros -> ->. reflexivity. Qed.



(** C8.  With both views stereo the source computes the stereo cosine of
    the first view only: in the triangulation scene (baseline 1/10, depths
    10 and 1, ray cosine 9/10) the first view gives 39999/40001, the second
    would give 399/401, and [cosParallaxStereo] is the former although the
    latter is smaller and below the initial value 9/10 + 1. *)
Theorem cosParallaxStereo_skips_second_view :
  exists c : Q,
    cosParallaxStereo_of stereo_view1 stereo_view2 0 0
      (Qle_bool 0 (24 # 10)) (Qle_bool 0 (24 # 10)) (9 # 10) = Ok c
    /\ (c == cos_2atan2 (KeyFrame.mb stereo_view1 / 2) 10)%Q
    /\ (cos_2atan2 (KeyFrame.mb stereo_view2 / 2) 1 < c)%Q
    /\ (cos_2atan2 (KeyFrame.mb stereo_view2 / 2) 1 < (9 # 10) + 1)%Q.
Proof.
  eexists. split; [vm_compute; reflexivity|].
  split; [reflexivity|]. split; vm_compute; reflexivity.
Qed.

(** ** The worker loop *)

Section WorkerFacts.

Variable env : nat -> Sys -> Sys.
Variable norm : Vec3 -> Q.
Variable SVD_vt_row3 : Vec4 -> Vec4 -> Vec4 -> Vec4 -> Vec4.
Variable UnprojectStereo : KeyFrame.t -> nat -> Vec3.
Variable ComputeSceneMedianDepth : World -> kfptr -> Q.
Variable GetBestCovisibilityKeyFrames : World -> kfptr -> nat -> list kfptr.
Variable GetVectorCovisibleKeyFrames : World -> kfptr -> list kfptr.
Variable SearchForTriangulation : World -> kfptr -> kfptr -> list (nat * nat).
Variable Fuse : kfptr -> list (option mpptr) -> World -> World.
Variable LocalBundleAdjustment : kfptr -> World -> World.
Variable mpLoopCloser : bool.

Local Abbreviation yield' := (yield env).
Local Abbreviation CreateNewMapPoints_neighbors' :=
  (CreateNewMapPoints_neighbors env norm SVD_vt_row3 UnprojectStereo
     ComputeSceneMedianDepth SearchForTriangulation).
Local Abbreviation CreateNewMapPoints' :=
  (CreateNewMapPoints env norm SVD_vt_row3 UnprojectStereo
     ComputeSceneMedianDepth GetBestCovisibilityKeyFrames
     SearchForTriangulation).
Local Abbreviation SearchInNeighbors' :=
  (SearchInNeighbors env GetBestCovisibilityKeyFrames Fuse).
Local Abbreviation SearchInNeighbors_fuse' := (SearchInNeighbors_fuse env Fuse).
Local Abbreviation KeyFrameCulling' := (KeyFrameCulling GetVectorCovisibleKeyFrames).
Local Abbreviation Run_mapping' :=
  (Run_mapping env norm SVD_vt_row3 UnprojectStereo ComputeSceneMedianDepth
     GetBestCovisibilityKeyFrames SearchForTriangulation Fuse).
Local Abbreviation Run_optimization' :=
  (Run_optimization env GetVectorCovisibleKeyFrames LocalBundleAdjustment).
Local Abbreviation Run_handoff' := (Run_handoff mpLoopCloser).
Local Abbreviation Run_wait' := (Run_wait env).
Local Abbreviation Run_epilogue' := (Run_epilogue env).
Local Abbreviation Run_iteration' :=
  (Run_iteration env norm SVD_vt_row3 UnprojectStereo ComputeSceneMedianDepth
     GetBestCovisibilityKeyFrames GetVectorCovisibleKeyFrames
     SearchForTriangulation Fuse LocalBundleAdjustment mpLoopCloser).

(** The log only grows, and each stage adds its own kind of event. *)

Lemma log_yield (e : Exec) : log (yield' e) = log e.
Proof. reflexivity. Qed.

Lemma ba_calls_emit (ev : Event) (e : Exec) :
  ba_calls (emit ev e)
  = ba_calls e ++ match ev with EvLocalBA k => [k] | _ => [] end.
Proof.
  unfold ba_calls, emit. cbn [log]. rewrite omap_app.
  destruct ev; reflexivity.
Qed.

Lemma ba_calls_log (e e' : Exec) : log e' = log e -> ba_calls e' = ba_calls e.
Proof. unfold ba_calls. by intros ->. Qed.

Lemma ba_calls_app (e e' : Exec) (evs : list Event) :
  log e' = log e ++ evs ->
  Forall (fun ev => forall k, ev <> EvLocalBA k) evs ->
  ba_calls e' = ba_calls e.
Proof.
  unfold ba_calls. intros -> Hevs. rewrite omap_app.
  rewrite <- (app_nil_r (omap _ (log e))) at 2. f_equal.
  induction Hevs as [|ev evs Hev _ IH]; [reflexivity|].
  cbn. rewrite IH. destruct ev; try reflexivity. by destruct (Hev pKF).
Qed.

Lemma Forall_not_BA_triangulate (ks : list kfptr) :
  Forall (fun ev => forall k, ev <> EvLocalBA k) (EvTriangulate <$> ks).
Proof. apply Forall_fmap, Forall_true. intros k k'. discriminate. Qed.

Lemma Forall_not_BA_fuse (ks : list kfptr) :
  Forall (fun ev => forall k, ev <> EvLocalBA k) (EvFuse <$> ks).
Proof. apply Forall_fmap, Forall_true. intros k k'. discriminate. Qed.

(** [CreateNewMapPoints] logs the neighbours it works on, a prefix of the
    neighbour list. *)
Lemma CreateNewMapPoints_neighbors_log (cur : kfptr) (l : list kfptr) :
  forall i e e',
  CreateNewMapPoints_neighbors' cur i l e = Ok e' ->
  exists ks, ks `prefix_of` l /\ log e' = log e ++ (EvTriangulate <$> ks).
Proof.
  induction l as [|pKF2 rest IH]; intros i e e' H;
    cbn [CreateNewMapPoints_neighbors] in H.
  { injection H as <-. exists []. by rewrite app_nil_r. }
  set (e1 := if (0 <? i)%nat then yield' e else e) in H.
  assert (He1 : log e1 = log e) by (subst e1; by destruct (0 <? i)%nat).
  destruct ((0 <? i)%nat && CheckNewKeyFrames (lm (sys e1))).
  { injection H as <-. exists []. split; [apply prefix_nil|].
    by rewrite app_nil_r. }
  cbn [emit sys] in H.
  destruct (keyframes (world (sys e1)) !! cur) as [kf1|]; [|discriminate].
  destruct (keyframes (world (sys e1)) !! pKF2) as [kf2|]; [|discriminate].
  cbn [deref mbind result_bind] in H.
  assert (Hks : forall e2, log e2 = log e1 ++ [EvTriangulate pKF2] ->
            CreateNewMapPoints_neighbors' cur (S i) rest e2 = Ok e' ->
            exists ks, ks `prefix_of` pKF2 :: rest
                       /\ log e' = log e ++ (EvTriangulate <$> ks)).
  { intros e2 He2 Hrun. apply IH in Hrun as (ks & Hpre & Hlog).
    exists (pKF2 :: ks). split; [by apply prefix_cons|].
    rewrite Hlog, He2, He1, <- app_assoc. reflexivity. }
  match type of H with
  | (if ?b then _ else _) = _ => destruct b
  end.
  - refine (Hks _ _ H). reflexivity.
  - destruct (CreateNewMapPoints_matches _ _ _ _ _ _ _) as [s| |];
      try discriminate.
    cbn [mbind result_bind] in H. refine (Hks _ _ H). reflexivity.
Qed.

(** After the first neighbour the pass returns as soon as a keyframe waits
    in the queue. *)
Lemma CreateNewMapPoints_neighbors_return (cur pKF2 : kfptr)
  (rest : list kfptr) (i : nat) (e : Exec) :
  (0 < i)%nat ->
  CheckNewKeyFrames (lm (sys (yield' e))) = true ->
  CreateNewMapPoints_neighbors' cur i (pKF2 :: rest) e = Ok (yield' e).
Proof.
  intros Hi Hq. cbn [CreateNewMapPoints_neighbors].
  rewrite (proj2 (Nat.ltb_lt 0 i) Hi). by rewrite Hq.
Qed.

(** The first neighbour is worked on whatever the queue holds, and so is a
    later one when the queue is empty at its check. *)
Lemma CreateNewMapPoints_neighbors_continue (cur pKF2 : kfptr)
  (rest : list kfptr) (i : nat) (e e' : Exec) :
  i = 0%nat \/ CheckNewKeyFrames (lm (sys (yield' e))) = false ->
  CreateNewMapPoints_neighbors' cur i (pKF2 :: rest) e = Ok e' ->
  exists ks, log e' = log e ++ EvTriangulate pKF2 :: (EvTriangulate <$> ks).
Proof.
  intros Hgo H. cbn [CreateNewMapPoints_neighbors] in H.
  set (e1 := if (0 <? i)%nat then yield' e else e) in H.
  assert (He1 : log e1 = log e) by (subst e1; by destruct (0 <? i)%nat).
  assert (Hcheck : (0 <? i)%nat && CheckNewKeyFrames (lm (sys e1)) = false).
  { subst e1. destruct Hgo as [->|Hq]; [reflexivity|].
    destruct (0 <? i)%nat; [exact Hq|reflexivity]. }
  rewrite Hcheck in H. cbn [emit sys] in H.
  destruct (keyframes (world (sys e1)) !! cur) as [kf1|]; [|discriminate].
  destruct (keyframes (world (sys e1)) !! pKF2) as [kf2|]; [|discriminate].
  cbn [deref mbind result_bind] in H.
  assert (Hks : forall e2, log e2 = log e1 ++ [EvTriangulate pKF2] ->
            CreateNewMapPoints_neighbors' cur (S i) rest e2 = Ok e' ->
            exists ks,
              log e' = log e ++ EvTriangulate pKF2 :: (EvTriangulate <$> ks)).
  { intros e2 He2 Hrun.
    apply CreateNewMapPoints_neighbors_log in Hrun as (ks & _ & Hlog).
    exists ks. rewrite Hlog, He2, He1, <- app_assoc. reflexivity. }
  match type of H with
  | (if ?b then _ else _) = _ => destruct b
  end.
  - refine (Hks _ _ H). reflexivity.
  - destruct (CreateNewMapPoints_matches _ _ _ _ _ _ _) as [s| |];
      try discriminate.
    cbn [mbind result_bind] in H. refine (Hks _ _ H). reflexivity.
Qed.

(** The fusion loop calls [Fuse] on every target, whatever the other
    threads do meanwhile. *)
Lemma SearchInNeighbors_fuse_log (targets : list kfptr)
  (m : list (option mpptr)) :
  forall e,
  log (SearchInNeighbors_fuse' targets m e) = log e ++ (EvFuse <$> targets).
Proof.
  induction targets as [|pKFi rest IH]; intros e;
    cbn [SearchInNeighbors_fuse fmap list_fmap].
  { by rewrite app_nil_r. }
  rewrite IH. cbn [on_world emit log yield]. by rewrite <- app_assoc.
Qed.

Lemma SearchInNeighbors_log (e e' : Exec) (cur : kfptr) (kf : KeyFrame.t)
  (w : World) (targets : list kfptr) :
  mpCurrentKeyFrame (lm (sys e)) = Some cur ->
  keyframes (world (sys e)) !! cur = Some kf ->
  SearchInNeighbors_targets GetBestCovisibilityKeyFrames (KeyFrame.mnId kf)
    (GetBestCovisibilityKeyFrames (world (sys e)) cur
       (if mbMonocular (lm (sys e)) then 20%nat else 10%nat))
    (world (sys e)) [] = Ok (w, targets) ->
  SearchInNeighbors' e = Ok e' ->
  log e' = log e ++ (EvFuse <$> targets) ++ [EvFuse cur].
Proof.
  intros Hcur Hkf Htargets H. unfold SearchInNeighbors in H.
  rewrite Hcur in H. cbn [deref mbind result_bind] in H.
  rewrite Hkf in H. cbn [deref mbind result_bind] in H.
  cbn [on_world lm sys] in H. rewrite Htargets in H.
  cbn [mbind result_bind] in H.
  destruct (SearchInNeighbors_collect _ _ _ _) as [[w' cands]| |];
    try discriminate.
  cbn [mbind result_bind] in H. injection H as <-.
  cbn [on_world emit log yield]. rewrite SearchInNeighbors_fuse_log.
  cbn [log]. by rewrite <- app_assoc.
Qed.

(** Local bundle adjustment is invoked by no stage but [Run]. *)

Lemma CreateNewMapPoints_ba (e e' : Exec) :
  CreateNewMapPoints' e = Ok e' -> ba_calls e' = ba_calls e.
Proof.
  unfold CreateNewMapPoints. intros H.
  destruct (mpCurrentKeyFrame (lm (sys e))) as [cur|]; [|discriminate].
  cbn [deref mbind result_bind] in H.
  apply CreateNewMapPoints_neighbors_log in H as (ks & _ & Hlog).
  exact (ba_calls_app _ _ _ Hlog (Forall_not_BA_triangulate ks)).
Qed.

Lemma SearchInNeighbors_ba (e e' : Exec) :
  SearchInNeighbors' e = Ok e' -> ba_calls e' = ba_calls e.
Proof.
  intros H. pose proof H as Hrun. unfold SearchInNeighbors in H.
  destruct (mpCurrentKeyFrame (lm (sys e))) as [cur|] eqn:Hcur;
    [|discriminate].
  cbn [deref mbind result_bind] in H.
  destruct (keyframes (world (sys e)) !! cur) as [kf|] eqn:Hkf;
    [|discriminate].
  cbn [deref mbind result_bind] in H.
  destruct (SearchInNeighbors_targets _ _ _ _ _) as [[w targets]| |] eqn:Ht;
    try discriminate.
  pose proof (SearchInNeighbors_log e e' cur kf w targets Hcur Hkf Ht Hrun)
    as Hlog.
  apply (ba_calls_app _ _ _ Hlog).
  apply Forall_app. split; [apply Forall_not_BA_fuse|].
  apply Forall_singleton. intros k. discriminate.
Qed.

Lemma KeyFrameCulling_ba (e e' : Exec) :
  KeyFrameCulling' e = Ok e' -> ba_calls e' = ba_calls e.
Proof.
  unfold KeyFrameCulling. intros H.
  destruct (mpCurrentKeyFrame (lm (sys e))) as [cur|]; [|discriminate].
  cbn [deref mbind result_bind] in H.
  destruct (KeyFrameCulling_loop _ _ _) as [w| |]; try discriminate.
  cbn [mbind result_bind] in H. injection H as <-.
  by rewrite ba_calls_emit, app_nil_r.
Qed.

Lemma Run_mapping_ba (e e' : Exec) :
  Run_mapping' e = Ok e' -> ba_calls e' = ba_calls e.
Proof.
  unfold Run_mapping. intros H.
  destruct (ProcessNewKeyFrame _) as [s1| |]; try discriminate.
  cbn [mbind result_bind] in H.
  destruct (MapPointCulling s1) as [s2| |]; try discriminate.
  cbn [mbind result_bind] in H.
  destruct (CreateNewMapPoints' _) as [e1| |] eqn:Hc; try discriminate.
  cbn [mbind result_bind] in H. apply CreateNewMapPoints_ba in Hc.
  destruct (negb (CheckNewKeyFrames (lm (sys (yield' e1))))).
  - destruct (SearchInNeighbors' _) as [e2| |] eqn:Hs; try discriminate.
    cbn [mbind result_bind] in H. injection H as <-.
    apply SearchInNeighbors_ba in Hs.
    change (ba_calls e2 = ba_calls e). rewrite Hs. exact Hc.
  - cbn [mbind result_bind] in H. injection H as <-. exact Hc.
Qed.

Lemma Run_handoff_ba (e e' : Exec) :
  Run_handoff' e = Ok e' -> ba_calls e' = ba_calls e.
Proof.
  unfold Run_handoff. destruct mpLoopCloser.
  - destruct (mpCurrentKeyFrame (lm (sys e))); [|discriminate].
    cbn [deref mbind result_bind]. intros [= <-].
    by rewrite ba_calls_emit, app_nil_r.
  - by intros [= <-].
Qed.

Lemma Run_wait_log (fuel : nat) :
  forall e e', Run_wait' fuel e = Ok e' -> log e' = log e.
Proof.
  induction fuel as [|fuel IH]; intros e e'; cbn [Run_wait];
    destruct (isStopped _); try (by intros [= <-]);
    destruct (negb _); try (by intros [= <-]); try discriminate.
  intros H. by apply IH in H.
Qed.

Lemma Run_epilogue_log (e : Exec) : log (Run_epilogue' e).2 = log e.
Proof. reflexivity. Qed.

(** Lines 83 to 90: the only call, under the three tests. *)
Lemma Run_optimization_ba (e e' : Exec) :
  Run_optimization' e = Ok e' ->
  (exists k,
     CheckNewKeyFrames (lm (sys (yield' e))) = false
     /\ stopRequested (lm (sys (yield' (yield' e)))) = false
     /\ 2 < KeyFramesInMap (world (sys (yield' (yield' (yield' e)))))
     /\ mpCurrentKeyFrame (lm (sys (yield' (yield' (yield' e))))) = Some k
     /\ ba_calls e' = ba_calls e ++ [k])
  \/ ((CheckNewKeyFrames (lm (sys (yield' e))) = true
       \/ stopRequested (lm (sys (yield' (yield' e)))) = true
       \/ KeyFramesInMap (world (sys (yield' (yield' (yield' e))))) <= 2)
      /\ ba_calls e' = ba_calls e).
Proof.
  unfold Run_optimization. intros H.
  destruct (CheckNewKeyFrames (lm (sys (yield' e)))) eqn:Hq; cbn [negb] in H.
  { injection H as <-. right. by split; [left|]. }
  destruct (stopRequested (lm (sys (yield' (yield' e))))) eqn:Hs;
    cbn [negb] in H.
  { injection H as <-. right. by split; [right; left|]. }
  destruct (Z.ltb_spec 2
              (KeyFramesInMap (world (sys (yield' (yield' (yield' e)))))))
    as [Hn|Hn].
  - destruct (mpCurrentKeyFrame (lm (sys (yield' (yield' (yield' e))))))
      as [k|] eqn:Hk; [|discriminate].
    cbn [deref mbind result_bind] in H. apply KeyFrameCulling_ba in H.
    left. exists k. repeat split; try done.
    rewrite H. change (ba_calls (emit (EvLocalBA k)
                                   (yield' (yield' (yield' e))))
                       = ba_calls e ++ [k]).
    by rewrite ba_calls_emit.
  - cbn [mbind result_bind] in H. apply KeyFrameCulling_ba in H.
    right. split; [right; right; lia|exact H].
Qed.

Lemma app_singleton_ne {A} (l : list A) (k : A) : l <> l ++ [k].
Proof.
  intros H. apply (f_equal length) in H. rewrite length_app in H.
  cbn in H. lia.
Qed.

(** C5.  In one turn of the loop, local bundle adjustment is invoked, once
    and on the current keyframe, exactly when a keyframe was taken from the
    queue and, at the three tests that follow [SearchInNeighbors], the queue
    is empty, no stop is requested and the map holds more than two
    keyframes; with at most two keyframes in the map it is skipped. *)
Theorem LocalBA_invoked_iff (fuel : nat) (e e' : Exec) (leave : bool) :
  Run_iteration' fuel e = Ok (leave, e') ->
  let polled := yield' (on_lm (SetAcceptKeyFrames false) (yield' e)) in
  (forall k,
     ba_calls e' = ba_calls e ++ [k]
     <-> CheckNewKeyFrames (lm (sys polled)) = true
         /\ exists em,
              Run_mapping' polled = Ok em
              /\ CheckNewKeyFrames (lm (sys (yield' em))) = false
              /\ stopRequested (lm (sys (yield' (yield' em)))) = false
              /\ 2 < KeyFramesInMap (world (sys (yield' (yield' (yield' em)))))
              /\ mpCurrentKeyFrame (lm (sys (yield' (yield' (yield' em)))))
                 = Some k)
  /\ (ba_calls e' = ba_calls e \/ exists k, ba_calls e' = ba_calls e ++ [k])
  /\ (forall em,
        Run_mapping' polled = Ok em ->
        KeyFramesInMap (world (sys (yield' (yield' (yield' em))))) <= 2 ->
        ba_calls e' = ba_calls e).
Proof.
  intros H polled. unfold Run_iteration in H. fold polled in H.
  assert (Hpolled : ba_calls polled = ba_calls e) by reflexivity.
  destruct (CheckNewKeyFrames (lm (sys polled))) eqn:Hq.
  - destruct (Run_mapping' polled) as [em| |] eqn:Hm; try discriminate.
    cbn [mbind result_bind] in H.
    destruct (Run_optimization' em) as [eo| |] eqn:Ho; try discriminate.
    cbn [mbind result_bind] in H.
    destruct (Run_handoff' eo) as [eh| |] eqn:Hh; try discriminate.
    cbn [mbind result_bind] in H.
    assert (He' : ba_calls e' = ba_calls eo).
    { injection H as _ <-. rewrite <- (Run_handoff_ba _ _ Hh).
      apply ba_calls_log. reflexivity. }
    apply Run_mapping_ba in Hm as Hmb.
    rewrite He'. rewrite <- Hpolled, <- Hmb.
    destruct (Run_optimization_ba em eo Ho)
      as [(k & Hc1 & Hc2 & Hc3 & Hcur & Hba)|[Hno Hba]]; rewrite Hba.
    + split; [|split].
      * intros k'. split.
        -- intros Hk'. apply app_inv_head in Hk'. injection Hk' as <-.
           split; [done|]. by exists em.
        -- intros (_ & em' & [= <-] & _ & _ & _ & Hcur').
           rewrite Hcur in Hcur'. by injection Hcur' as <-.
      * right. by exists k.
      * intros em' [= <-] Hle. lia.
    + split; [|split].
      * intros k'. split.
        -- intros Hk'. by apply app_singleton_ne in Hk'.
        -- intros (_ & em' & [= <-] & Hc1 & Hc2 & Hc3 & _).
           destruct Hno as [Hno|[Hno|Hno]]; [congruence|congruence|lia].
      * by left.
      * done.
  - assert (Hquiet : ba_calls e' = ba_calls e).
    { destruct (Stop (lm (sys (yield' polled)))) as [stopped l].
      destruct stopped.
      - destruct (Run_wait' fuel _) as [ew| |] eqn:Hw; try discriminate.
        cbn [mbind result_bind] in H. apply Run_wait_log in Hw.
        destruct (CheckFinish (lm (sys (yield' ew)))).
        + injection H as _ <-. apply ba_calls_log. exact Hw.
        + injection H as _ <-. apply ba_calls_log. exact Hw.
      - by injection H as _ <-. }
    rewrite Hquiet. split; [|split].
    + intros k. split.
      * intros Hk. by apply app_singleton_ne in Hk.
      * intros [? _]. discriminate.
    + by left.
    + done.
Qed.


End WorkerFacts.

(** In the worker scene with keyframe 14 queued and idle threads, the turn
    processes keyframe 14 and invokes local bundle adjustment on it: the
    queue is empty afterwards, no stop is requested and the map holds five
    keyframes. *)
Lemma LocalBA_invoked_iff_witness :
  exists e',
    Run_iteration quiet_env unit_norm scene_svd scene_unproject scene_median
      scene_neighbors scene_covisible scene_matches scene_fuse scene_optimizer
      true 0 (worker_scene [14%nat] None) = Ok (false, e')
    /\ ba_calls e' = [14%nat].
Proof.
  assert (Hrun : exists e',
    Run_iteration quiet_env unit_norm scene_svd scene_unproject scene_median
      scene_neighbors scene_covisible scene_matches scene_fuse scene_optimizer
      true 0 (worker_scene [14%nat] None) = Ok (false, e'))
    by (eexists; vm_compute; reflexivity).
  destruct Hrun as [e' Hrun]. exists e'. split; [exact Hrun|].
  apply (LocalBA_invoked_iff quiet_env unit_norm scene_svd scene_unproject
           scene_median scene_neighbors scene_covisible scene_matches
           scene_fuse scene_optimizer true 0 _ _ _ Hrun).
  split; [reflexivity|].
  eexists. split; [vm_compute; reflexivity|].
  repeat split; vm_compute; reflexivity.
Defined.



(** ** Observation symmetry *)

Lemma lookup_upd_mappoint (w : World) (p q : mpptr)
  (f : MapPoint.t -> MapPoint.t) :
  mappoints (upd_mappoint p f w) !! q
  = if decide (p = q) then f <$> mappoints w !! q else mappoints w !! q.
Proof.
  unfold upd_mappoint. cbn [mappoints].
  destruct (decide (p = q)) as [->|Hne].
  - by rewrite lookup_alter_eq.
  - by rewrite lookup_alter_ne.
Qed.

Lemma AddObservation_lookup (k k' : kfptr) (i : nat) (mp : MapPoint.t) :
  MapPoint.mObservations (MapPoint.AddObservation k i mp) !! k'
  = match MapPoint.mObservations mp !! k with
    | Some _ => MapPoint.mObservations mp !! k'
    | None => if decide (k = k') then Some i
              else MapPoint.mObservations mp !! k'
    end.
Proof.
  unfold MapPoint.AddObservation.
  destruct (MapPoint.mObservations mp !! k) eqn:Hk; [reflexivity|].
  cbn [MapPoint.set_observations MapPoint.mObservations].
  destruct (decide (k = k')) as [->|Hne].
  - by rewrite lookup_insert_eq.
  - by rewrite lookup_insert_ne.
Qed.

Lemma AddObservation_bad (k : kfptr) (i : nat) (mp : MapPoint.t) :
  MapPoint.mbBad (MapPoint.AddObservation k i mp) = MapPoint.mbBad mp.
Proof.
  unfold MapPoint.AddObservation.
  by destruct (MapPoint.mObservations mp !! k).
Qed.


Lemma ProcessNewKeyFrame_done_step (cur : kfptr)
  (slots0 : list (option mpptr)) (w : World) (i : nat) (slot : option mpptr) :
  slots0 !! i = Some slot ->
  (forall j p, (j < i)%nat -> slots0 !! j = Some (Some p) ->
     slot_registered w cur j p) ->
  (forall p, slot = Some p -> slot_registered w cur i p) ->
  forall j p, (j < S i)%nat -> slots0 !! j = Some (Some p) ->
    slot_registered w cur j p.
Proof.
  intros Hi Hdone Hnew j p Hj Hs.
  destruct (decide (j = i)) as [->|Hne].
  - apply Hnew. congruence.
  - apply Hdone; [lia|done].
Qed.

Lemma ProcessNewKeyFrame_loop_inv (P : kfptr -> Prop) (cur : kfptr)
  (kf0 : KeyFrame.t)
  (rest : list (option mpptr)) :
  forall i w recent w' recent',
  keyframes w !! cur = Some kf0 ->
  drop i (KeyFrame.mvpMapPoints kf0) = rest ->
  ProcessNewKeyFrame_inv P cur (KeyFrame.mvpMapPoints kf0) w i ->
  ProcessNewKeyFrame_loop cur i rest w recent = Ok (w', recent') ->
  keyframes w' = keyframes w
  /\ ProcessNewKeyFrame_inv P cur (KeyFrame.mvpMapPoints kf0) w'
       (length (KeyFrame.mvpMapPoints kf0)).
Proof.
  set (slots0 := KeyFrame.mvpMapPoints kf0).
  induction rest as [|slot rest IH]; intros i w recent w' recent' Hkf Hdrop
    (Hobs & Hothers & Hdist & Hdone) Hrun; cbn [ProcessNewKeyFrame_loop] in Hrun.
  { injection Hrun as <- <-. split; [reflexivity|].
    repeat split; try done.
    intros j p Hj Hslot. apply Hdone; [|done].
    apply drop_nil_inv in Hdrop. apply lookup_lt_Some in Hslot. lia. }
  assert (Hi : slots0 !! i = Some slot).
  { rewrite <- (Nat.add_0_r i), <- lookup_drop, Hdrop. reflexivity. }
  assert (Hdrop' : drop (S i) slots0 = rest).
  { rewrite <- Nat.add_1_r, <- drop_drop, Hdrop. reflexivity. }
  (* a turn that leaves the graph as it is *)
  assert (Hskip : (forall p, slot = Some p -> slot_registered w cur i p) ->
            forall recent0,
            ProcessNewKeyFrame_loop cur (S i) rest w recent0 = Ok (w', recent') ->
            keyframes w' = keyframes w
            /\ ProcessNewKeyFrame_inv P cur slots0 w' (length slots0)).
  { intros Hnew recent0 Hrun0.
    apply (IH (S i) w recent0 w' recent' Hkf Hdrop'); [|exact Hrun0].
    repeat split; try done.
    by apply (ProcessNewKeyFrame_done_step cur slots0 w i slot). }
  destruct slot as [pMP|]; [|by apply (Hskip ltac:(discriminate) recent)].
  destruct (mappoints w !! pMP) as [mp|] eqn:Hmp; [|discriminate].
  cbn [deref mbind result_bind] in Hrun. unfold MapPoint.isBad in Hrun.
  destruct (MapPoint.mbBad mp) eqn:Hbad.
  { apply (Hskip ltac:(intros p [= <-] mp' Hmp'; congruence) recent Hrun). }
  unfold MapPoint.IsInKeyFrame in Hrun. case_bool_decide as Hin.
  { refine (Hskip _ _ Hrun). intros p [= <-] mp' Hmp' _.
    assert (mp' = mp) as -> by congruence.
    destruct Hin as [j0 Hj0].
    destruct (Hobs pMP mp cur j0 Hmp Hbad Hj0) as (kf & Hkf' & Hslot).
    assert (kf = kf0) as -> by congruence.
    by rewrite (Hdist kf0 i j0 pMP mp Hkf Hi Hslot Hmp Hbad). }
  assert (Hnone : MapPoint.mObservations mp !! cur = None).
  { destruct (MapPoint.mObservations mp !! cur) eqn:E; [|reflexivity].
    exfalso. apply Hin. by eexists. }
  set (w1 := upd_mappoint pMP (MapPoint.AddObservation cur i) w) in Hrun.
  assert (Hview : forall p mp1, mappoints w1 !! p = Some mp1 ->
            exists mp0, mappoints w !! p = Some mp0
              /\ MapPoint.mbBad mp1 = MapPoint.mbBad mp0
              /\ (forall k, MapPoint.mObservations mp1 !! k
                    = if decide (p = pMP /\ k = cur) then Some i
                      else MapPoint.mObservations mp0 !! k)).
  { intros p mp1 Hp. subst w1. rewrite lookup_upd_mappoint in Hp.
    destruct (decide (pMP = p)) as [<-|Hne].
    - rewrite Hmp in Hp. injection Hp as <-. exists mp.
      split; [done|]. split; [apply AddObservation_bad|].
      intros k. rewrite AddObservation_lookup, Hnone.
      destruct (decide (cur = k)) as [<-|Hk].
      + by rewrite decide_True.
      + rewrite decide_False; [done|]. intros [_ ->]. done.
    - exists mp1. split; [done|]. split; [done|].
      intros k. rewrite decide_False; [done|]. intros [-> _]. done. }
  assert (Hkf1 : keyframes w1 = keyframes w) by reflexivity.
  apply (IH (S i) w1 recent w' recent' Hkf Hdrop'); [|exact Hrun].
  repeat split.
  - intros p mp1 k i1 Hp Hb Hk.
    destruct (Hview p mp1 Hp) as (mp0 & Hp0 & Hb0 & Hk0).
    rewrite Hk0 in Hk. rewrite Hkf1.
    destruct (decide (p = pMP /\ k = cur)) as [Hc|Hc].
    + destruct Hc as [Hpeq Hkeq]. rewrite Hpeq, Hkeq.
      injection Hk as <-. by exists kf0.
    + apply (Hobs p mp0 k i1 Hp0); congruence.
  - intros k HP Hk kf i1 p Hkf' Hslot mp1 Hp Hb.
    destruct (Hview p mp1 Hp) as (mp0 & Hp0 & Hb0 & Hk0).
    rewrite Hk0, decide_False by (intros [_ ->]; done).
    apply (Hothers k HP Hk kf i1 p Hkf' Hslot mp0 Hp0). congruence.
  - intros kf i1 j1 p mp1 Hkf' Hs1 Hs2 Hp Hb.
    destruct (Hview p mp1 Hp) as (mp0 & Hp0 & Hb0 & _).
    apply (Hdist kf i1 j1 p mp0 Hkf' Hs1 Hs2 Hp0). congruence.
  - apply (ProcessNewKeyFrame_done_step cur slots0 w1 i (Some pMP) Hi).
    + intros j p Hj Hs mp1 Hp Hb.
      destruct (Hview p mp1 Hp) as (mp0 & Hp0 & Hb0 & Hk0).
      rewrite Hk0. destruct (decide (p = pMP /\ cur = cur)) as [Hc|Hc].
      * destruct Hc as [Hpeq _]. rewrite Hpeq in Hs. f_equal.
        apply (Hdist kf0 i j pMP mp Hkf Hi Hs Hmp Hbad).
      * apply (Hdone j p Hj Hs mp0 Hp0). congruence.
    + intros p [= <-] mp1 Hp Hb.
      destruct (Hview pMP mp1 Hp) as (mp0 & Hp0 & Hb0 & Hk0).
      rewrite Hk0. by rewrite decide_True.
Qed.

Lemma lookup_upd_keyframe (w : World) (k k' : kfptr)
  (f : KeyFrame.t -> KeyFrame.t) :
  keyframes (upd_keyframe k f w) !! k'
  = if decide (k = k') then f <$> keyframes w !! k' else keyframes w !! k'.
Proof.
  unfold upd_keyframe. cbn [keyframes].
  destruct (decide (k = k')) as [->|Hne].
  - by rewrite lookup_alter_eq.
  - by rewrite lookup_alter_ne.
Qed.

Lemma KeyFrame_AddMapPoint_Ok (pMP : mpptr) (idx : nat) (k : kfptr)
  (w w' : World) :
  KeyFrame_AddMapPoint pMP idx k w = Ok w' ->
  exists kf,
    keyframes w !! k = Some kf
    /\ (idx < length (KeyFrame.mvpMapPoints kf))%nat
    /\ w' = upd_keyframe k
              (KeyFrame.set_mvpMapPoints
                 (<[idx := Some pMP]> (KeyFrame.mvpMapPoints kf))) w.
Proof.
  unfold KeyFrame_AddMapPoint. intros H.
  destruct (keyframes w !! k) as [kf|]; [|discriminate].
  cbn [deref mbind result_bind] in H. case_bool_decide; [|discriminate].
  injection H as <-. by exists kf.
Qed.

(** The graph after lines 402 to 415, for two different keyframes. *)
Lemma RegisterNewMapPoint_view (cur pKF2 : kfptr) (idx1 idx2 : nat)
  (s s' : Sys) :
  cur <> pKF2 ->
  RegisterNewMapPoint cur pKF2 idx1 idx2 s = Ok s' ->
  let pMP := fresh (dom (mappoints (world s))) in
  exists kf1 kf2 mpF w4,
    keyframes (world s) !! cur = Some kf1
    /\ keyframes (world s) !! pKF2 = Some kf2
    /\ (idx1 < length (KeyFrame.mvpMapPoints kf1))%nat
    /\ (idx2 < length (KeyFrame.mvpMapPoints kf2))%nat
    /\ MapPoint.mbBad mpF = false
    /\ (forall k, MapPoint.mObservations mpF !! k
          = if decide (k = cur) then Some idx1
            else if decide (k = pKF2) then Some idx2 else None)
    /\ (forall p, mappoints w4 !! p
          = if decide (p = pMP) then Some mpF else mappoints (world s) !! p)
    /\ (forall k, keyframes w4 !! k
          = if decide (k = cur)
            then Some (KeyFrame.set_mvpMapPoints
                         (<[idx1 := Some pMP]> (KeyFrame.mvpMapPoints kf1)) kf1)
            else if decide (k = pKF2)
            then Some (KeyFrame.set_mvpMapPoints
                         (<[idx2 := Some pMP]> (KeyFrame.mvpMapPoints kf2)) kf2)
            else keyframes (world s) !! k)
    /\ mpMap w4 = mpMap (world s)
    /\ world s' = Map_AddMapPoint pMP w4
    /\ lm s' = set_mlpRecentAddedMapPoints
                 (mlpRecentAddedMapPoints (lm s) ++ [pMP]) (lm s).
Proof.
  intros Hne H pMP. unfold RegisterNewMapPoint in H. fold pMP in H.
  destruct (keyframes (world s) !! cur) as [kf1|] eqn:Hkf1; [|discriminate].
  cbn [deref mbind result_bind] in H.
  match type of H with
  | context [KeyFrame_AddMapPoint pMP idx1 cur ?w] => set (w2 := w) in H
  end.
  destruct (KeyFrame_AddMapPoint pMP idx1 cur w2) as [w3| |] eqn:H3;
    try discriminate.
  cbn [mbind result_bind] in H.
  destruct (KeyFrame_AddMapPoint pMP idx2 pKF2 w3) as [w4| |] eqn:H4;
    try discriminate.
  cbn [mbind result_bind] in H. injection H as <-.
  apply KeyFrame_AddMapPoint_Ok in H3 as (kf1' & Hk1 & Hi1 & ->).
  apply KeyFrame_AddMapPoint_Ok in H4 as (kf2 & Hk2 & Hi2 & ->).
  change (keyframes (world s) !! cur = Some kf1') in Hk1.
  assert (kf1' = kf1) as -> by congruence.
  rewrite lookup_upd_keyframe, decide_False in Hk2 by done.
  change (keyframes (world s) !! pKF2 = Some kf2) in Hk2.
  set (mpF := MapPoint.AddObservation pKF2 idx2
                (MapPoint.AddObservation cur idx1
                   (MapPoint.new (KeyFrame.mnId kf1)))).
  exists kf1, kf2, mpF,
    (upd_keyframe pKF2
       (KeyFrame.set_mvpMapPoints
          (<[idx2 := Some pMP]> (KeyFrame.mvpMapPoints kf2)))
       (upd_keyframe cur
          (KeyFrame.set_mvpMapPoints
             (<[idx1 := Some pMP]> (KeyFrame.mvpMapPoints kf1))) w2)).
  repeat split; try done.
  - subst mpF. by rewrite !AddObservation_bad.
  - intros k. subst mpF. rewrite !AddObservation_lookup. cbn.
    rewrite !lookup_empty.
    destruct (decide (cur = pKF2)); [done|].
    repeat case_decide; congruence.
  - intros p. subst w2. cbn [mappoints upd_keyframe upd_mappoint].
    rewrite !lookup_alter.
    destruct (decide (p = pMP)) as [->|Hp].
    + rewrite !decide_True by done. by rewrite lookup_insert_eq.
    + rewrite !decide_False by done. by rewrite lookup_insert_ne.
  - intros k. rewrite !lookup_upd_keyframe.
    change (keyframes w2) with (keyframes (world s)).
    destruct (decide (k = cur)) as [->|Hk].
    + rewrite decide_False by done. rewrite decide_True by done.
      by rewrite Hkf1.
    + rewrite (decide_False (P := cur = k)) by done.
      destruct (decide (k = pKF2)) as [->|Hk'].
      * rewrite !decide_True by done. by rewrite Hk2.
      * by rewrite !decide_False.
Qed.

Lemma upd_mappoint_allocated (w : World) (p : mpptr)
  (f : MapPoint.t -> MapPoint.t) :
  slots_allocated w -> slots_allocated (upd_mappoint p f w).
Proof.
  intros Halloc k kf i q Hkf Hs. rewrite lookup_upd_mappoint.
  destruct (Halloc k kf i q Hkf Hs) as [mq Hq].
  destruct (decide (p = q)); rewrite Hq; by eexists.
Qed.

Lemma ProcessNewKeyFrame_loop_allocated (cur : kfptr)
  (slots : list (option mpptr)) :
  forall i w recent w' recent',
  ProcessNewKeyFrame_loop cur i slots w recent = Ok (w', recent') ->
  slots_allocated w -> slots_allocated w'.
Proof.
  induction slots as [|[pMP|] rest IH]; intros i w recent w' recent' H Ha;
    cbn [ProcessNewKeyFrame_loop] in H.
  - by injection H as <- _.
  - destruct (mappoints w !! pMP) as [mp|]; [|discriminate].
    cbn [deref mbind result_bind] in H.
    repeat match type of H with
           | (if ?b then _ else _) = _ => destruct b
           end; try (by eapply IH).
    eapply IH; [exact H|]. by apply upd_mappoint_allocated.
  - by eapply IH.
Qed.


(** [ProcessNewKeyFrame] keeps what was symmetric and completes the
    keyframe side of the new keyframe. *)
Lemma ProcessNewKeyFrame_keeps (s s' : Sys) (cur : kfptr) (q : list kfptr) :
  mlNewKeyFrames (lm s) = cur :: q ->
  slots_distinct (world s) cur ->
  ProcessNewKeyFrame s = Ok s' ->
  keeps_symmetry (world s) (world s')
  /\ (obs_in_slots (world s) -> slots_in_obs_of (world s') cur).
Proof.
  intros Hq Hdist Hrun. unfold ProcessNewKeyFrame in Hrun.
  rewrite Hq in Hrun.
  destruct (keyframes (world s) !! cur) as [kf0|] eqn:Hkf; [|discriminate].
  cbn [deref mbind result_bind] in Hrun.
  destruct (ProcessNewKeyFrame_loop _ _ _ _ _) as [[w recent]| |] eqn:Hloop;
    try discriminate.
  cbn [mbind result_bind] in Hrun. injection Hrun as <-.
  unfold KeyFrame.GetMapPointMatches in Hloop. cbn [world].
  assert (Hcur : obs_in_slots (world s) ->
            slots_in_obs_of (Map_AddKeyFrame cur w) cur).
  { intros Hobs.
    assert (Hinv0 : ProcessNewKeyFrame_inv (fun _ => False) cur
                      (KeyFrame.mvpMapPoints kf0) (world s) 0).
    { repeat split; try done. intros j p Hj. lia. }
    destruct (ProcessNewKeyFrame_loop_inv _ cur kf0 _ 0 (world s) _ w recent
                Hkf eq_refl Hinv0 Hloop) as (Hkeys & _ & _ & _ & Hdone).
    intros kf i p Hkf' Hslot. change (keyframes w !! cur = Some kf) in Hkf'.
    rewrite Hkeys, Hkf in Hkf'. injection Hkf' as <-.
    apply (Hdone i p); [|done]. by apply lookup_lt_Some in Hslot. }
  split; [|exact Hcur].
  intros Hobs Halloc. split; [|split].
  - assert (Hinv0 : ProcessNewKeyFrame_inv (fun _ => False) cur
                      (KeyFrame.mvpMapPoints kf0) (world s) 0).
    { repeat split; try done. intros j p Hj. lia. }
    by destruct (ProcessNewKeyFrame_loop_inv _ cur kf0 _ 0 (world s) _ w
                   recent Hkf eq_refl Hinv0 Hloop) as (_ & Hobs' & _).
  - by apply (ProcessNewKeyFrame_loop_allocated _ _ _ _ _ _ _ Hloop).
  - intros k Hk. destruct (decide (k = cur)) as [->|Hne]; [by apply Hcur|].
    assert (Hinv0 : ProcessNewKeyFrame_inv (fun k' => k' = k) cur
                      (KeyFrame.mvpMapPoints kf0) (world s) 0).
    { repeat split; try done.
      - by intros k' -> _.
      - intros j p Hj. lia. }
    destruct (ProcessNewKeyFrame_loop_inv _ cur kf0 _ 0 (world s) _ w recent
                Hkf eq_refl Hinv0 Hloop) as (_ & _ & Hothers & _).
    by apply Hothers.
Qed.

(** Refinements of the graph keep symmetry, but for the keyframe whose
    observations they drop. *)

Lemma graph_refined_refl (K : option kfptr) (w : World) : graph_refined K w w.
Proof.
  split; [done|]. intros p. unfold point_refined.
  destruct (mappoints w !! p); [|done]. split; [done|]. by left.
Qed.

Lemma graph_refined_trans (K : option kfptr) (w1 w2 w3 : World) :
  graph_refined K w1 w2 -> graph_refined K w2 w3 -> graph_refined K w1 w3.
Proof.
  intros [Hs1 Hp1] [Hs2 Hp2]. split.
  - intros k. by rewrite Hs2, Hs1.
  - intros p. specialize (Hp1 p). specialize (Hp2 p).
    unfold point_refined in *.
    destruct (mappoints w1 !! p) as [m1|], (mappoints w2 !! p) as [m2|],
             (mappoints w3 !! p) as [m3|]; try done.
    destruct Hp1 as [Hb1 Ho1], Hp2 as [Hb2 Ho2]. split; [auto|].
    intros k. destruct (Ho2 k) as [Heq|[HK Hnone]]; [|by right].
    rewrite Heq. apply Ho1.
Qed.

Lemma graph_refined_upd_mappoint (K : option kfptr) (w : World) (p : mpptr)
  (f : MapPoint.t -> MapPoint.t) :
  (forall mp, point_refined K (Some mp) (Some (f mp))) ->
  graph_refined K w (upd_mappoint p f w).
Proof.
  intros Hf. split; [done|]. intros q. rewrite lookup_upd_mappoint.
  destruct (decide (p = q)) as [<-|Hne].
  - destruct (mappoints w !! p) as [mp|]; [apply Hf|done].
  - exact (proj2 (graph_refined_refl K w) q).
Qed.

Lemma graph_refined_upd_keyframe (K : option kfptr) (w : World) (k : kfptr)
  (f : KeyFrame.t -> KeyFrame.t) :
  (forall kf, KeyFrame.mvpMapPoints (f kf) = KeyFrame.mvpMapPoints kf) ->
  graph_refined K w (upd_keyframe k f w).
Proof.
  intros Hf. split; [|exact (proj2 (graph_refined_refl K w))].
  intros k'. rewrite lookup_upd_keyframe.
  destruct (decide (k = k')) as [<-|Hne]; [|done].
  destruct (keyframes w !! k) as [kf|]; [|done]. cbn. by rewrite Hf.
Qed.

Lemma graph_refined_symmetry (K : option kfptr) (w w' : World) :
  graph_refined K w w' ->
  obs_in_slots w -> slots_allocated w ->
  obs_in_slots w' /\ slots_allocated w'
  /\ forall k, K <> Some k -> slots_in_obs_of w k -> slots_in_obs_of w' k.
Proof.
  intros [Hslots Hpts] Hobs Halloc.
  assert (Hkf : forall k kf', keyframes w' !! k = Some kf' ->
            exists kf, keyframes w !! k = Some kf
              /\ KeyFrame.mvpMapPoints kf = KeyFrame.mvpMapPoints kf').
  { intros k kf' Hk'. specialize (Hslots k). rewrite Hk' in Hslots.
    destruct (keyframes w !! k) as [kf|]; [|discriminate].
    exists kf. split; [done|]. cbn in Hslots. congruence. }
  assert (Hpt : forall p mp', mappoints w' !! p = Some mp' ->
            exists mp, mappoints w !! p = Some mp
              /\ point_refined K (Some mp) (Some mp')).
  { intros p mp' Hp'. specialize (Hpts p). rewrite Hp' in Hpts.
    destruct (mappoints w !! p) as [mp|]; [|done]. by exists mp. }
  split; [|split].
  - intros p mp' k i Hp' Hb' Hk'.
    destruct (Hpt p mp' Hp') as (mp & Hp & Hb & Ho).
    destruct (Ho k) as [Heq|[_ Hnone]]; [|congruence].
    rewrite Heq in Hk'.
    destruct (Hobs p mp k i Hp (Hb Hb') Hk') as (kf & Hk & Hs).
    specialize (Hslots k). rewrite Hk in Hslots.
    destruct (keyframes w' !! k) as [kf'|]; [|discriminate].
    exists kf'. split; [done|]. cbn in Hslots. congruence.
  - intros k kf' i p Hk' Hs'.
    destruct (Hkf k kf' Hk') as (kf & Hk & Heq). rewrite <- Heq in Hs'.
    destruct (Halloc k kf i p Hk Hs') as [mp Hp].
    specialize (Hpts p). rewrite Hp in Hpts.
    destruct (mappoints w' !! p); [by eexists|done].
  - intros k HK Hreg kf' i p Hk' Hs' mp' Hp' Hb'.
    destruct (Hkf k kf' Hk') as (kf & Hk & Heq). rewrite <- Heq in Hs'.
    destruct (Hpt p mp' Hp') as (mp & Hp & Hb & Ho).
    destruct (Ho k) as [Heq'|[HK' _]]; [|congruence].
    rewrite Heq'. apply (Hreg kf i p Hk Hs' mp Hp (Hb Hb')).
Qed.

Lemma graph_refined_keeps (w w' : World) :
  graph_refined None w w' -> keeps_symmetry w w'.
Proof.
  intros Href Hobs Halloc.
  destruct (graph_refined_symmetry None w w' Href Hobs Halloc)
    as (Hobs' & Halloc' & Hk).
  split; [done|]. split; [done|]. intros k. by apply Hk.
Qed.

Lemma keeps_symmetry_refl (w : World) : keeps_symmetry w w.
Proof. intros Hobs Halloc. by repeat split. Qed.

Lemma keeps_symmetry_trans (w1 w2 w3 : World) :
  keeps_symmetry w1 w2 -> keeps_symmetry w2 w3 -> keeps_symmetry w1 w3.
Proof.
  intros H12 H23 Hobs Halloc.
  destruct (H12 Hobs Halloc) as (Hobs2 & Halloc2 & Hk2).
  destruct (H23 Hobs2 Halloc2) as (Hobs3 & Halloc3 & Hk3).
  repeat split; auto.
Qed.

Lemma point_refined_SetBadFlag (K : option kfptr) (mp : MapPoint.t) :
  point_refined K (Some mp) (Some (MapPoint.SetBadFlag mp)).
Proof. split; [discriminate|]. intros k. by left. Qed.

Lemma MapPointCulling_loop_refined (N th : Z) (l : list mpptr) :
  forall w w' kept,
  MapPointCulling_loop N th w l = Ok (w', kept) -> graph_refined None w w'.
Proof.
  induction l as [|p rest IH]; intros w w' kept H;
    cbn [MapPointCulling_loop] in H.
  { injection H as <- _. apply graph_refined_refl. }
  destruct (mappoints w !! p) as [mp|]; [|discriminate].
  cbn [deref mbind result_bind] in H.
  repeat match type of H with
         | (if ?b then _ else _) = _ => destruct b
         end;
    try (by eapply IH);
    try (eapply graph_refined_trans;
         [apply graph_refined_upd_mappoint, point_refined_SetBadFlag
         |by eapply IH]).
  destruct (MapPointCulling_loop N th w rest) as [[w0 kept0]| |] eqn:E;
    try discriminate.
  cbn [mbind result_bind] in H. injection H as <- _. by eapply IH.
Qed.

Lemma MapPointCulling_keeps (s s' : Sys) :
  MapPointCulling s = Ok s' -> keeps_symmetry (world s) (world s').
Proof.
  unfold MapPointCulling. intros H.
  destruct (mpCurrentKeyFrame (lm s)) as [cur|]; [|discriminate].
  cbn [deref mbind result_bind] in H.
  destruct (keyframes (world s) !! cur) as [kf|]; [|discriminate].
  cbn [deref mbind result_bind] in H.
  destruct (MapPointCulling_loop _ _ _ _) as [[w l]| |] eqn:E;
    try discriminate.
  cbn [mbind result_bind] in H. injection H as <-. cbn [world].
  apply graph_refined_keeps. by eapply MapPointCulling_loop_refined.
Qed.

(** Registering a new point in two vacant slots keeps the graph symmetric
    and closed, and leaves every other slot as it was. *)
Lemma RegisterNewMapPoint_keeps (cur pKF2 : kfptr) (idx1 idx2 : nat)
  (s s' : Sys) :
  cur <> pKF2 ->
  obs_in_slots (world s) ->
  slots_allocated (world s) ->
  slot_vacant (world s) cur idx1 ->
  slot_vacant (world s) pKF2 idx2 ->
  RegisterNewMapPoint cur pKF2 idx1 idx2 s = Ok s' ->
  obs_in_slots (world s')
  /\ slots_allocated (world s')
  /\ (forall k, slots_in_obs_of (world s) k -> slots_in_obs_of (world s') k)
  /\ (forall k j, (k = cur -> j <> idx1) -> (k = pKF2 -> j <> idx2) ->
        slot_vacant (world s) k j -> slot_vacant (world s') k j).
Proof.
  intros Hne Hobs Halloc Hv1 Hv2 Hrun.
  destruct (RegisterNewMapPoint_view cur pKF2 idx1 idx2 s s' Hne Hrun)
    as (kf1 & kf2 & mpF & w4 & Hkf1 & Hkf2 & Hi1 & Hi2 & HbF & HoF & Hpts
        & Hkfs & _ & -> & _).
  set (pMP := fresh (dom (mappoints (world s)))) in *.
  assert (Hfresh : mappoints (world s) !! pMP = None)
    by (apply not_elem_of_dom, is_fresh).
  change (obs_in_slots w4 /\ slots_allocated w4
          /\ (forall k, slots_in_obs_of (world s) k -> slots_in_obs_of w4 k)
          /\ (forall k j, (k = cur -> j <> idx1) -> (k = pKF2 -> j <> idx2) ->
                slot_vacant (world s) k j -> slot_vacant w4 k j)).
  (* a slot of the new graph is the new point's or an old slot *)
  assert (Hslot4 : forall k kf i p,
            keyframes w4 !! k = Some kf ->
            KeyFrame.mvpMapPoints kf !! i = Some (Some p) ->
            (p = pMP /\ (k = cur /\ i = idx1 \/ k = pKF2 /\ i = idx2))
            \/ (p <> pMP
                /\ (k = cur -> i <> idx1) /\ (k = pKF2 -> i <> idx2)
                /\ exists kf0, keyframes (world s) !! k = Some kf0
                     /\ KeyFrame.mvpMapPoints kf0 !! i = Some (Some p))).
  { intros k kf i p Hkf Hs. rewrite Hkfs in Hkf.
    assert (Hold : forall kf0, keyframes (world s) !! k = Some kf0 ->
              KeyFrame.mvpMapPoints kf0 !! i = Some (Some p) -> p <> pMP).
    { intros kf0 Hk0 Hs0 ->.
      destruct (Halloc k kf0 i pMP Hk0 Hs0) as [? ?]. congruence. }
    destruct (decide (k = cur)) as [->|Hk1].
    { injection Hkf as <-. cbn in Hs.
      destruct (decide (i = idx1)) as [->|Hi].
      - rewrite list_lookup_insert_eq in Hs by done. injection Hs as <-.
        left. auto.
      - rewrite list_lookup_insert_ne in Hs by done. right.
        split; [by eapply Hold|]. repeat split; try done. by exists kf1. }
    destruct (decide (k = pKF2)) as [->|Hk2].
    { injection Hkf as <-. cbn in Hs.
      destruct (decide (i = idx2)) as [->|Hi].
      - rewrite list_lookup_insert_eq in Hs by done. injection Hs as <-.
        left. auto.
      - rewrite list_lookup_insert_ne in Hs by done. right.
        split; [by eapply Hold|]. repeat split; try done. by exists kf2. }
    right. split; [by eapply Hold|]. repeat split; try done. by exists kf. }
  split; [|split; [|split]].
  - intros p mp' k i Hp Hb Hk. rewrite Hpts in Hp. rewrite Hkfs.
    destruct (decide (p = pMP)) as [->|Hp'].
    + injection Hp as <-. rewrite HoF in Hk.
      destruct (decide (k = cur)) as [->|Hk1].
      * injection Hk as <-. eexists. split; [reflexivity|].
        cbn. by apply list_lookup_insert_eq.
      * destruct (decide (k = pKF2)) as [->|Hk2]; [|discriminate].
        injection Hk as <-. eexists. split; [reflexivity|].
        cbn. by apply list_lookup_insert_eq.
    + destruct (Hobs p mp' k i Hp Hb Hk) as (kf & Hkf & Hs).
      destruct (decide (k = cur)) as [->|Hk1].
      * assert (kf = kf1) as -> by congruence.
        eexists. split; [reflexivity|]. cbn.
        rewrite list_lookup_insert_ne; [done|]. intros <-.
        pose proof (Hv1 kf1 p mp' Hkf1 Hs Hp). congruence.
      * destruct (decide (k = pKF2)) as [->|Hk2]; [|by exists kf].
        assert (kf = kf2) as -> by congruence.
        eexists. split; [reflexivity|]. cbn.
        rewrite list_lookup_insert_ne; [done|]. intros <-.
        pose proof (Hv2 kf2 p mp' Hkf2 Hs Hp). congruence.
  - intros k kf i p Hkf Hs. rewrite Hpts.
    destruct (Hslot4 k kf i p Hkf Hs)
      as [(-> & _)|(Hp' & _ & _ & kf0 & Hk0 & Hs0)].
    + rewrite decide_True by done. by eexists.
    + rewrite decide_False by done. by eapply Halloc.
  - intros k Hreg kf i p Hkf Hs mp' Hp Hb. rewrite Hpts in Hp.
    destruct (Hslot4 k kf i p Hkf Hs)
      as [(-> & Hwhere)|(Hp' & _ & _ & kf0 & Hk0 & Hs0)].
    + rewrite decide_True in Hp by done. injection Hp as <-. rewrite HoF.
      destruct Hwhere as [[-> ->]|[-> ->]].
      * by rewrite decide_True.
      * rewrite decide_False by done. by rewrite decide_True.
    + rewrite decide_False in Hp by done.
      apply (Hreg kf0 i p Hk0 Hs0 mp' Hp Hb).
  - intros k j Hj1 Hj2 Hvac kf q mq Hkf Hs Hq. rewrite Hpts in Hq.
    destruct (Hslot4 k kf j q Hkf Hs)
      as [(-> & Hwhere)|(Hp' & _ & _ & kf0 & Hk0 & Hs0)].
    + exfalso. destruct Hwhere as [[-> ->]|[-> ->]]; [by apply Hj1|by apply Hj2].
    + rewrite decide_False in Hq by done.
      apply (Hvac kf0 q mq Hk0 Hs0 Hq).
Qed.


Lemma point_refined_EraseObservation (K : kfptr) (mp : MapPoint.t) :
  point_refined (Some K) (Some mp) (Some (MapPoint_EraseObservation K mp)).
Proof.
  unfold MapPoint_EraseObservation.
  destruct (MapPoint.mObservations mp !! K) eqn:HK.
  - split; [done|]. intros k. cbn.
    destruct (decide (K = k)) as [<-|Hne].
    + right. by rewrite lookup_delete_eq.
    + left. by rewrite lookup_delete_ne.
  - split; [done|]. intros k. by left.
Qed.

Lemma graph_refined_same_stores (K : option kfptr) (w w' : World) :
  keyframes w' = keyframes w -> mappoints w' = mappoints w ->
  graph_refined K w w'.
Proof.
  intros Hk Hp. split.
  - intros k. by rewrite Hk.
  - intros p. rewrite Hp. exact (proj2 (graph_refined_refl K w) p).
Qed.

Lemma KeyFrame_SetBadFlag_refined (K : kfptr) (w : World) :
  graph_refined (Some K) w (KeyFrame_SetBadFlag K w).
Proof.
  unfold KeyFrame_SetBadFlag.
  destruct (keyframes w !! K) as [kf|]; [|apply graph_refined_refl].
  set (detach := fun (slot : option mpptr) (w0 : World) =>
         match slot with
         | Some pMP => upd_mappoint pMP (MapPoint_EraseObservation K) w0
         | None => w0
         end).
  assert (Hfold : forall slots, graph_refined (Some K) w (foldr detach w slots)).
  { induction slots as [|[p|] rest IH]; cbn [foldr detach].
    - apply graph_refined_refl.
    - eapply graph_refined_trans; [exact IH|].
      apply graph_refined_upd_mappoint, point_refined_EraseObservation.
    - exact IH. }
  eapply graph_refined_trans; [apply Hfold|].
  eapply graph_refined_trans;
    [by apply (graph_refined_upd_keyframe _ _ K (KeyFrame.set_mbBad true))|].
  by apply graph_refined_same_stores.
Qed.

Lemma KeyFrameCulling_body_cases (mono : bool) (K : kfptr) (w w' : World) :
  KeyFrameCulling_body mono K w = Ok w' ->
  w' = w
  \/ (w' = KeyFrame_SetBadFlag K w /\ is_Some (keyframes w !! K)).
Proof.
  unfold KeyFrameCulling_body. intros H.
  destruct (keyframes w !! K) as [kf|]; [|discriminate].
  cbn [deref mbind result_bind] in H.
  destruct (KeyFrame.mnId kf =? 0); [injection H as <-; by left|].
  destruct (KeyFrameCulling_slots _ _ _ _ _ _ _) as [[nRed nMPs]| |];
    try discriminate.
  cbn [mbind result_bind] in H.
  destruct (Qlt_bool _ _); injection H as <-; [right|by left].
  split; [reflexivity|by eexists].
Qed.

Lemma KeyFrameCulling_loop_live (mono : bool) (l : list kfptr) :
  forall w w',
  KeyFrameCulling_loop mono l w = Ok w' ->
  (forall k kf, keyframes w !! k = Some kf -> KeyFrame.mbBad kf = true ->
     exists kf', keyframes w' !! k = Some kf' /\ KeyFrame.mbBad kf' = true)
  /\ keeps_symmetry_of_live w w'.
Proof.
  induction l as [|K rest IH]; intros w w' H; cbn [KeyFrameCulling_loop] in H.
  { injection H as <-. split; [by eauto|]. intros Hobs Halloc. by repeat split. }
  destruct (KeyFrameCulling_body mono K w) as [w1| |] eqn:Hbody;
    try discriminate.
  cbn [mbind result_bind] in H.
  destruct (IH w1 w' H) as [Hmono Hlive].
  destruct (KeyFrameCulling_body_cases mono K w w1 Hbody)
    as [->|[-> [kfK HK]]]; [by split|].
  pose proof (KeyFrame_SetBadFlag_marks w K kfK HK) as Hmarked.
  split.
  - intros k kf Hk Hb. apply (Hmono k (if decide (k = K)
                                         then KeyFrame.set_mbBad true kf
                                         else kf)).
    + destruct (decide (k = K)) as [->|Hne].
      * rewrite Hmarked. congruence.
      * pose proof (proj1 (KeyFrame_SetBadFlag_refined K w) k) as Hs.
        unfold KeyFrame_SetBadFlag in *. rewrite HK in *.
        cbn [Map_EraseKeyFrame keyframes]. rewrite lookup_upd_keyframe.
        rewrite decide_False by done.
        assert (Hfold : forall slots,
          keyframes (foldr (fun slot w0 =>
              match slot with
              | Some pMP => upd_mappoint pMP (MapPoint_EraseObservation K) w0
              | None => w0
              end) w slots) = keyframes w).
        { induction slots as [|[p|] ? IHs]; cbn; done. }
        by rewrite Hfold.
    + by destruct (decide (k = K)).
  - intros Hobs Halloc.
    destruct (graph_refined_symmetry (Some K) w _
                (KeyFrame_SetBadFlag_refined K w) Hobs Halloc)
      as (Hobs1 & Halloc1 & Hk1).
    destruct (Hlive Hobs1 Halloc1) as (Hobs' & Halloc' & Hk').
    split; [done|]. split; [done|].
    intros k kf' Hkf' Hb' Hreg. apply (Hk' k kf' Hkf' Hb').
    apply Hk1; [|done]. intros [= ->].
    destruct (Hmono k (KeyFrame.set_mbBad true kfK) Hmarked eq_refl)
      as (kf'' & Hkf'' & Hb'').
    congruence.
Qed.

Lemma keeps_symmetry_live (w w' : World) :
  keeps_symmetry w w' -> keeps_symmetry_of_live w w'.
Proof.
  intros H Hobs Halloc. destruct (H Hobs Halloc) as (? & ? & Hk).
  repeat split; auto.
Qed.

Lemma keeps_symmetry_then_live (w1 w2 w3 : World) :
  keeps_symmetry w1 w2 -> keeps_symmetry_of_live w2 w3 ->
  keeps_symmetry_of_live w1 w3.
Proof.
  intros H12 H23 Hobs Halloc.
  destruct (H12 Hobs Halloc) as (Hobs2 & Halloc2 & Hk2).
  destruct (H23 Hobs2 Halloc2) as (Hobs3 & Halloc3 & Hk3).
  repeat split; eauto.
Qed.

Section SymmetryOfStages.

Variable env : nat -> Sys -> Sys.
Variable norm : Vec3 -> Q.
Variable SVD_vt_row3 : Vec4 -> Vec4 -> Vec4 -> Vec4 -> Vec4.
Variable UnprojectStereo : KeyFrame.t -> nat -> Vec3.
Variable ComputeSceneMedianDepth : World -> kfptr -> Q.
Variable GetBestCovisibilityKeyFrames : World -> kfptr -> nat -> list kfptr.
Variable GetVectorCovisibleKeyFrames : World -> kfptr -> list kfptr.
Variable SearchForTriangulation : World -> kfptr -> kfptr -> list (nat * nat).
Variable Fuse : kfptr -> list (option mpptr) -> World -> World.
Variable LocalBundleAdjustment : kfptr -> World -> World.

(** The other threads, the fusion of the matcher and the optimizer keep
    observation symmetry. *)
Hypothesis env_keeps : forall t s, keeps_symmetry (world s) (world (env t s)).
Hypothesis Fuse_keeps : forall k l w, keeps_symmetry w (Fuse k l w).
Hypothesis LocalBundleAdjustment_keeps :
  forall k w, keeps_symmetry w (LocalBundleAdjustment k w).

(** The matcher pairs vacant slots, each at most once. *)
Hypothesis matcher_vacant :
  forall w k1 k2, matches_vacant w k1 k2 (SearchForTriangulation w k1 k2).

(** A keyframe is not its own covisibility neighbour. *)
Hypothesis neighbors_irreflexive :
  forall w k n, k ∉ GetBestCovisibilityKeyFrames w k n.

Lemma CreateNewMapPoints_matches_keeps (cur pKF2 : kfptr)
  (pairs : list (nat * nat)) :
  cur <> pKF2 ->
  forall s s',
  matches_vacant (world s) cur pKF2 pairs ->
  CreateNewMapPoints_matches norm SVD_vt_row3 UnprojectStereo cur pKF2 pairs s
  = Ok s' ->
  keeps_symmetry (world s) (world s').
Proof.
  intros Hne. induction pairs as [|[idx1 idx2] rest IH];
    intros s s' (Hnd1 & Hnd2 & Hvac) Hrun;
    cbn [CreateNewMapPoints_matches] in Hrun.
  { injection Hrun as <-. apply keeps_symmetry_refl. }
  destruct (keyframes (world s) !! cur) as [kf1|]; [|discriminate].
  destruct (keyframes (world s) !! pKF2) as [kf2|]; [|discriminate].
  cbn [deref mbind result_bind] in Hrun.
  destruct (TriangulatePair _ _ _ _ _ _ _) as [out| |]; try discriminate.
  cbn [mbind result_bind] in Hrun.
  cbn [fmap list_fmap fst snd] in Hnd1, Hnd2.
  apply NoDup_cons in Hnd1 as [Hfresh1 Hnd1].
  apply NoDup_cons in Hnd2 as [Hfresh2 Hnd2].
  apply Forall_cons in Hvac as [[Hv1 Hv2] Hvac]. cbn [fst snd] in Hv1, Hv2.
  assert (Hskip : CreateNewMapPoints_matches norm SVD_vt_row3 UnprojectStereo
                    cur pKF2 rest s = Ok s' ->
                  keeps_symmetry (world s) (world s'))
    by (intros H; by apply (IH s s')).
  destruct out; try (by apply Hskip).
  destruct (RegisterNewMapPoint cur pKF2 idx1 idx2 s) as [s1| |] eqn:Hreg;
    try discriminate.
  cbn [mbind result_bind] in Hrun. intros Hobs Halloc.
  destruct (RegisterNewMapPoint_keeps cur pKF2 idx1 idx2 s s1 Hne Hobs
              Halloc Hv1 Hv2 Hreg) as (Hobs1 & Halloc1 & Hk1 & Hkeep).
  assert (Hvac1 : matches_vacant (world s1) cur pKF2 rest).
  { repeat split; try done.
    apply Forall_forall. intros [j1 j2] Hin.
    pose proof (proj1 (Forall_forall _ _) Hvac _ Hin) as [Hj1 Hj2].
    cbn [fst snd] in *. split.
    - apply Hkeep; [| |done].
      + intros _ ->. apply Hfresh1.
        apply list_elem_of_fmap. by exists (idx1, j2).
      + intros Heq. by destruct Hne.
    - apply Hkeep; [| |done].
      + intros Heq. by destruct Hne.
      + intros _ ->. apply Hfresh2.
        apply list_elem_of_fmap. by exists (j1, idx2). }
  destruct (IH s1 s' Hvac1 Hrun Hobs1 Halloc1) as (Hobs' & Halloc' & Hk').
  repeat split; auto.
Qed.

Lemma CreateNewMapPoints_neighbors_keeps (cur : kfptr) (l : list kfptr) :
  cur ∉ l ->
  forall i e e',
  CreateNewMapPoints_neighbors env norm SVD_vt_row3 UnprojectStereo
    ComputeSceneMedianDepth SearchForTriangulation cur i l e = Ok e' ->
  keeps_symmetry (world (sys e)) (world (sys e')).
Proof.
  induction l as [|pKF2 rest IH]; intros Hnotin i e e' H;
    cbn [CreateNewMapPoints_neighbors] in H.
  { injection H as <-. apply keeps_symmetry_refl. }
  apply not_elem_of_cons in Hnotin as [Hne Hnotin].
  set (e1 := if (0 <? i)%nat then yield env e else e) in H.
  assert (He1 : keeps_symmetry (world (sys e)) (world (sys e1))).
  { subst e1. destruct (0 <? i)%nat; [apply env_keeps|].
    apply keeps_symmetry_refl. }
  destruct ((0 <? i)%nat && CheckNewKeyFrames (lm (sys e1))).
  { by injection H as <-. }
  cbn [emit sys] in H.
  destruct (keyframes (world (sys e1)) !! cur) as [kf1|]; [|discriminate].
  destruct (keyframes (world (sys e1)) !! pKF2) as [kf2|]; [|discriminate].
  cbn [deref mbind result_bind] in H.
  match type of H with
  | (if ?b then _ else _) = _ => destruct b
  end.
  - eapply keeps_symmetry_trans; [exact He1|].
    exact (IH Hnotin (S i) _ e' H).
  - destruct (CreateNewMapPoints_matches _ _ _ _ _ _ _) as [s| |] eqn:Hm;
      try discriminate.
    cbn [mbind result_bind] in H.
    eapply keeps_symmetry_trans; [exact He1|].
    eapply keeps_symmetry_trans; [|exact (IH Hnotin (S i) _ e' H)].
    cbn [with_sys sys].
    by apply (CreateNewMapPoints_matches_keeps cur pKF2 _ Hne (sys e1) s
                (matcher_vacant _ _ _)).
Qed.

Lemma CreateNewMapPoints_keeps (e e' : Exec) :
  CreateNewMapPoints env norm SVD_vt_row3 UnprojectStereo
    ComputeSceneMedianDepth GetBestCovisibilityKeyFrames
    SearchForTriangulation e = Ok e' ->
  keeps_symmetry (world (sys e)) (world (sys e')).
Proof.
  unfold CreateNewMapPoints. intros H.
  destruct (mpCurrentKeyFrame (lm (sys e))) as [cur|]; [|discriminate].
  cbn [deref mbind result_bind] in H.
  refine (CreateNewMapPoints_neighbors_keeps cur _ _ 0 e e' H).
  apply neighbors_irreflexive.
Qed.

(** [SearchInNeighbors] itself writes the two fuse markers only. *)

Lemma SearchInNeighbors_targets_refined (curId : Z) (l : list kfptr) :
  forall w targets w' targets',
  SearchInNeighbors_targets GetBestCovisibilityKeyFrames curId l w targets
  = Ok (w', targets') ->
  graph_refined None w w'.
Proof.
  induction l as [|pKFi rest IH]; intros w targets w' targets' H;
    cbn [SearchInNeighbors_targets] in H.
  { injection H as <- _. apply graph_refined_refl. }
  destruct (keyframes w !! pKFi) as [kfi|]; [|discriminate].
  cbn [deref mbind result_bind] in H.
  destruct (KeyFrame.isBad kfi || _); [by eapply IH|].
  destruct (SearchInNeighbors_second _ _ _ _) as [t| |]; try discriminate.
  cbn [mbind result_bind] in H.
  eapply graph_refined_trans; [|by eapply IH].
  by apply graph_refined_upd_keyframe.
Qed.

Lemma SearchInNeighbors_fuse_keeps (targets : list kfptr)
  (m : list (option mpptr)) :
  forall e,
  keeps_symmetry (world (sys e))
    (world (sys (SearchInNeighbors_fuse env Fuse targets m e))).
Proof.
  induction targets as [|pKFi rest IH]; intros e;
    cbn [SearchInNeighbors_fuse].
  { apply keeps_symmetry_refl. }
  eapply keeps_symmetry_trans; [|apply IH].
  cbn [on_world emit yield sys world].
  eapply keeps_symmetry_trans; [apply env_keeps|apply Fuse_keeps].
Qed.

Lemma SearchInNeighbors_candidates_refined (curId : Z)
  (l : list (option mpptr)) :
  forall w cands w' cands',
  SearchInNeighbors_candidates curId l w cands = Ok (w', cands') ->
  graph_refined None w w'.
Proof.
  induction l as [|[pMP|] rest IH]; intros w cands w' cands' H;
    cbn [SearchInNeighbors_candidates] in H.
  - injection H as <- _. apply graph_refined_refl.
  - destruct (mappoints w !! pMP) as [mp|]; [|discriminate].
    cbn [deref mbind result_bind] in H.
    destruct (MapPoint.isBad mp || _); [by eapply IH|].
    eapply graph_refined_trans; [|by eapply IH].
    apply graph_refined_upd_mappoint. intros mp0. split; [done|].
    intros k. by left.
  - by eapply IH.
Qed.

Lemma SearchInNeighbors_collect_refined (curId : Z) (l : list kfptr) :
  forall w cands w' cands',
  SearchInNeighbors_collect curId l w cands = Ok (w', cands') ->
  graph_refined None w w'.
Proof.
  induction l as [|pKFi rest IH]; intros w cands w' cands' H;
    cbn [SearchInNeighbors_collect] in H.
  { injection H as <- _. apply graph_refined_refl. }
  destruct (keyframes w !! pKFi) as [kfi|]; [|discriminate].
  cbn [deref mbind result_bind] in H.
  destruct (SearchInNeighbors_candidates _ _ _ _) as [[w1 c1]| |] eqn:Hc;
    try discriminate.
  cbn [mbind result_bind] in H.
  eapply graph_refined_trans; [|by eapply IH].
  by eapply SearchInNeighbors_candidates_refined.
Qed.

Lemma SearchInNeighbors_keeps (e e' : Exec) :
  SearchInNeighbors env GetBestCovisibilityKeyFrames Fuse e = Ok e' ->
  keeps_symmetry (world (sys e)) (world (sys e')).
Proof.
  unfold SearchInNeighbors. intros H.
  destruct (mpCurrentKeyFrame (lm (sys e))) as [cur|]; [|discriminate].
  cbn [deref mbind result_bind] in H.
  destruct (keyframes (world (sys e)) !! cur) as [kf|]; [|discriminate].
  cbn [deref mbind result_bind] in H.
  destruct (SearchInNeighbors_targets _ _ _ _ _) as [[w1 targets]| |] eqn:Ht;
    try discriminate.
  cbn [mbind result_bind] in H.
  destruct (SearchInNeighbors_collect _ _ _ _) as [[w2 cands]| |] eqn:Hc;
    try discriminate.
  cbn [mbind result_bind] in H. injection H as <-.
  cbn [on_world emit yield sys world].
  eapply keeps_symmetry_trans;
    [apply graph_refined_keeps;
     by eapply SearchInNeighbors_targets_refined|].
  eapply keeps_symmetry_trans;
    [apply (SearchInNeighbors_fuse_keeps targets
              (KeyFrame.GetMapPointMatches kf)
              (on_world (fun _ => w1) e))|].
  eapply keeps_symmetry_trans;
    [apply graph_refined_keeps;
     by eapply SearchInNeighbors_collect_refined|].
  eapply keeps_symmetry_trans; [|apply Fuse_keeps].
  exact (env_keeps _ (mkSys _ w2)).
Qed.

(** Local bundle adjustment and keyframe culling. *)
Lemma Run_optimization_keeps (e e' : Exec) :
  Run_optimization env GetVectorCovisibleKeyFrames LocalBundleAdjustment e
  = Ok e' ->
  keeps_symmetry_of_live (world (sys e)) (world (sys e')).
Proof.
  unfold Run_optimization. intros H.
  assert (Hy : forall e0, keeps_symmetry (world (sys e0))
                            (world (sys (yield env e0))))
    by (intros e0; apply env_keeps).
  destruct (negb (CheckNewKeyFrames (lm (sys (yield env e))))).
  2: { injection H as <-. apply keeps_symmetry_live, Hy. }
  destruct (negb (stopRequested (lm (sys (yield env (yield env e)))))).
  2: { injection H as <-. apply keeps_symmetry_live.
       eapply keeps_symmetry_trans; apply Hy. }
  set (e3 := yield env (yield env (yield env e))) in H.
  assert (H3 : keeps_symmetry (world (sys e)) (world (sys e3))).
  { subst e3. eapply keeps_symmetry_trans; [apply Hy|].
    eapply keeps_symmetry_trans; apply Hy. }
  assert (Hcull : forall e4,
            keeps_symmetry (world (sys e)) (world (sys e4)) ->
            KeyFrameCulling GetVectorCovisibleKeyFrames e4 = Ok e' ->
            keeps_symmetry_of_live (world (sys e)) (world (sys e'))).
  { intros e4 H4 Hk. unfold KeyFrameCulling in Hk.
    destruct (mpCurrentKeyFrame (lm (sys e4))) as [cur|]; [|discriminate].
    cbn [deref mbind result_bind] in Hk.
    destruct (KeyFrameCulling_loop _ _ _) as [w| |] eqn:Hl; try discriminate.
    cbn [mbind result_bind] in Hk. injection Hk as <-.
    cbn [emit on_world sys world].
    eapply keeps_symmetry_then_live; [exact H4|].
    by destruct (KeyFrameCulling_loop_live _ _ _ _ Hl). }
  destruct (2 <? KeyFramesInMap (world (sys e3))).
  - destruct (mpCurrentKeyFrame (lm (sys e3))) as [cur|]; [|discriminate].
    cbn [deref mbind result_bind] in H.
    refine (Hcull _ _ H). cbn [on_world emit sys world].
    eapply keeps_symmetry_trans; [exact H3|].
    apply LocalBundleAdjustment_keeps.
  - cbn [mbind result_bind] in H. by apply (Hcull e3).
Qed.


End SymmetryOfStages.

(** The tracker scene is symmetric but for the slots of keyframe 14. *)

Ltac scene_point H :=
  unfold tracker_world in H; cbn [mappoints keyframes] in H;
  repeat (rewrite lookup_insert in H;
          destruct (decide _) as [?|?];
          [first [discriminate | lia | subst; injection H as ?; subst]|]);
  try (rewrite lookup_empty in H; discriminate H).

Ltac scene_obs H :=
  unfold scene_mappoint in H; cbn [MapPoint.mObservations] in H;
  apply elem_of_list_to_map_2 in H;
  repeat (apply elem_of_cons in H as [H|H]; [injection H as ? ?; subst|]);
  try (by apply elem_of_nil in H).

Ltac scene_slot H :=
  unfold tracker_keyframe, scene_keyframe in H;
  cbn [KeyFrame.mvpMapPoints] in H;
  repeat match type of H with
         | _ !! ?i = _ => destruct i as [|i]; cbn in H; try discriminate H
         end;
  try (injection H as ?; subst).

Lemma tracker_world_obs_in_slots : obs_in_slots tracker_world.
Proof.
  intros p mp k i Hp Hb Hk. scene_point Hp; scene_obs Hk;
    (eexists; split; [vm_compute; reflexivity|reflexivity]).
Qed.

Lemma tracker_world_slots_in_obs (k : kfptr) :
  k <> 14%nat -> slots_in_obs_of tracker_world k.
Proof.
  intros Hk kf i p Hkf Hs mp Hp Hb. scene_point Hkf.
  scene_slot Hs. scene_point Hp. reflexivity.
Qed.

Lemma tracker_world_slots_distinct : slots_distinct tracker_world 14%nat.
Proof.
  intros kf i j p mp Hkf Hi Hj Hp Hb. scene_point Hkf.
  scene_slot Hi; scene_slot Hj; congruence.
Qed.

Lemma tracker_world_slots_allocated : slots_allocated tracker_world.
Proof.
  intros k kf i p Hkf Hs. scene_point Hkf; scene_slot Hs;
    vm_compute; by eexists.
Qed.

Lemma scene_neighbors_irreflexive (w : World) (k : kfptr) (n : nat) :
  k ∉ scene_neighbors w k n.
Proof.
  unfold scene_neighbors. intros Hin.
  apply elem_of_take in Hin as (i & Hi & _).
  apply list_elem_of_lookup_2, list_elem_of_In, filter_In in Hi as [_ Hi].
  by rewrite Nat.eqb_refl in Hi.
Qed.

Lemma scene_matches_vacant (w : World) (k1 k2 : kfptr) :
  matches_vacant w k1 k2 (scene_matches w k1 k2).
Proof. repeat split; constructor. Qed.


(** * Further properties of the code *)

Ltac run_in H := cbn [deref mbind result_bind mret result_ret] in H.


(** ** The fundamental matrix *)

Ltac vec_split :=
  repeat match goal with
         | v : Vec3 |- _ => destruct v as [[? ?] ?]
         | m : Mat3 |- _ => destruct m as [[? ?] ?]
         end.

Ltac mat_unfold :=
  cbv [veq meq comp row dot mulv mmul transpose vadd vsub mneg inverse
       determinant SkewSymmetricMatrix I3] in *.

Lemma determinant_transpose (m : Mat3) :
  (determinant (transpose m) == determinant m)%Q.
Proof. vec_split. mat_unfold. ring. Qed.

Lemma mulv_mmul (a b : Mat3) (v : Vec3) :
  veq (mulv (mmul a b) v) (mulv a (mulv b v)).
Proof. vec_split. mat_unfold. repeat split; ring. Qed.

Lemma inverse_mulv (K : Mat3) (v : Vec3) :
  ~ (determinant K == 0)%Q -> veq (mulv (inverse K) (mulv K v)) v.
Proof.
  vec_split. mat_unfold. intros Hdet. repeat split; field; exact Hdet.
Qed.

Lemma dot_inverse_transpose (K : Mat3) (x y : Vec3) :
  ~ (determinant K == 0)%Q ->
  (dot (mulv K x) (mulv (inverse (transpose K)) y) == dot x y)%Q.
Proof.
  intros Hdet.
  assert (Hdet' : ~ (determinant (transpose K) == 0)%Q)
    by (by rewrite determinant_transpose).
  clear Hdet. vec_split. mat_unfold. field. exact Hdet'.
Qed.

Lemma veq_trans (a b c : Vec3) : veq a b -> veq b c -> veq a c.
Proof.
  intros (H0 & H1 & H2) (H0' & H1' & H2').
  repeat split; etransitivity; eassumption.
Qed.

Lemma mulv_veq (m : Mat3) (v v' : Vec3) : veq v v' -> veq (mulv m v) (mulv m v').
Proof.
  vec_split. mat_unfold. intros (H0 & H1 & H2).
  repeat split; rewrite H0, H1, H2; reflexivity.
Qed.

Lemma mulv_meq (m m' : Mat3) (v : Vec3) : meq m m' -> veq (mulv m v) (mulv m' v).
Proof.
  vec_split. mat_unfold.
  intros ((H0 & H1 & H2) & (H3 & H4 & H5) & (H6 & H7 & H8)).
  repeat split;
    rewrite ?H0, ?H1, ?H2, ?H3, ?H4, ?H5, ?H6, ?H7, ?H8; reflexivity.
Qed.

Lemma dot_veq (a b b' : Vec3) : veq b b' -> (dot a b == dot a b')%Q.
Proof.
  vec_split. mat_unfold. intros (H0 & H1 & H2). rewrite H0, H1, H2. reflexivity.
Qed.

Lemma mulv_I3 (v : Vec3) : veq (mulv I3 v) v.
Proof. vec_split. mat_unfold. repeat split; ring. Qed.

Lemma mulv_vadd (m : Mat3) (a b : Vec3) :
  veq (mulv m (vadd a b)) (vadd (mulv m a) (mulv m b)).
Proof. vec_split. mat_unfold. repeat split; ring. Qed.

Lemma vadd_veq (a a' b : Vec3) : veq a a' -> veq (vadd a b) (vadd a' b).
Proof.
  vec_split. mat_unfold. intros (H0 & H1 & H2).
  repeat split; rewrite ?H0, ?H1, ?H2; reflexivity.
Qed.

(** The relative rotation [R12] takes the coordinates in the second camera
    to those in the first one, up to the relative translation. *)
Lemma relative_rotation (R1 R2 : Mat3) (X t2 : Vec3) :
  meq (mmul (transpose R2) R2) I3 ->
  veq (mulv (mmul R1 (transpose R2)) (vadd (mulv R2 X) t2))
      (vadd (mulv R1 X) (mulv (mmul R1 (transpose R2)) t2)).
Proof.
  intros Horth.
  eapply veq_trans; [apply mulv_vadd|]. apply vadd_veq.
  eapply veq_trans; [apply mulv_mmul|]. apply mulv_veq.
  eapply veq_trans; [|apply mulv_I3].
  eapply veq_trans; [|apply mulv_meq, Horth].
  clear Horth. vec_split. mat_unfold. repeat split; ring.
Qed.

Lemma epipolar_identity (R1 R2 : Mat3) (X t1 t2 : Vec3) :
  (dot (vadd (mulv R1 X) t1)
     (mulv (SkewSymmetricMatrix
              (vadd (mulv (mmul (mneg R1) (transpose R2)) t2) t1))
        (vadd (mulv R1 X) (mulv (mmul R1 (transpose R2)) t2))) == 0)%Q.
Proof. vec_split. mat_unfold. ring. Qed.

(** X1. The matrix [ComputeF12] returns satisfies the epipolar constraint:
    for regular calibration matrices and an orthonormal rotation of the
    second keyframe, the homogeneous pixels [p1] and [p2] of any world
    point in the two keyframes satisfy [p1^T * F12 * p2 = 0]. *)
Theorem ComputeF12_epipolar (K1 K2 : Mat3) (pKF1 pKF2 : KeyFrame.t) (X : Vec3) :
  ~ (determinant K1 == 0)%Q ->
  ~ (determinant K2 == 0)%Q ->
  meq (mmul (transpose (KeyFrame.Rcw pKF2)) (KeyFrame.Rcw pKF2)) I3 ->
  (dot (pixel_of K1 pKF1 X)
     (mulv (ComputeF12 K1 K2 pKF1 pKF2) (pixel_of K2 pKF2 X)) == 0)%Q.
Proof.
  intros HK1 HK2 Horth. unfold ComputeF12, pixel_of, camera_coordinates.
  unfold KeyFrame.GetRotation, KeyFrame.GetTranslation.
  set (R1 := KeyFrame.Rcw pKF1). set (R2 := KeyFrame.Rcw pKF2).
  set (t1 := KeyFrame.tcw pKF1). set (t2 := KeyFrame.tcw pKF2).
  set (S := SkewSymmetricMatrix _).
  set (R12 := mmul R1 (transpose R2)).
  set (c1 := vadd (mulv R1 X) t1). set (c2 := vadd (mulv R2 X) t2).
  assert (Hv : veq (mulv (mmul (mmul (mmul (inverse (transpose K1)) S) R12)
                             (inverse K2)) (mulv K2 c2))
                   (mulv (inverse (transpose K1))
                      (mulv S (vadd (mulv R1 X) (mulv R12 t2))))).
  { eapply veq_trans; [apply mulv_mmul|].
    eapply veq_trans; [apply mulv_mmul|].
    eapply veq_trans; [apply mulv_mmul|].
    do 2 apply mulv_veq.
    eapply veq_trans; [apply mulv_veq, inverse_mulv, HK2|].
    by apply relative_rotation. }
  rewrite (dot_veq _ _ _ Hv), dot_inverse_transpose by exact HK1.
  apply epipolar_identity.
Qed.

Lemma ComputeF12_epipolar_witness :
  (dot (pixel_of scene_K (posed_keyframe 1 I3 (0, 0, 0)%Q) (1, 2, 4)%Q)
     (mulv (ComputeF12 scene_K scene_K (posed_keyframe 1 I3 (0, 0, 0)%Q)
              (posed_keyframe 2 scene_R (1, 0, 0)%Q))
        (pixel_of scene_K (posed_keyframe 2 scene_R (1, 0, 0)%Q) (1, 2, 4)%Q))
   == 0)%Q.
Proof.
  apply ComputeF12_epipolar.
  - vm_compute. discriminate.
  - vm_compute. discriminate.
  - vm_compute. repeat split; reflexivity.
Defined.

(** X2. The matrix of [SkewSymmetricMatrix] acts as the cross product with
    [v]: the image of any [w] is orthogonal to [v] and to [w], [v] itself
    is sent to zero, and transposing the matrix negates it. *)
Theorem SkewSymmetricMatrix_cross (v w : Vec3) :
  (dot v (mulv (SkewSymmetricMatrix v) w) == 0)%Q
  /\ (dot w (mulv (SkewSymmetricMatrix v) w) == 0)%Q
  /\ veq (mulv (SkewSymmetricMatrix v) v) (0, 0, 0)%Q
  /\ meq (transpose (SkewSymmetricMatrix v)) (mneg (SkewSymmetricMatrix v)).
Proof. vec_split. mat_unfold. repeat split; ring. Qed.

Lemma Qinv_of_product (a b : Q) :
  (a * b == 1)%Q -> (b == / a)%Q /\ ~ (a == 0)%Q.
Proof.
  intros H.
  assert (Ha : ~ (a == 0)%Q).
  { intros H0. rewrite H0, Qmult_0_l in H. discriminate. }
  split; [|exact Ha].
  rewrite <- (Qmult_1_l (/ a)), <- H. field. exact Ha.
Qed.

(** X3. The rows that [CreateNewMapPoints] puts in the triangulation matrix
    for a view vanish on the homogeneous coordinates of the world point
    whose projection the keypoint is, so that point spans the null space
    the singular value decomposition looks for. *)
Theorem triangulation_rows_vanish (kf : KeyFrame.t) (kp : KeyPoint) (X : Vec3) :
  let c := camera_coordinates kf X in
  ~ (comp c 2 == 0)%Q ->
  (KeyFrame.fx kf * KeyFrame.invfx kf == 1)%Q ->
  (KeyFrame.fy kf * KeyFrame.invfy kf == 1)%Q ->
  (pt_x kp == KeyFrame.fx kf * comp c 0 * (1 / comp c 2) + KeyFrame.cx kf)%Q ->
  (pt_y kp == KeyFrame.fy kf * comp c 1 * (1 / comp c 2) + KeyFrame.cy kf)%Q ->
  let xn := normalized kf kp in
  (dot4 (scale_sub (comp xn 0) (Tcw_row kf 2) (Tcw_row kf 0)) (homogeneous X)
   == 0)%Q
  /\ (dot4 (scale_sub (comp xn 1) (Tcw_row kf 2) (Tcw_row kf 1)) (homogeneous X)
      == 0)%Q.
Proof.
  cbv zeta. unfold normalized, camera_coordinates, Tcw_row.
  generalize (KeyFrame.Rcw kf) (KeyFrame.tcw kf) (KeyFrame.fx kf)
    (KeyFrame.fy kf) (KeyFrame.cx kf) (KeyFrame.cy kf) (KeyFrame.invfx kf)
    (KeyFrame.invfy kf) (pt_x kp) (pt_y kp).
  intros R t fx fy cx cy invfx invfy px py. vec_split.
  cbv [comp row dot mulv vadd scale_sub dot4 homogeneous].
  intros Hz Hfx Hfy Hx Hy.
  apply Qinv_of_product in Hfx as [-> Hfx], Hfy as [-> Hfy].
  rewrite Hx, Hy. split; field; auto.
Qed.

Lemma triangulation_rows_vanish_witness :
  (dot4 (scale_sub (comp (normalized stereo_view2 (mkKeyPoint (5 # 2) (5 # 4) 0)) 0)
           (Tcw_row stereo_view2 2) (Tcw_row stereo_view2 0))
     (homogeneous scene_point) == 0)%Q
  /\ (dot4 (scale_sub
              (comp (normalized stereo_view2 (mkKeyPoint (5 # 2) (5 # 4) 0)) 1)
              (Tcw_row stereo_view2 2) (Tcw_row stereo_view2 1))
        (homogeneous scene_point) == 0)%Q.
Proof.
  apply (triangulation_rows_vanish stereo_view2 (mkKeyPoint (5 # 2) (5 # 4) 0)
           scene_point).
  - vm_compute. discriminate.
  - vm_compute. reflexivity.
  - vm_compute. reflexivity.
  - vm_compute. reflexivity.
  - vm_compute. reflexivity.
Defined.

(** ** What a triangulated point has passed *)

Lemma Qle_bool_false_lt (x y : Q) : Qle_bool x y = false -> (y < x)%Q.
Proof.
  intros H. apply Qlt_bool_iff. unfold Qlt_bool. by rewrite H.
Qed.



Lemma GatePoint_not_LowParallax (norm : Vec3 -> Q) (kf1 kf2 : KeyFrame.t)
  (kp1 : KeyPoint) (kp1_ur : Q) (kp2 : KeyPoint) (kp2_ur : Q) (x3D : Vec3) :
  GatePoint norm kf1 kf2 kp1 kp1_ur kp2 kp2_ur x3D <> Ok LowParallax.
Proof.
  unfold GatePoint. cbv zeta.
  repeat (match goal with
          | |- context [if ?b then _ else _] => destruct b
          | |- context [at_int ?l ?i] => destruct (at_int l i)
          end; run); discriminate.
Qed.



(** X20. The tests of lines 325 to 399 never read [mbf] of the second
    keyframe: the right-image coordinate of a stereo feature of the second
    keyframe is predicted with [mbf] of the current keyframe (line 374), so
    the outcome for a candidate is the same whatever [mbf] the second
    keyframe has, while it does depend on [mbf] of the current one. *)
Theorem GatePoint_ignores_second_mbf (norm : Vec3 -> Q) (kf1 kf2 : KeyFrame.t)
  (kp1 : KeyPoint) (kp1_ur : Q) (kp2 : KeyPoint) (kp2_ur : Q) (x3D : Vec3) :
  (forall bf,
     GatePoint norm kf1 (KeyFrame_set_mbf bf kf2) kp1 kp1_ur kp2 kp2_ur x3D
     = GatePoint norm kf1 kf2 kp1 kp1_ur kp2 kp2_ur x3D)
  /\ GatePoint unit_norm (KeyFrame_set_mbf 10 stereo_view2) stereo_view2
       (mkKeyPoint (5 # 2) (5 # 4) 0) (-1) (mkKeyPoint (5 # 2) (5 # 4) 0)
       (24 # 10) scene_point
     <> GatePoint unit_norm stereo_view2 stereo_view2
          (mkKeyPoint (5 # 2) (5 # 4) 0) (-1) (mkKeyPoint (5 # 2) (5 # 4) 0)
          (24 # 10) scene_point.
Proof.
  split; [reflexivity|]. vm_compute. discriminate.
Qed.

Lemma Qle_bool_true_of_le (x y : Q) : (x <= y)%Q -> Qle_bool x y = true.
Proof. apply Qle_bool_iff. Qed.

Lemma Qlt_bool_false_of_le (x y : Q) : (y <= x)%Q -> Qlt_bool x y = false.
Proof. apply Qlt_bool_false_iff. Qed.

Lemma Qlt_bool_true_of_lt (x y : Q) : (x < y)%Q -> Qlt_bool x y = true.
Proof. apply Qlt_bool_iff. Qed.



(** ** Triangulation only adds to the graph *)

Lemma KeyFrame_AddMapPoint_frame (pMP : mpptr) (idx : nat) (k : kfptr)
  (w w' : World) :
  KeyFrame_AddMapPoint pMP idx k w = Ok w' ->
  mappoints w' = mappoints w /\ mpMap w' = mpMap w
  /\ forall k', KeyFrame.mnId <$> keyframes w' !! k'
                = KeyFrame.mnId <$> keyframes w !! k'.
Proof.
  intros H. apply KeyFrame_AddMapPoint_Ok in H as (kf & Hk & Hi & ->).
  repeat split. intros k'. rewrite lookup_upd_keyframe.
  case_decide; [|done]. by destruct (keyframes w !! k').
Qed.

(** Lines 402 to 415 allocate one object and touch no other point. *)
Lemma RegisterNewMapPoint_frame (cur pKF2 : kfptr) (idx1 idx2 : nat)
  (s s' : Sys) :
  RegisterNewMapPoint cur pKF2 idx1 idx2 s = Ok s' ->
  let pMP := fresh (dom (mappoints (world s))) in
  exists kf1 mp,
    keyframes (world s) !! cur = Some kf1
    /\ mappoints (world s) !! pMP = None
    /\ mappoints (world s') = <[pMP := mp]> (mappoints (world s))
    /\ MapPoint.mbBad mp = false
    /\ MapPoint.mnFirstKFid mp = KeyFrame.mnId kf1
    /\ MapPoint.mObservations mp !! cur = Some idx1
    /\ lm s' = set_mlpRecentAddedMapPoints
                 (mlpRecentAddedMapPoints (lm s) ++ [pMP]) (lm s)
    /\ mspMapPoints (mpMap (world s'))
       = {[pMP]} ∪ mspMapPoints (mpMap (world s))
    /\ mspKeyFrames (mpMap (world s')) = mspKeyFrames (mpMap (world s))
    /\ forall k, KeyFrame.mnId <$> keyframes (world s') !! k
                 = KeyFrame.mnId <$> keyframes (world s) !! k.
Proof.
  intros H pMP. unfold RegisterNewMapPoint in H. fold pMP in H.
  destruct (keyframes (world s) !! cur) as [kf1|] eqn:Hkf1; [|discriminate].
  cbn [deref mbind result_bind] in H.
  match type of H with
  | context [KeyFrame_AddMapPoint pMP idx1 cur ?w] => set (w2 := w) in H
  end.
  destruct (KeyFrame_AddMapPoint pMP idx1 cur w2) as [w3| |] eqn:H3;
    try discriminate.
  cbn [mbind result_bind] in H.
  destruct (KeyFrame_AddMapPoint pMP idx2 pKF2 w3) as [w4| |] eqn:H4;
    try discriminate.
  cbn [mbind result_bind] in H. injection H as <-.
  apply KeyFrame_AddMapPoint_frame in H3 as (Hp3 & Hm3 & Hid3).
  apply KeyFrame_AddMapPoint_frame in H4 as (Hp4 & Hm4 & Hid4).
  exists kf1, (MapPoint.AddObservation pKF2 idx2
                 (MapPoint.AddObservation cur idx1
                    (MapPoint.new (KeyFrame.mnId kf1)))).
  split; [done|].
  split; [apply not_elem_of_dom, is_fresh|].
  split.
  { cbn [world mappoints Map_AddMapPoint]. rewrite Hp4, Hp3. subst w2.
    cbn [mappoints upd_mappoint]. by rewrite !alter_insert_eq. }
  split; [by rewrite !AddObservation_bad|].
  split.
  { unfold MapPoint.AddObservation.
    repeat (match goal with
            | |- context [match ?x with _ => _ end] => destruct x
            end; cbn); done. }
  split.
  { assert (Hfirst : MapPoint.mObservations
                       (MapPoint.AddObservation cur idx1
                          (MapPoint.new (KeyFrame.mnId kf1))) !! cur
                     = Some idx1).
    { rewrite AddObservation_lookup. cbn.
      by rewrite lookup_empty, decide_True. }
    rewrite AddObservation_lookup.
    destruct (decide (pKF2 = cur)) as [->|]; [by rewrite Hfirst|].
    by destruct (_ !! pKF2). }
  split; [done|].
  cbn [world mpMap Map_AddMapPoint mspMapPoints mspKeyFrames].
  rewrite Hm4, Hm3. split; [done|]. split; [done|].
  intros k. by rewrite Hid4, Hid3.
Qed.

(** X6. Triangulating the matches of one neighbour only adds to the
    graph: every map point that existed is left as it was, and each point
    created is a fresh object, not bad, first seen by the current keyframe
    and observed by it, appended to the recent-added list and added to the
    map; no more points are created than there are matches. *)
Theorem CreateNewMapPoints_matches_adds_fresh (norm : Vec3 -> Q)
  (SVD_vt_row3 : Vec4 -> Vec4 -> Vec4 -> Vec4 -> Vec4)
  (UnprojectStereo : KeyFrame.t -> nat -> Vec3) (cur pKF2 : kfptr)
  (vMatchedIndices : list (nat * nat)) (s s' : Sys) :
  CreateNewMapPoints_matches norm SVD_vt_row3 UnprojectStereo cur pKF2
    vMatchedIndices s = Ok s' ->
  exists created : list mpptr,
    lm s' = set_mlpRecentAddedMapPoints
              (mlpRecentAddedMapPoints (lm s) ++ created) (lm s)
    /\ NoDup created
    /\ (length created <= length vMatchedIndices)%nat
    /\ mspMapPoints (mpMap (world s'))
       = list_to_set created ∪ mspMapPoints (mpMap (world s))
    /\ mspKeyFrames (mpMap (world s')) = mspKeyFrames (mpMap (world s))
    /\ (forall p mp, mappoints (world s) !! p = Some mp ->
          mappoints (world s') !! p = Some mp)
    /\ (forall p, p ∈ created ->
          mappoints (world s) !! p = None
          /\ exists mp kf,
               mappoints (world s') !! p = Some mp
               /\ keyframes (world s) !! cur = Some kf
               /\ MapPoint.mbBad mp = false
               /\ MapPoint.mnFirstKFid mp = KeyFrame.mnId kf
               /\ is_Some (MapPoint.mObservations mp !! cur)).
Proof.
  revert s s'.
  induction vMatchedIndices as [|[idx1 idx2] rest IH]; intros s s' H.
  { cbn in H. injection H as <-. exists [].
    split; [rewrite app_nil_r; destruct s as [[] ?]; reflexivity|].
    split; [apply NoDup_nil_2|]. split; [done|].
    split; [cbn; by rewrite (left_id_L ∅ (∪))|].
    split; [done|]. split; [done|].
    intros p Hp. by apply elem_of_nil in Hp. }
  assert (Hskip :
    CreateNewMapPoints_matches norm SVD_vt_row3 UnprojectStereo cur pKF2 rest s
    = Ok s' ->
    exists created : list mpptr,
      lm s' = set_mlpRecentAddedMapPoints
                (mlpRecentAddedMapPoints (lm s) ++ created) (lm s)
      /\ NoDup created
      /\ (length created <= length ((idx1, idx2) :: rest))%nat
      /\ mspMapPoints (mpMap (world s'))
         = list_to_set created ∪ mspMapPoints (mpMap (world s))
      /\ mspKeyFrames (mpMap (world s')) = mspKeyFrames (mpMap (world s))
      /\ (forall p mp, mappoints (world s) !! p = Some mp ->
            mappoints (world s') !! p = Some mp)
      /\ (forall p, p ∈ created ->
            mappoints (world s) !! p = None
            /\ exists mp kf,
                 mappoints (world s') !! p = Some mp
                 /\ keyframes (world s) !! cur = Some kf
                 /\ MapPoint.mbBad mp = false
                 /\ MapPoint.mnFirstKFid mp = KeyFrame.mnId kf
                 /\ is_Some (MapPoint.mObservations mp !! cur))).
  { intros H'. destruct (IH _ _ H') as (created & ? & ? & ? & ? & ? & ? & ?).
    exists created. split; [done|]. split; [done|].
    split; [cbn [length]; lia|]. done. }
  cbn [CreateNewMapPoints_matches] in H.
  destruct (keyframes (world s) !! cur) as [kf1|] eqn:Hk1; [|discriminate].
  destruct (keyframes (world s) !! pKF2) as [kf2|]; [|discriminate].
  run_in H.
  destruct (TriangulatePair _ _ _ kf1 kf2 idx1 idx2) as [out| |];
    try discriminate.
  run_in H.
  destruct out; try (by apply Hskip). clear Hskip.
  destruct (RegisterNewMapPoint cur pKF2 idx1 idx2 s) as [s1| |] eqn:Hreg;
    try discriminate.
  run_in H.
  apply RegisterNewMapPoint_frame in Hreg
    as (kf1' & mp0 & Hk1' & Hfresh & Hpts & Hbad & Hfirst & Hobs & Hlm & Hmap
        & Hkfs & Hids).
  assert (kf1' = kf1) as -> by congruence.
  set (pMP := fresh (dom (mappoints (world s)))) in *.
  destruct (IH _ _ H) as (created & Hlm' & Hnd & Hlen & Hmap' & Hkfs' & Hkeep
                          & Hnew).
  assert (Hp0 : mappoints (world s') !! pMP = Some mp0).
  { apply Hkeep. by rewrite Hpts, lookup_insert_eq. }
  exists (pMP :: created).
  split; [rewrite Hlm', Hlm; cbn; by rewrite <- app_assoc|].
  split.
  { constructor; [|done]. intros Hin. apply Hnew in Hin as [Hnone _].
    by rewrite Hpts, lookup_insert_eq in Hnone. }
  split; [cbn [length]; lia|].
  split.
  { rewrite Hmap', Hmap. cbn [list_to_set].
    by rewrite !(assoc_L (∪)), (comm_L (∪) {[pMP]}). }
  split; [by rewrite Hkfs', Hkfs|].
  split.
  { intros p mp Hp. apply Hkeep. rewrite Hpts.
    rewrite lookup_insert_ne; [done|]. intros <-. congruence. }
  intros p [->|Hin]%elem_of_cons.
  - split; [done|]. exists mp0, kf1. by rewrite Hobs.
  - apply Hnew in Hin as (Hnone & mp & kf & Hp & Hk & ? & Hf & ?).
    split.
    { rewrite Hpts in Hnone. by apply lookup_insert_None in Hnone as [? _]. }
    exists mp, kf1. repeat split; try done.
    rewrite Hf. specialize (Hids cur). rewrite Hk, Hk1 in Hids.
    by injection Hids.
Qed.

Lemma CreateNewMapPoints_matches_adds_fresh_witness :
  exists s' created,
    CreateNewMapPoints_matches unit_norm scene_svd point_unproject 1 2
      [(0, 0)]%nat pair_scene = Ok s'
    /\ created = [0%nat]
    /\ lm s' = set_mlpRecentAddedMapPoints
                 (mlpRecentAddedMapPoints (lm pair_scene) ++ created)
                 (lm pair_scene)
    /\ mspMapPoints (mpMap (world s'))
       = list_to_set created ∪ mspMapPoints (mpMap (world pair_scene)).
Proof.
  destruct (CreateNewMapPoints_matches unit_norm scene_svd point_unproject 1 2
              [(0, 0)]%nat pair_scene) as [s'| |] eqn:Hrun;
    [|by vm_compute in Hrun..].
  destruct (CreateNewMapPoints_matches_adds_fresh _ _ _ _ _ _ _ _ Hrun)
    as (created & Hlm & _ & _ & Hmap & _).
  exists s', created. repeat split; try done.
  vm_compute in Hrun. injection Hrun as <-.
  vm_compute in Hlm. injection Hlm as Hc%(inj (app [])). done.
Defined.

(** ** Map-point culling in closed form *)

Lemma lookup_upd_mappoint_eq (w : World) (p : mpptr)
  (f : MapPoint.t -> MapPoint.t) :
  mappoints (upd_mappoint p f w) !! p = f <$> mappoints w !! p.
Proof. apply lookup_alter_eq. Qed.

Lemma lookup_upd_mappoint_ne (w : World) (p q : mpptr)
  (f : MapPoint.t -> MapPoint.t) :
  p <> q -> mappoints (upd_mappoint p f w) !! q = mappoints w !! q.
Proof. apply lookup_alter_ne. Qed.

Lemma MapPointCulling_loop_step (N th : Z) (w : World) (p : mpptr)
  (rest : list mpptr) (mp : MapPoint.t) :
  mappoints w !! p = Some mp ->
  MapPointCulling_loop N th w (p :: rest)
  = if MapPointCulling_culls N th mp
    then MapPointCulling_loop N th (upd_mappoint p MapPoint.SetBadFlag w) rest
    else if MapPointCulling_stays N th mp
    then '(w', kept) ← MapPointCulling_loop N th w rest; Ok (w', p :: kept)
    else MapPointCulling_loop N th w rest.
Proof.
  intros Hp. cbn [MapPointCulling_loop]. rewrite Hp. run.
  unfold MapPointCulling_culls, MapPointCulling_stays, MapPointCulling_age.
  destruct (MapPoint.isBad mp); [done|].
  destruct (Qlt_bool (MapPoint.GetFoundRatio mp) (1 # 4)); [done|].
  cbn [negb andb orb].
  destruct ((2 <=? _) && (_ <=? th)); [done|]. cbn [negb andb].
  by destruct (3 <=? _).
Qed.

Lemma culls_not_stays (N th : Z) (mp : MapPoint.t) :
  MapPointCulling_culls N th mp = true -> MapPointCulling_stays N th mp = false.
Proof.
  unfold MapPointCulling_culls, MapPointCulling_stays.
  destruct (MapPoint.isBad mp); [done|].
  destruct (Qlt_bool _ _); [done|]. cbn [negb andb orb]. by intros ->.
Qed.

Lemma culls_SetBadFlag (N th : Z) (mp : MapPoint.t) :
  MapPointCulling_culls N th (MapPoint.SetBadFlag mp) = false
  /\ MapPointCulling_stays N th (MapPoint.SetBadFlag mp) = false.
Proof. done. Qed.

Lemma culled_in_SetBadFlag (N th : Z) (w : World) (p : mpptr) :
  culled_in N th (upd_mappoint p MapPoint.SetBadFlag w) p = false.
Proof.
  unfold culled_in. rewrite lookup_upd_mappoint_eq.
  by destruct (mappoints w !! p).
Qed.

Lemma culled_in_upd_ne (N th : Z) (w : World) (p q : mpptr)
  (f : MapPoint.t -> MapPoint.t) :
  p <> q -> culled_in N th (upd_mappoint p f w) q = culled_in N th w q.
Proof. intros Hne. unfold culled_in. by rewrite lookup_upd_mappoint_ne. Qed.

Lemma MapPointCulling_loop_closed (N th : Z) (l : list mpptr) :
  forall w w' kept,
  MapPointCulling_loop N th w l = Ok (w', kept) ->
  kept = List.filter (stays_in N th w) l
  /\ keyframes w' = keyframes w
  /\ mpMap w' = mpMap w
  /\ forall p, mappoints w' !! p
               = if decide (p ∈ l /\ culled_in N th w p = true)
                 then MapPoint.SetBadFlag <$> mappoints w !! p
                 else mappoints w !! p.
Proof.
  induction l as [|p0 rest IH]; intros w w' kept H.
  { cbn in H. injection H as <- <-. by repeat split. }
  destruct (mappoints w !! p0) as [mp0|] eqn:Hp0;
    [|cbn in H; rewrite Hp0 in H; discriminate].
  rewrite (MapPointCulling_loop_step _ _ _ _ _ _ Hp0) in H.
  assert (Hstay0 : stays_in N th w p0 = MapPointCulling_stays N th mp0)
    by (unfold stays_in; by rewrite Hp0).
  assert (Hcull0 : culled_in N th w p0 = MapPointCulling_culls N th mp0)
    by (unfold culled_in; by rewrite Hp0).
  cbn [List.filter]. rewrite Hstay0.
  destruct (MapPointCulling_culls N th mp0) eqn:Hc.
  - rewrite (culls_not_stays _ _ _ Hc).
    apply IH in H as (-> & Hk & Hm & Hpts).
    split.
    { apply filter_ext_in. intros p Hin. unfold stays_in.
      destruct (decide (p0 = p)) as [<-|Hne].
      - rewrite lookup_upd_mappoint_eq, Hp0. cbn.
        by rewrite (culls_not_stays _ _ _ Hc).
      - by rewrite lookup_upd_mappoint_ne. }
    split; [done|]. split; [done|].
    intros p. rewrite Hpts.
    destruct (decide (p0 = p)) as [<-|Hne].
    + rewrite culled_in_SetBadFlag, lookup_upd_mappoint_eq.
      rewrite (decide_False (P := _ /\ _ = true)) by (by intros [_ ?]).
      rewrite decide_True; [done|]. split; [apply elem_of_cons; by left|].
      by rewrite Hcull0.
    + rewrite (culled_in_upd_ne _ _ _ _ _ _ Hne).
      rewrite (lookup_upd_mappoint_ne _ _ _ _ Hne).
      destruct (decide (p ∈ rest /\ culled_in N th w p = true)) as [[? ?]|Hn].
      * rewrite decide_True; [done|]. split; [apply elem_of_cons; by right|done].
      * rewrite decide_False; [done|]. intros [Hin ?]. apply Hn.
        apply elem_of_cons in Hin as [->|?]; done.
  - assert (Hrest : forall w' kept,
              MapPointCulling_loop N th w rest = Ok (w', kept) ->
              kept = List.filter (stays_in N th w) rest
              /\ keyframes w' = keyframes w /\ mpMap w' = mpMap w
              /\ forall p, mappoints w' !! p
                   = if decide (p ∈ p0 :: rest /\ culled_in N th w p = true)
                     then MapPoint.SetBadFlag <$> mappoints w !! p
                     else mappoints w !! p).
    { intros w1 kept1 H1. apply IH in H1 as (-> & Hk & Hm & Hpts).
      repeat split; try done. intros p. rewrite Hpts.
      destruct (decide (p ∈ rest /\ culled_in N th w p = true)) as [[? ?]|Hn].
      * rewrite decide_True; [done|]. split; [apply elem_of_cons; by right|done].
      * rewrite decide_False; [done|]. intros [Hin Hcp]. apply Hn.
        apply elem_of_cons in Hin as [->|?]; [congruence|done]. }
    destruct (MapPointCulling_stays N th mp0).
    + destruct (MapPointCulling_loop N th w rest) as [[w1 kept1]| |] eqn:H1;
        try discriminate.
      cbn in H. injection H as <- <-.
      destruct (Hrest _ _ eq_refl) as (-> & ? & ? & ?). done.
    + by apply Hrest.
Qed.

Lemma stays_not_culls (N th : Z) (mp : MapPoint.t) :
  MapPointCulling_stays N th mp = true -> MapPointCulling_culls N th mp = false.
Proof.
  intros Hs. destruct (MapPointCulling_culls N th mp) eqn:Hc; [|done].
  apply culls_not_stays in Hc. congruence.
Qed.

Lemma MapPointCulling_loop_fixed (N th : Z) (w : World) (l : list mpptr) :
  (forall p, p ∈ l -> stays_in N th w p = true) ->
  MapPointCulling_loop N th w l = Ok (w, l).
Proof.
  induction l as [|p0 rest IH]; intros Hall; [done|].
  assert (Hs : stays_in N th w p0 = true)
    by (apply Hall, elem_of_cons; by left).
  unfold stays_in in Hs.
  destruct (mappoints w !! p0) as [mp0|] eqn:Hp0; [|discriminate].
  cbn in Hs. rewrite (MapPointCulling_loop_step _ _ _ _ _ _ Hp0).
  rewrite (stays_not_culls _ _ _ Hs), Hs, IH; [done|].
  intros p Hin. apply Hall, elem_of_cons. by right.
Qed.

(** X7. The recent-added list after [MapPointCulling] is the list before
    with the points removed that do not pass the tests of lines 175 to
    183 in the state they had on entry, in the same order; a point is
    marked bad exactly when it is listed, not bad and fails the found-ratio
    or the observation test, and nothing else in the graph changes.  The
    order of the list and repeated entries have no influence. *)
Theorem MapPointCulling_closed_form (s s' : Sys) (cur : kfptr)
  (kf : KeyFrame.t) :
  mpCurrentKeyFrame (lm s) = Some cur ->
  keyframes (world s) !! cur = Some kf ->
  MapPointCulling s = Ok s' ->
  let N := KeyFrame.mnId kf in
  let th := if mbMonocular (lm s) then 2 else 3 in
  let recent := mlpRecentAddedMapPoints (lm s) in
  lm s' = set_mlpRecentAddedMapPoints
            (List.filter (stays_in N th (world s)) recent) (lm s)
  /\ keyframes (world s') = keyframes (world s)
  /\ mpMap (world s') = mpMap (world s)
  /\ forall p, mappoints (world s') !! p
               = if decide (p ∈ recent /\ culled_in N th (world s) p = true)
                 then MapPoint.SetBadFlag <$> mappoints (world s) !! p
                 else mappoints (world s) !! p.
Proof.
  intros Hcur Hkf H. unfold MapPointCulling in H. rewrite Hcur in H.
  run_in H. rewrite Hkf in H. run_in H.
  destruct (MapPointCulling_loop _ _ _ _) as [[w l]| |] eqn:Hloop;
    try discriminate.
  cbn in H. injection H as <-.
  apply MapPointCulling_loop_closed in Hloop as (-> & ? & ? & ?).
  by repeat split.
Qed.

Lemma MapPointCulling_closed_form_witness :
  exists s',
    MapPointCulling (culling_scene false) = Ok s'
    /\ mlpRecentAddedMapPoints (lm s') = [2%nat]
    /\ mappoints (world s') !! 3%nat
       = MapPoint.SetBadFlag <$> mappoints (world (culling_scene false)) !! 3%nat
    /\ mappoints (world s') !! 4%nat
       = mappoints (world (culling_scene false)) !! 4%nat.
Proof.
  destruct (MapPointCulling (culling_scene false)) as [s'| |] eqn:Hrun;
    [|by vm_compute in Hrun..].
  destruct (MapPointCulling_closed_form (culling_scene false) s' 5%nat
              (scene_keyframe 5 0 [] [] [] []) eq_refl eq_refl Hrun)
    as (Hlm & _ & _ & Hpts).
  exists s'. split; [done|]. split; [by rewrite Hlm|].
  split; [by rewrite (Hpts 3%nat)|by rewrite (Hpts 4%nat)].
Defined.

(** X8. [MapPointCulling] is idempotent: run again on its result with
    the same current keyframe, it returns that result unchanged. *)
Theorem MapPointCulling_idempotent (s s' : Sys) :
  MapPointCulling s = Ok s' -> MapPointCulling s' = Ok s'.
Proof.
  intros H. unfold MapPointCulling in H.
  destruct (mpCurrentKeyFrame (lm s)) as [cur|] eqn:Hcur; [|discriminate].
  run_in H.
  destruct (keyframes (world s) !! cur) as [kf|] eqn:Hkf; [|discriminate].
  run_in H.
  destruct (MapPointCulling_loop _ _ _ _) as [[w l]| |] eqn:Hloop;
    try discriminate.
  cbn in H. injection H as <-.
  apply MapPointCulling_loop_closed in Hloop as (-> & Hk & Hm & Hpts).
  unfold MapPointCulling. cbn [lm world mpCurrentKeyFrame
    set_mlpRecentAddedMapPoints mbMonocular mlpRecentAddedMapPoints].
  rewrite Hcur. run. rewrite Hk, Hkf. run.
  rewrite MapPointCulling_loop_fixed; [done|].
  intros p Hin. apply list_elem_of_In, filter_In in Hin as [Hin Hs].
  rewrite <- Hs. unfold stays_in. rewrite Hpts.
  rewrite decide_False; [done|]. intros [_ Hc].
  unfold stays_in, culled_in in *.
  destruct (mappoints (world s) !! p) as [mp|]; [|discriminate].
  cbn in *. apply stays_not_culls in Hs. congruence.
Qed.

Lemma MapPointCulling_idempotent_witness :
  exists s',
    MapPointCulling (culling_scene false) = Ok s'
    /\ MapPointCulling s' = Ok s'.
Proof.
  destruct (MapPointCulling (culling_scene false)) as [s'| |] eqn:Hrun;
    [|by vm_compute in Hrun..].
  exists s'. split; [done|].
  exact (MapPointCulling_idempotent (culling_scene false) s' Hrun).
Defined.

(** ** Taking a keyframe from the queue *)

Lemma upd_mappoint_is_Some (w : World) (p q : mpptr)
  (f : MapPoint.t -> MapPoint.t) :
  is_Some (mappoints (upd_mappoint p f w) !! q) <-> is_Some (mappoints w !! q).
Proof. apply lookup_alter_is_Some. Qed.

Lemma ProcessNewKeyFrame_loop_defined (cur : kfptr)
  (slots : list (option mpptr)) :
  forall i w recent,
  ProcessNewKeyFrame_loop cur i slots w recent <> OutOfFuel
  /\ ((exists r, ProcessNewKeyFrame_loop cur i slots w recent = Ok r)
      <-> forall p, Some p ∈ slots -> is_Some (mappoints w !! p)).
Proof.
  induction slots as [|[p0|] rest IH]; intros i w recent.
  - split; [done|]. split; [|by eexists].
    intros _ p Hin. by apply elem_of_nil in Hin.
  - cbn [ProcessNewKeyFrame_loop].
    destruct (mappoints w !! p0) as [mp0|] eqn:Hp0; run.
    + assert (Hiff : forall w1,
                (forall q, is_Some (mappoints w1 !! q)
                           <-> is_Some (mappoints w !! q)) ->
                (forall p : mpptr, Some p ∈ rest -> is_Some (mappoints w1 !! p))
                <-> (forall p : mpptr, Some p ∈ Some p0 :: rest ->
                       is_Some (mappoints w !! p))).
      { intros w1 Hw1. split.
        - intros Hall p [[= ->]|Hin]%elem_of_cons; [by rewrite Hp0|].
          by apply Hw1, Hall.
        - intros Hall p Hin. apply Hw1, Hall, elem_of_cons. by right. }
      destruct (MapPoint.isBad mp0); [|destruct (MapPoint.IsInKeyFrame cur mp0)].
      * destruct (IH (S i) w recent) as [Hfuel Hok].
        split; [done|]. rewrite Hok. by apply Hiff.
      * destruct (IH (S i) w (recent ++ [p0])) as [Hfuel Hok].
        split; [done|]. rewrite Hok. by apply Hiff.
      * destruct (IH (S i)
                    (upd_mappoint p0 (MapPoint.AddObservation cur i) w) recent)
          as [Hfuel Hok].
        split; [done|]. rewrite Hok. apply Hiff. intros q.
        apply upd_mappoint_is_Some.
    + split; [done|]. split; [by intros [r ?]|].
      intros Hall. exfalso.
      assert (Hs : is_Some (mappoints w !! p0))
        by (apply Hall, elem_of_cons; by left).
      rewrite Hp0 in Hs. by destruct Hs.
  - cbn [ProcessNewKeyFrame_loop].
    destruct (IH (S i) w recent) as [Hfuel Hok]. split; [done|].
    rewrite Hok. split.
    + intros Hall p [[=]|Hin]%elem_of_cons. by apply Hall.
    + intros Hall p Hin. apply Hall, elem_of_cons. by right.
Qed.


Lemma AddObservation_observes (k : kfptr) (i : nat) (mp : MapPoint.t) :
  is_Some (MapPoint.mObservations (MapPoint.AddObservation k i mp) !! k).
Proof.
  rewrite AddObservation_lookup.
  destruct (MapPoint.mObservations mp !! k); [done|].
  by rewrite decide_True.
Qed.

Lemma IsInKeyFrame_false (k : kfptr) (mp : MapPoint.t) :
  MapPoint.IsInKeyFrame k mp = false -> MapPoint.mObservations mp !! k = None.
Proof.
  unfold MapPoint.IsInKeyFrame. intros H%bool_decide_eq_false.
  by apply eq_None_not_Some.
Qed.

Lemma IsInKeyFrame_true (k : kfptr) (mp : MapPoint.t) :
  MapPoint.IsInKeyFrame k mp = true -> is_Some (MapPoint.mObservations mp !! k).
Proof. unfold MapPoint.IsInKeyFrame. by intros H%bool_decide_eq_true. Qed.

(** What the loop of lines 139 to 152 does to the graph and to the list,
    when it is about to look at slot [i] and [slots] are the slots from
    there on. *)
Lemma ProcessNewKeyFrame_loop_effect (cur : kfptr)
  (slots0 slots : list (option mpptr)) :
  forall i w recent w' recent',
  (forall j, slots !! j = slots0 !! (i + j)%nat) ->
  ProcessNewKeyFrame_loop cur i slots w recent = Ok (w', recent') ->
  keyframes w' = keyframes w
  /\ mpMap w' = mpMap w
  /\ (exists added,
        recent' = recent ++ added
        /\ forall p, p ∈ added ->
             Some p ∈ slots
             /\ exists mp, mappoints w' !! p = Some mp
                           /\ MapPoint.mbBad mp = false
                           /\ is_Some (MapPoint.mObservations mp !! cur))
  /\ (forall p,
        mappoints w' !! p = mappoints w !! p
        \/ exists mp j,
             mappoints w !! p = Some mp
             /\ MapPoint.mbBad mp = false
             /\ MapPoint.mObservations mp !! cur = None
             /\ slots0 !! j = Some (Some p)
             /\ mappoints w' !! p = Some (MapPoint.AddObservation cur j mp))
  /\ (forall p mp',
        Some p ∈ slots ->
        mappoints w' !! p = Some mp' ->
        MapPoint.mbBad mp' = false ->
        is_Some (MapPoint.mObservations mp' !! cur)).
Proof.
  induction slots as [|[p0|] rest IH]; intros i w recent w' recent' Hdrop H.
  - cbn in H. injection H as <- <-. split; [done|]. split; [done|].
    split; [exists []; split; [by rewrite app_nil_r|]|split].
    + intros p Hin. by apply elem_of_nil in Hin.
    + intros p. by left.
    + intros p mp' Hin. by apply elem_of_nil in Hin.
  - assert (Hnext : forall j, rest !! j = slots0 !! (S i + j)%nat).
    { intros j. replace (S i + j)%nat with (i + S j)%nat by lia.
      exact (Hdrop (S j)). }
    assert (Hi : slots0 !! i = Some (Some p0)).
    { rewrite <- (Nat.add_0_r i). symmetry. exact (Hdrop 0%nat). }
    cbn [ProcessNewKeyFrame_loop] in H.
    destruct (mappoints w !! p0) as [mp0|] eqn:Hp0; [|discriminate].
    run_in H.
    destruct (MapPoint.isBad mp0) eqn:Hbad0;
      [|destruct (MapPoint.IsInKeyFrame cur mp0) eqn:Hin0].
    + (* a bad point is passed over *)
      destruct (IH _ _ _ _ _ Hnext H)
        as (Hk & Hm & (added & -> & Hadded) & Hpts & Hobs).
      split; [done|]. split; [done|]. split; [|split; [done|]].
      * exists added. split; [done|]. intros p Hin.
        destruct (Hadded p Hin) as [? ?]. split; [|done].
        apply elem_of_cons. by right.
      * intros p mp' [[= ->]|Hin]%elem_of_cons Hp' Hb'; [|by eapply Hobs].
        exfalso. destruct (Hpts p0) as [Heq|(mp & j & Hp & Hb & _)].
        -- rewrite Heq, Hp0 in Hp'. injection Hp' as <-.
           unfold MapPoint.isBad in Hbad0. congruence.
        -- rewrite Hp0 in Hp. injection Hp as <-.
           unfold MapPoint.isBad in Hbad0. congruence.
    + (* the point already observes the keyframe: it joins the list *)
      destruct (IH _ _ _ _ _ Hnext H)
        as (Hk & Hm & (added & -> & Hadded) & Hpts & Hobs).
      assert (Hstay : mappoints w' !! p0 = Some mp0).
      { destruct (Hpts p0) as [Heq|(mp & j & Hp & _ & Hnone & _)];
          [by rewrite Heq|].
        rewrite Hp0 in Hp. injection Hp as <-.
        apply IsInKeyFrame_true in Hin0. rewrite Hnone in Hin0.
        by destruct Hin0. }
      split; [done|]. split; [done|]. split; [|split; [done|]].
      * exists (p0 :: added). split; [by rewrite <- app_assoc|].
        intros p [->|Hin]%elem_of_cons.
        -- split; [apply elem_of_cons; by left|]. exists mp0.
           split; [done|]. split; [done|]. by apply IsInKeyFrame_true.
        -- destruct (Hadded p Hin) as [? ?]. split; [|done].
           apply elem_of_cons. by right.
      * intros p mp' [[= ->]|Hin]%elem_of_cons Hp' Hb'; [|by eapply Hobs].
        rewrite Hstay in Hp'. injection Hp' as <-.
        by apply IsInKeyFrame_true.
    + (* the keyframe is registered as an observer *)
      destruct (IH _ _ _ _ _ Hnext H)
        as (Hk & Hm & (added & -> & Hadded) & Hpts & Hobs).
      assert (Hnew : mappoints w' !! p0
                     = Some (MapPoint.AddObservation cur i mp0)).
      { destruct (Hpts p0) as [Heq|(mp & j & Hp & _ & Hnone & _)].
        - by rewrite Heq, lookup_upd_mappoint_eq, Hp0.
        - rewrite lookup_upd_mappoint_eq, Hp0 in Hp. injection Hp as <-.
          pose proof (AddObservation_observes cur i mp0) as Hs.
          rewrite Hnone in Hs. by destruct Hs. }
      split; [done|]. split; [done|]. split; [|split].
      * exists added. split; [done|]. intros p Hin.
        destruct (Hadded p Hin) as [? ?]. split; [|done].
        apply elem_of_cons. by right.
      * intros p. destruct (decide (p0 = p)) as [<-|Hne].
        -- right. exists mp0, i. split; [done|]. split; [done|].
           split; [by apply IsInKeyFrame_false|]. done.
        -- destruct (Hpts p) as [Heq|(mp & j & Hp & Hrest)].
           ++ left. by rewrite Heq, lookup_upd_mappoint_ne.
           ++ right. exists mp, j.
              by rewrite lookup_upd_mappoint_ne in Hp.
      * intros p mp' [[= ->]|Hin]%elem_of_cons Hp' Hb'; [|by eapply Hobs].
        rewrite Hnew in Hp'. injection Hp' as <-.
        apply AddObservation_observes.
  - assert (Hnext : forall j, rest !! j = slots0 !! (S i + j)%nat).
    { intros j. replace (S i + j)%nat with (i + S j)%nat by lia.
      exact (Hdrop (S j)). }
    cbn [ProcessNewKeyFrame_loop] in H.
    destruct (IH _ _ _ _ _ Hnext H)
      as (Hk & Hm & (added & -> & Hadded) & Hpts & Hobs).
    split; [done|]. split; [done|]. split; [|split; [done|]].
    + exists added. split; [done|]. intros p Hin.
      destruct (Hadded p Hin) as [? ?]. split; [|done].
      apply elem_of_cons. by right.
    + intros p mp' [[=]|Hin]%elem_of_cons Hp' Hb'. by eapply Hobs.
Qed.



(** ** Keyframe culling needs well-observed points *)

Lemma KeyFrameCulling_slot_bound (w : World) (mono : bool) (pKF : kfptr)
  (kf : KeyFrame.t) (i : nat) (slot : option mpptr) (nRed nMPs nRed' nMPs' : Z) :
  KeyFrameCulling_slot w mono pKF kf i slot (nRed, nMPs) = Ok (nRed', nMPs') ->
  nMPs <= nMPs'
  /\ nRed <= nRed'
  /\ ((forall p mp, slot = Some p -> mappoints w !! p = Some mp ->
         MapPoint.mbBad mp = false -> MapPoint.Observations mp <= 3) ->
      nRed' = nRed).
Proof.
  unfold KeyFrameCulling_slot. intros H.
  destruct slot as [p|]; [|injection H as <- <-; lia].
  destruct (mappoints w !! p) as [mp|] eqn:Hp; [|discriminate]. run_in H.
  destruct (MapPoint.isBad mp) eqn:Hbad; [injection H as <- <-; lia|].
  match type of H with
  | context [mbind _ ?m] => destruct m as [[|]| |] eqn:Hfar
  end; run_in H; try discriminate.
  { injection H as <- <-. lia. }
  destruct (3 <? MapPoint.Observations mp) eqn:Hobs.
  - destruct (KeyFrame.mvKeysUn kf !! i) as [kp|]; [|discriminate]. run_in H.
    destruct (KeyFrameCulling_observers _ _ _ _ _ _) as [nObs| |];
      try discriminate.
    run_in H. injection H as <- <-.
    split; [lia|]. split; [destruct (3 <=? nObs); lia|].
    intros Hall. specialize (Hall p mp eq_refl Hp Hbad).
    apply Z.ltb_lt in Hobs. lia.
  - injection H as <- <-. lia.
Qed.

Lemma KeyFrameCulling_slots_bound (w : World) (mono : bool) (pKF : kfptr)
  (kf : KeyFrame.t) (slots : list (option mpptr)) :
  forall i nRed nMPs nRed' nMPs',
  KeyFrameCulling_slots w mono pKF kf i slots (nRed, nMPs) = Ok (nRed', nMPs') ->
  nMPs <= nMPs'
  /\ nRed <= nRed'
  /\ ((forall p mp, Some p ∈ slots -> mappoints w !! p = Some mp ->
         MapPoint.mbBad mp = false -> MapPoint.Observations mp <= 3) ->
      nRed' = nRed).
Proof.
  induction slots as [|slot rest IH]; intros i nRed nMPs nRed' nMPs' H.
  { cbn in H. injection H as <- <-. lia. }
  cbn [KeyFrameCulling_slots] in H.
  destruct (KeyFrameCulling_slot w mono pKF kf i slot (nRed, nMPs))
    as [[nRed1 nMPs1]| |] eqn:Hslot; try discriminate.
  run_in H.
  apply KeyFrameCulling_slot_bound in Hslot as (? & ? & Hs).
  apply IH in H as (? & ? & Hr).
  split; [lia|]. split; [lia|]. intros Hall.
  rewrite Hr, Hs; [done| |].
  - intros p mp -> ? ?. eapply Hall; [|done..]. apply elem_of_cons. by left.
  - intros p mp Hin ? ?. eapply Hall; [|done..]. apply elem_of_cons. by right.
Qed.

(** X11. [KeyFrameCulling] retires a keyframe only if one of the non-bad
    points in its slots has more than three observations: a keyframe all
    of whose live points have at most three observations is left as it is,
    whatever the depths and the scales are. *)
Theorem KeyFrameCulling_needs_observers (mono : bool) (pKF : kfptr)
  (w w' : World) (kf : KeyFrame.t) :
  keyframes w !! pKF = Some kf ->
  (forall p mp,
     Some p ∈ KeyFrame.GetMapPointMatches kf ->
     mappoints w !! p = Some mp ->
     MapPoint.mbBad mp = false ->
     MapPoint.Observations mp <= 3) ->
  KeyFrameCulling_body mono pKF w = Ok w' ->
  w' = w.
Proof.
  intros Hkf Hall H. unfold KeyFrameCulling_body in H. rewrite Hkf in H.
  run_in H. destruct (KeyFrame.mnId kf =? 0); [by injection H|].
  destruct (KeyFrameCulling_slots _ _ _ _ _ _ _) as [[nRed nMPs]| |] eqn:Hs;
    try discriminate.
  run_in H. apply KeyFrameCulling_slots_bound in Hs as (Hn & _ & Hred).
  rewrite (Hred Hall) in H.
  destruct (Qlt_bool _ _) eqn:Hlt; [|by injection H].
  apply nine_tenths_exceeded in Hlt. lia.
Qed.

Lemma KeyFrameCulling_needs_observers_witness :
  KeyFrameCulling_body true 13%nat tracker_world = Ok tracker_world.
Proof.
  destruct (KeyFrameCulling_body true 13%nat tracker_world) as [w'| |] eqn:Hrun;
    [|by vm_compute in Hrun..].
  f_equal.
  apply (KeyFrameCulling_needs_observers true 13%nat tracker_world w'
           (tracker_keyframe 3 [None; Some 1%nat; None])); [done| |done].
  intros p mp [[=]|[[= ->]|[[=]|Hin%elem_of_nil]%elem_of_cons]%elem_of_cons]%elem_of_cons;
    [|done].
  intros [= <-] _. vm_compute. discriminate.
Defined.

(** ** Fuse candidates *)

Lemma is_fuse_candidate_marked (curId : Z) (w : World) (p : mpptr) :
  is_fuse_candidate curId
    (upd_mappoint p (MapPoint.set_mnFuseCandidateForKF curId) w) p = false.
Proof.
  unfold is_fuse_candidate. rewrite lookup_upd_mappoint_eq.
  destruct (mappoints w !! p) as [mp|]; [|done]. cbn.
  rewrite Z.eqb_refl. by rewrite orb_true_r.
Qed.

Lemma is_fuse_candidate_upd_ne (curId : Z) (w : World) (p q : mpptr)
  (f : MapPoint.t -> MapPoint.t) :
  p <> q ->
  is_fuse_candidate curId (upd_mappoint p f w) q = is_fuse_candidate curId w q.
Proof.
  intros Hne. unfold is_fuse_candidate. by rewrite lookup_upd_mappoint_ne.
Qed.

(** Lines 465 to 473 in closed form. *)
Lemma SearchInNeighbors_candidates_closed (curId : Z)
  (slots : list (option mpptr)) :
  forall w cands0 w' cands',
  SearchInNeighbors_candidates curId slots w cands0 = Ok (w', cands') ->
  keyframes w' = keyframes w
  /\ mpMap w' = mpMap w
  /\ exists new : list mpptr,
       cands' = cands0 ++ (Some <$> new)
       /\ NoDup new
       /\ (forall p, p ∈ new
                     <-> Some p ∈ slots /\ is_fuse_candidate curId w p = true)
       /\ forall p, mappoints w' !! p
                    = if decide (p ∈ new)
                      then MapPoint.set_mnFuseCandidateForKF curId
                           <$> mappoints w !! p
                      else mappoints w !! p.
Proof.
  induction slots as [|[p0|] rest IH]; intros w cands0 w' cands' H.
  - cbn in H. injection H as <- <-. split; [done|]. split; [done|].
    exists []. split; [by rewrite app_nil_r|]. split; [constructor|].
    split; [|done]. intros p. split; [by intros ?%elem_of_nil|].
    by intros [?%elem_of_nil _].
  - cbn [SearchInNeighbors_candidates] in H.
    destruct (mappoints w !! p0) as [mp0|] eqn:Hp0; [|discriminate].
    run_in H.
    assert (Hc0 : is_fuse_candidate curId w p0
                  = negb (MapPoint.isBad mp0
                          || (MapPoint.mnFuseCandidateForKF mp0 =? curId)))
      by (unfold is_fuse_candidate; by rewrite Hp0).
    destruct (MapPoint.isBad mp0
              || (MapPoint.mnFuseCandidateForKF mp0 =? curId)) eqn:Hskip.
    + apply IH in H as (Hk & Hm & new & -> & Hnd & Hin & Hpts).
      split; [done|]. split; [done|]. exists new.
      split; [done|]. split; [done|]. split; [|done].
      intros p. rewrite Hin. split.
      * intros [? ?]. split; [apply elem_of_cons; by right|done].
      * intros [[[= ->]|?]%elem_of_cons Hc]; [|done].
        rewrite Hc0 in Hc. discriminate.
    + apply IH in H as (Hk & Hm & new & -> & Hnd & Hin & Hpts).
      assert (Hp0new : p0 ∉ new).
      { intros [_ Hc]%Hin. by rewrite is_fuse_candidate_marked in Hc. }
      split; [done|]. split; [done|]. exists (p0 :: new).
      split; [by rewrite <- app_assoc|]. split; [by constructor|]. split.
      * intros p. rewrite elem_of_cons, Hin. split.
        -- intros [->|[? Hc]].
           ++ split; [apply elem_of_cons; by left|]. by rewrite Hc0.
           ++ split; [apply elem_of_cons; by right|].
              destruct (decide (p0 = p)) as [<-|Hne];
                [by rewrite is_fuse_candidate_marked in Hc|].
              by rewrite is_fuse_candidate_upd_ne in Hc.
        -- intros [[[= ->]|?]%elem_of_cons Hc]; [by left|].
           destruct (decide (p0 = p)) as [<-|Hne]; [by left|]. right.
           split; [done|]. by rewrite is_fuse_candidate_upd_ne.
      * intros p. rewrite Hpts.
        destruct (decide (p0 = p)) as [<-|Hne].
        -- rewrite decide_False by done.
           rewrite decide_True by (apply elem_of_cons; by left).
           apply lookup_upd_mappoint_eq.
        -- rewrite lookup_upd_mappoint_ne by done.
           destruct (decide (p ∈ new)).
           ++ rewrite decide_True; [done|]. apply elem_of_cons. by right.
           ++ rewrite decide_False; [done|].
              intros [->|?]%elem_of_cons; done.
  - cbn [SearchInNeighbors_candidates] in H.
    apply IH in H as (Hk & Hm & new & -> & Hnd & Hin & Hpts).
    split; [done|]. split; [done|]. exists new.
    split; [done|]. split; [done|]. split; [|done].
    intros p. rewrite Hin. split.
    + intros [? ?]. split; [apply elem_of_cons; by right|done].
    + by intros [[[=]|?]%elem_of_cons Hc].
Qed.

Lemma is_fuse_candidate_after (curId : Z) (w w1 : World) (new : list mpptr) :
  (forall p, mappoints w1 !! p
             = if decide (p ∈ new)
               then MapPoint.set_mnFuseCandidateForKF curId <$> mappoints w !! p
               else mappoints w !! p) ->
  forall p, is_fuse_candidate curId w1 p
            = if decide (p ∈ new) then false else is_fuse_candidate curId w p.
Proof.
  intros Hpts p. unfold is_fuse_candidate. rewrite Hpts.
  case_decide; [|done]. destruct (mappoints w !! p) as [mp|]; [|done].
  cbn. rewrite Z.eqb_refl. by rewrite orb_true_r.
Qed.

Lemma held_by_cons (w : World) (k : kfptr) (ks : list kfptr) (p : mpptr) :
  held_by w (k :: ks) p
  <-> (exists kf, keyframes w !! k = Some kf
                  /\ Some p ∈ KeyFrame.GetMapPointMatches kf)
      \/ held_by w ks p.
Proof.
  unfold held_by. split.
  - intros (k' & kf & [->|Hin]%elem_of_cons & Hk & Hp); [left; eauto|].
    right. eauto.
  - intros [(kf & Hk & Hp)|(k' & kf & Hin & Hk & Hp)].
    + exists k, kf. split; [apply elem_of_cons; by left|done].
    + exists k', kf. split; [apply elem_of_cons; by right|done].
Qed.

Lemma held_by_keyframes (w w1 : World) (ks : list kfptr) (p : mpptr) :
  keyframes w1 = keyframes w -> held_by w1 ks p <-> held_by w ks p.
Proof. unfold held_by. by intros ->. Qed.

(** Lines 460 to 474 in closed form. *)
Lemma SearchInNeighbors_collect_closed (curId : Z) (targets : list kfptr) :
  forall w cands0 w' cands',
  SearchInNeighbors_collect curId targets w cands0 = Ok (w', cands') ->
  keyframes w' = keyframes w
  /\ mpMap w' = mpMap w
  /\ exists new : list mpptr,
       cands' = cands0 ++ (Some <$> new)
       /\ NoDup new
       /\ (forall p, p ∈ new
                     <-> held_by w targets p
                         /\ is_fuse_candidate curId w p = true)
       /\ forall p, mappoints w' !! p
                    = if decide (p ∈ new)
                      then MapPoint.set_mnFuseCandidateForKF curId
                           <$> mappoints w !! p
                      else mappoints w !! p.
Proof.
  induction targets as [|t0 rest IH]; intros w cands0 w' cands' H.
  - cbn in H. injection H as <- <-. split; [done|]. split; [done|].
    exists []. split; [by rewrite app_nil_r|]. split; [constructor|].
    split; [|done]. intros p. split; [by intros ?%elem_of_nil|].
    by intros [(? & ? & ?%elem_of_nil & _) _].
  - cbn [SearchInNeighbors_collect] in H.
    destruct (keyframes w !! t0) as [kfi|] eqn:Ht0; [|discriminate].
    run_in H.
    destruct (SearchInNeighbors_candidates _ _ _ _) as [[w1 cands1]| |] eqn:Hc;
      try discriminate.
    run_in H.
    apply SearchInNeighbors_candidates_closed in Hc
      as (Hk0 & Hm0 & new0 & -> & Hnd0 & Hin0 & Hpts0).
    apply IH in H as (Hk1 & Hm1 & new1 & -> & Hnd1 & Hin1 & Hpts1).
    pose proof (is_fuse_candidate_after _ _ _ _ Hpts0) as Hfc.
    assert (Hdisj : forall p, p ∈ new0 -> p ∉ new1).
    { intros p Hp0 [_ Hc]%Hin1. rewrite Hfc, decide_True in Hc by done.
      discriminate. }
    split; [congruence|]. split; [congruence|]. exists (new0 ++ new1).
    split; [by rewrite fmap_app, app_assoc|].
    split; [by apply NoDup_app|]. split.
    + intros p. rewrite elem_of_app, Hin0, Hin1, held_by_cons, Ht0.
      rewrite (held_by_keyframes _ _ _ _ Hk0), Hfc.
      destruct (decide (p ∈ new0)) as [Hp|Hp].
      * apply Hin0 in Hp as [? ?]. split; [|by left].
        intros _. split; [left; eauto|done].
      * split.
        -- intros [[? ?]|[? ?]]; [|by split; [right|]].
           split; [left; eauto|done].
        -- intros [[(kf & [= <-] & ?)|?] ?]; [by left|by right].
    + intros p. rewrite Hpts1, Hpts0.
      destruct (decide (p ∈ new0)) as [Hp|Hp].
      * rewrite decide_False by (by apply Hdisj).
        rewrite decide_True; [done|]. apply elem_of_app. by left.
      * destruct (decide (p ∈ new1)).
        -- rewrite decide_True; [done|]. apply elem_of_app. by right.
        -- rewrite decide_False; [done|]. by intros [?|?]%elem_of_app.
Qed.

(** X12. The fuse candidates that [SearchInNeighbors] collects from the
    target keyframes are, without repetition and without null pointer, the
    points held in a slot of some target that were not bad and not yet
    marked for the current keyframe; exactly these points get the marker,
    and nothing else in the graph changes. *)
Theorem SearchInNeighbors_collect_candidates (curId : Z)
  (vpTargetKFs : list kfptr) (w w' : World)
  (vpFuseCandidates : list (option mpptr)) :
  SearchInNeighbors_collect curId vpTargetKFs w [] = Ok (w', vpFuseCandidates) ->
  exists new : list mpptr,
    vpFuseCandidates = Some <$> new
    /\ NoDup new
    /\ (forall p, p ∈ new
                  <-> held_by w vpTargetKFs p
                      /\ is_fuse_candidate curId w p = true)
    /\ keyframes w' = keyframes w
    /\ mpMap w' = mpMap w
    /\ forall p, mappoints w' !! p
                 = if decide (p ∈ new)
                   then MapPoint.set_mnFuseCandidateForKF curId
                        <$> mappoints w !! p
                   else mappoints w !! p.
Proof.
  intros H.
  apply SearchInNeighbors_collect_closed in H
    as (Hk & Hm & new & -> & Hnd & Hin & Hpts).
  by exists new.
Qed.

Lemma SearchInNeighbors_collect_candidates_witness :
  exists w',
    SearchInNeighbors_collect 4 [10; 11]%nat (redundancy_scene [5; 5; 5]%Q) []
    = Ok (w', [Some 0; Some 1; Some 2]%nat).
Proof.
  destruct (SearchInNeighbors_collect 4 [10; 11]%nat
              (redundancy_scene [5; 5; 5]%Q) []) as [[w' cands]| |] eqn:Hrun;
    [|by vm_compute in Hrun..].
  destruct (SearchInNeighbors_collect_candidates _ _ _ _ _ Hrun)
    as (new & -> & _).
  exists w'. vm_compute in Hrun. injection Hrun as _ ->. done.
Defined.

(** ** Fuse targets *)

Lemma lookup_upd_keyframe_eq (w : World) (k : kfptr)
  (f : KeyFrame.t -> KeyFrame.t) :
  keyframes (upd_keyframe k f w) !! k = f <$> keyframes w !! k.
Proof. apply lookup_alter_eq. Qed.

Lemma lookup_upd_keyframe_ne (w : World) (k k' : kfptr)
  (f : KeyFrame.t -> KeyFrame.t) :
  k <> k' -> keyframes (upd_keyframe k f w) !! k' = keyframes w !! k'.
Proof. apply lookup_alter_ne. Qed.

Lemma is_fuse_target_marked (curId : Z) (w : World) (k : kfptr) :
  is_fuse_target curId
    (upd_keyframe k (KeyFrame.set_mnFuseTargetForKF curId) w) k = false.
Proof.
  unfold is_fuse_target. rewrite lookup_upd_keyframe_eq.
  destruct (keyframes w !! k) as [kf|]; [|done]. cbn.
  rewrite Z.eqb_refl. by rewrite orb_true_r.
Qed.

Lemma is_fuse_target_upd_ne (curId : Z) (w : World) (k k' : kfptr)
  (f : KeyFrame.t -> KeyFrame.t) :
  k <> k' ->
  is_fuse_target curId (upd_keyframe k f w) k' = is_fuse_target curId w k'.
Proof.
  intros Hne. unfold is_fuse_target. by rewrite lookup_upd_keyframe_ne.
Qed.

Lemma is_fuse_target_not_bad (curId : Z) (w : World) (k : kfptr) :
  is_fuse_target curId w k = true ->
  exists kf, keyframes w !! k = Some kf /\ KeyFrame.isBad kf = false.
Proof.
  unfold is_fuse_target. destruct (keyframes w !! k) as [kf|]; [|done].
  cbn. intros [? _]%negb_true_iff%orb_false_iff. by exists kf.
Qed.

(** Lines 438 to 443: the second neighbours that are appended. *)
Lemma SearchInNeighbors_second_targets (curId : Z) (l2 : list kfptr)
  (w : World) :
  forall targets0 targets',
  SearchInNeighbors_second curId l2 w targets0 = Ok targets' ->
  exists more,
    targets' = targets0 ++ more
    /\ forall t, t ∈ more ->
         t ∈ l2
         /\ is_fuse_target curId w t = true
         /\ exists kf, keyframes w !! t = Some kf /\ KeyFrame.mnId kf <> curId.
Proof.
  induction l2 as [|k0 rest IH]; intros targets0 targets' H.
  { cbn in H. injection H as <-. exists []. split; [by rewrite app_nil_r|].
    by intros t ?%elem_of_nil. }
  cbn [SearchInNeighbors_second] in H.
  destruct (keyframes w !! k0) as [kf0|] eqn:Hk0; [|discriminate]. run_in H.
  destruct (KeyFrame.isBad kf0 || (KeyFrame.mnFuseTargetForKF kf0 =? curId)
            || (KeyFrame.mnId kf0 =? curId)) eqn:Hskip.
  - apply IH in H as (more & -> & Hmore). exists more. split; [done|].
    intros t Hin. destruct (Hmore t Hin) as (? & ? & ?).
    split; [apply elem_of_cons; by right|done].
  - apply IH in H as (more & -> & Hmore). exists (k0 :: more).
    split; [by rewrite <- app_assoc|].
    intros t [->|Hin]%elem_of_cons.
    + apply orb_false_iff in Hskip as [Hft Hid].
      split; [apply elem_of_cons; by left|]. split.
      * unfold is_fuse_target. rewrite Hk0. cbn. by rewrite Hft.
      * exists kf0. split; [done|]. by apply Z.eqb_neq.
    + destruct (Hmore t Hin) as (? & ? & ?).
      split; [apply elem_of_cons; by right|done].
Qed.

Section FuseTargets.

Variable GetBestCovisibilityKeyFrames : World -> kfptr -> nat -> list kfptr.

(** Lines 429 to 444 in closed form. *)
Lemma SearchInNeighbors_targets_closed (curId : Z) (l : list kfptr) :
  forall w targets0 w' targets',
  SearchInNeighbors_targets GetBestCovisibilityKeyFrames curId l w targets0
  = Ok (w', targets') ->
  mappoints w' = mappoints w
  /\ mpMap w' = mpMap w
  /\ (forall k, keyframes w' !! k
                = if decide (k ∈ l /\ is_fuse_target curId w k = true)
                  then KeyFrame.set_mnFuseTargetForKF curId <$> keyframes w !! k
                  else keyframes w !! k)
  /\ exists more,
       targets' = targets0 ++ more
       /\ (forall t, t ∈ more ->
             exists kf, keyframes w !! t = Some kf /\ KeyFrame.isBad kf = false)
       /\ forall k, k ∈ l -> is_fuse_target curId w k = true -> k ∈ more.
Proof.
  induction l as [|k0 rest IH]; intros w targets0 w' targets' H.
  { cbn in H. injection H as <- <-. split; [done|]. split; [done|].
    split; [done|]. exists []. split; [by rewrite app_nil_r|].
    split; [by intros t ?%elem_of_nil|]. by intros k ?%elem_of_nil. }
  cbn [SearchInNeighbors_targets] in H.
  destruct (keyframes w !! k0) as [kf0|] eqn:Hk0; [|discriminate]. run_in H.
  assert (Hft0 : is_fuse_target curId w k0
                 = negb (KeyFrame.isBad kf0
                         || (KeyFrame.mnFuseTargetForKF kf0 =? curId)))
    by (unfold is_fuse_target; by rewrite Hk0).
  destruct (KeyFrame.isBad kf0 || (KeyFrame.mnFuseTargetForKF kf0 =? curId))
    eqn:Hskip.
  - apply IH in H as (Hp & Hm & Hkf & more & -> & Hmore & Hall).
    split; [done|]. split; [done|]. split.
    + intros k. rewrite Hkf.
      destruct (decide (k ∈ rest /\ is_fuse_target curId w k = true))
        as [[? ?]|Hn].
      * rewrite decide_True; [done|]. split; [apply elem_of_cons; by right|done].
      * rewrite decide_False; [done|]. intros [[->|?]%elem_of_cons Hc].
        -- rewrite Hft0 in Hc. discriminate.
        -- by apply Hn.
    + exists more. split; [done|]. split; [done|].
      intros k [->|?]%elem_of_cons Hc; [|by apply Hall].
      rewrite Hft0 in Hc. discriminate.
  - match type of H with
    | context [SearchInNeighbors_second curId ?l2 ?w1 ?t1] =>
        destruct (SearchInNeighbors_second curId l2 w1 t1) as [targets1| |]
          eqn:H2; try discriminate; set (w1' := w1) in *
    end.
    run_in H.
    apply SearchInNeighbors_second_targets in H2 as (more2 & -> & Hmore2).
    apply IH in H as (Hp & Hm & Hkf & more1 & -> & Hmore1 & Hall).
    assert (Hback : forall t,
              (exists kf, keyframes w1' !! t = Some kf
                          /\ KeyFrame.isBad kf = false) ->
              exists kf, keyframes w !! t = Some kf
                         /\ KeyFrame.isBad kf = false).
    { intros t (kf & Ht & Hb). subst w1'.
      destruct (decide (k0 = t)) as [<-|Hne].
      - rewrite lookup_upd_keyframe_eq, Hk0 in Ht. injection Ht as <-.
        by exists kf0.
      - rewrite lookup_upd_keyframe_ne in Ht by done. by exists kf. }
    split; [done|]. split; [done|]. split.
    + intros k. rewrite Hkf. subst w1'.
      destruct (decide (k0 = k)) as [<-|Hne].
      * rewrite is_fuse_target_marked.
        rewrite (decide_False (P := _ /\ _ = true)) by (by intros [_ ?]).
        rewrite decide_True; [apply lookup_upd_keyframe_eq|].
        split; [apply elem_of_cons; by left|]. by rewrite Hft0.
      * rewrite (is_fuse_target_upd_ne _ _ _ _ _ Hne).
        rewrite (lookup_upd_keyframe_ne _ _ _ _ Hne).
        destruct (decide (k ∈ rest /\ is_fuse_target curId w k = true))
          as [[? ?]|Hn].
        -- rewrite decide_True; [done|].
           split; [apply elem_of_cons; by right|done].
        -- rewrite decide_False; [done|]. intros [[->|?]%elem_of_cons Hc];
             [done|by apply Hn].
    + exists (k0 :: more2 ++ more1).
      split; [by rewrite <- !app_assoc|]. split.
      * intros t [->|[Hin|Hin]%elem_of_app]%elem_of_cons.
        -- exists kf0. split; [done|].
           by apply orb_false_iff in Hskip as [? _].
        -- apply Hback. destruct (Hmore2 t Hin) as (_ & Hft & _).
           by apply is_fuse_target_not_bad in Hft.
        -- by apply Hback, Hmore1.
      * intros k [->|Hin]%elem_of_cons Hc; [apply elem_of_cons; by left|].
        destruct (decide (k0 = k)) as [<-|Hne]; [apply elem_of_cons; by left|].
        apply elem_of_cons. right. apply elem_of_app. right.
        apply Hall; [done|]. subst w1'.
        by rewrite is_fuse_target_upd_ne.
Qed.

(** X13. The keyframes that [SearchInNeighbors] hands to [Fuse] are never
    bad, and every neighbour of the current keyframe that is not bad and
    not yet marked as a fuse target for it is among them; exactly these
    neighbours get the marker, and nothing else in the graph changes. *)
Theorem SearchInNeighbors_targets_live (curId : Z) (vpNeighKFs : list kfptr)
  (w w' : World) (vpTargetKFs : list kfptr) :
  SearchInNeighbors_targets GetBestCovisibilityKeyFrames curId vpNeighKFs w []
  = Ok (w', vpTargetKFs) ->
  (forall t, t ∈ vpTargetKFs ->
     exists kf, keyframes w !! t = Some kf /\ KeyFrame.isBad kf = false)
  /\ (forall k, k ∈ vpNeighKFs -> is_fuse_target curId w k = true ->
        k ∈ vpTargetKFs)
  /\ (forall k, keyframes w' !! k
                = if decide (k ∈ vpNeighKFs /\ is_fuse_target curId w k = true)
                  then KeyFrame.set_mnFuseTargetForKF curId <$> keyframes w !! k
                  else keyframes w !! k)
  /\ mappoints w' = mappoints w
  /\ mpMap w' = mpMap w.
Proof.
  intros H.
  apply SearchInNeighbors_targets_closed in H
    as (Hp & Hm & Hkf & more & -> & Hmore & Hall).
  by repeat split.
Qed.

End FuseTargets.

Lemma SearchInNeighbors_targets_live_witness :
  exists w' targets,
    SearchInNeighbors_targets scene_neighbors 4
      (scene_neighbors (redundancy_scene [5; 5; 5]%Q) 14%nat 10)
      (redundancy_scene [5; 5; 5]%Q) []
    = Ok (w', targets)
    /\ 13%nat ∈ targets
    /\ forall t, t ∈ targets ->
          exists kf, keyframes (redundancy_scene [5; 5; 5]%Q) !! t = Some kf
                     /\ KeyFrame.isBad kf = false.
Proof.
  destruct (SearchInNeighbors_targets scene_neighbors 4
              (scene_neighbors (redundancy_scene [5; 5; 5]%Q) 14%nat 10)
              (redundancy_scene [5; 5; 5]%Q) []) as [[w' targets]| |] eqn:Hrun;
    [|by vm_compute in Hrun..].
  destruct (SearchInNeighbors_targets_live scene_neighbors _ _ _ _ _ Hrun)
    as (Hlive & Hall & _).
  exists w', targets. split; [done|]. split; [|exact Hlive].
  apply Hall; [|by vm_compute].
  apply (bool_decide_unpack _). by vm_compute.
Defined.

(** ** The worker loop: leaving, waiting, and what it never writes *)

Section WorkerLoop.

Variable env : nat -> Sys -> Sys.
Variable norm : Vec3 -> Q.
Variable SVD_vt_row3 : Vec4 -> Vec4 -> Vec4 -> Vec4 -> Vec4.
Variable UnprojectStereo : KeyFrame.t -> nat -> Vec3.
Variable ComputeSceneMedianDepth : World -> kfptr -> Q.
Variable GetBestCovisibilityKeyFrames : World -> kfptr -> nat -> list kfptr.
Variable GetVectorCovisibleKeyFrames : World -> kfptr -> list kfptr.
Variable SearchForTriangulation : World -> kfptr -> kfptr -> list (nat * nat).
Variable Fuse : kfptr -> list (option mpptr) -> World -> World.
Variable LocalBundleAdjustment : kfptr -> World -> World.
Variable mpLoopCloser : bool.

Local Abbreviation yield'' := (yield env).
Local Abbreviation Run_mapping'' :=
  (Run_mapping env norm SVD_vt_row3 UnprojectStereo ComputeSceneMedianDepth
     GetBestCovisibilityKeyFrames SearchForTriangulation Fuse).
Local Abbreviation Run_optimization'' :=
  (Run_optimization env GetVectorCovisibleKeyFrames LocalBundleAdjustment).
Local Abbreviation Run_iteration'' :=
  (Run_iteration env norm SVD_vt_row3 UnprojectStereo ComputeSceneMedianDepth
     GetBestCovisibilityKeyFrames GetVectorCovisibleKeyFrames
     SearchForTriangulation Fuse LocalBundleAdjustment mpLoopCloser).
Local Abbreviation Run_loop'' :=
  (Run_loop env norm SVD_vt_row3 UnprojectStereo ComputeSceneMedianDepth
     GetBestCovisibilityKeyFrames GetVectorCovisibleKeyFrames
     SearchForTriangulation Fuse LocalBundleAdjustment mpLoopCloser).
Local Abbreviation Run'' :=
  (Run env norm SVD_vt_row3 UnprojectStereo ComputeSceneMedianDepth
     GetBestCovisibilityKeyFrames GetVectorCovisibleKeyFrames
     SearchForTriangulation Fuse LocalBundleAdjustment mpLoopCloser).

(** The loop is left only where [CheckFinish()] has just returned true. *)
Lemma Run_iteration_leaves (fuel : nat) (e e' : Exec) :
  Run_iteration'' fuel e = Ok (true, e') -> CheckFinish (lm (sys e')) = true.
Proof.
  unfold Run_iteration, Run_epilogue. cbv zeta. intros H.
  destruct (CheckNewKeyFrames _).
  - destruct (Run_mapping'' _) as [e1| |]; try discriminate. run_in H.
    destruct (Run_optimization'' _) as [e2| |]; try discriminate. run_in H.
    destruct (Run_handoff _ _) as [e3| |]; try discriminate. run_in H.
    injection H as Hl <-; exact Hl.
  - destruct (Stop _) as [[|] l].
    + destruct (Run_wait _ _ _) as [e1| |]; try discriminate. run_in H.
      destruct (CheckFinish (lm (sys (yield'' e1)))) eqn:Hf.
      * by injection H as <-.
      * injection H as Hl <-; exact Hl.
    + injection H as Hl <-; exact Hl.
Qed.

(** X14. [Run] returns only after a finish request: provided no other
    thread withdraws a finish request (no member function does), the mapper
    that [Run] leaves behind is finished, stopped, and still asked to
    finish. *)
Theorem Run_returns_finished (turns fuel : nat) (e e' : Exec) :
  (forall t s, CheckFinish (lm s) = true -> CheckFinish (lm (env t s)) = true) ->
  Run'' turns fuel e = Ok e' ->
  isFinished (lm (sys e')) = true
  /\ isStopped (lm (sys e')) = true
  /\ CheckFinish (lm (sys e')) = true.
Proof.
  intros Henv. unfold Run.
  generalize (on_lm (set_mbFinished false) e). clear e.
  induction turns as [|turns IH]; intros e H; [discriminate|].
  cbn [Run_loop] in H.
  destruct (Run_iteration'' fuel e) as [[leave e1]| |] eqn:Hit;
    try discriminate.
  run_in H. destruct leave; [|by eapply IH].
  injection H as <-. apply Run_iteration_leaves in Hit.
  split; [done|]. split; [done|].
  change (CheckFinish (lm (env (clock e1) (sys e1))) = true).
  by apply Henv.
Qed.

(** While it waits the mapper changes nothing by itself. *)
Lemma Run_wait_exit (fuel : nat) :
  forall e e',
  Run_wait env fuel e = Ok e' ->
  (exists n, e' = Nat.iter n yield'' e)
  /\ (isStopped (lm (sys e')) = false \/ CheckFinish (lm (sys e')) = true).
Proof.
  induction fuel as [|fuel IH]; intros e e' H; cbn [Run_wait] in H.
  - destruct (isStopped (lm (sys (yield'' e)))) eqn:Hs.
    + destruct (CheckFinish (lm (sys (yield'' (yield'' e))))) eqn:Hf;
        [|discriminate].
      injection H as <-. split; [by exists 2%nat|by right].
    + injection H as <-. split; [by exists 1%nat|by left].
  - destruct (isStopped (lm (sys (yield'' e)))) eqn:Hs.
    + destruct (CheckFinish (lm (sys (yield'' (yield'' e))))) eqn:Hf.
      * injection H as <-. split; [by exists 2%nat|by right].
      * apply IH in H as [[n ->] Hexit]. split; [|done].
        exists (n + 2)%nat. by rewrite Nat.iter_add.
    + injection H as <-. split; [by exists 1%nat|by left].
Qed.

(** X15. The wait loop of a stopped mapper ends only when a poll finds
    the mapper released or asked to finish, and until then the mapper
    changes nothing by itself: the state it leaves the loop with is the one
    the other threads made.  As long as the other threads keep it stopped
    and do not ask it to finish, it never leaves the loop. *)
Theorem Run_wait_idles (fuel : nat) (e : Exec) :
  (forall e',
     Run_wait env fuel e = Ok e' ->
     (exists n, e' = Nat.iter n yield'' e)
     /\ (isStopped (lm (sys e')) = false \/ CheckFinish (lm (sys e')) = true))
  /\ ((forall t s, waiting s -> waiting (env t s)) ->
      waiting (sys e) ->
      Run_wait env fuel e = OutOfFuel).
Proof.
  split; [intros e'; apply Run_wait_exit|].
  intros Henv. revert e.
  induction fuel as [|fuel IH]; intros e He; cbn [Run_wait].
  - destruct (Henv (clock e) (sys e) He) as [Hs _].
    change (isStopped (lm (sys (yield'' e))) = true) in Hs. rewrite Hs.
    destruct (Henv (clock (yield'' e)) (sys (yield'' e))) as [_ Hf];
      [by apply Henv|].
    change (CheckFinish (lm (sys (yield'' (yield'' e)))) = false) in Hf.
    by rewrite Hf.
  - destruct (Henv (clock e) (sys e) He) as [Hs _].
    change (isStopped (lm (sys (yield'' e))) = true) in Hs. rewrite Hs.
    assert (H2 : waiting (sys (yield'' (yield'' e)))) by (by do 2 apply Henv).
    destruct H2 as [Hs2 Hf].
    rewrite Hf. cbn [negb]. apply IH. by split.
Qed.

(** *** What the stages do to the members of [LocalMapping] *)

Lemma lm_drift_trans (l1 l2 l3 : LocalMapping) :
  lm_drift env l1 l2 -> lm_drift env l2 l3 -> lm_drift env l1 l3.
Proof.
  induction 1 as [l|l l' t w _ IH|l l' r _ IH]; intros H23; [done| |].
  - eapply drift_env. by apply IH.
  - eapply drift_recent. by apply IH.
Qed.

Lemma lm_drift_yield (e : Exec) :
  lm_drift env (lm (sys e)) (lm (sys (yield'' e))).
Proof.
  apply (drift_env env _ _ (clock e) (world (sys e))).
  destruct e as [[l w] t evs]. apply drift_refl.
Qed.

Lemma lm_drift_recent (l : LocalMapping) (r : list mpptr) :
  lm_drift env l (set_mlpRecentAddedMapPoints r l).
Proof. eapply drift_recent, drift_refl. Qed.

Lemma CreateNewMapPoints_matches_drift (cur pKF2 : kfptr)
  (pairs : list (nat * nat)) :
  forall s s',
  CreateNewMapPoints_matches norm SVD_vt_row3 UnprojectStereo cur pKF2 pairs s
  = Ok s' ->
  lm_drift env (lm s) (lm s').
Proof.
  induction pairs as [|[idx1 idx2] rest IH]; intros s s' H.
  { cbn in H. injection H as <-. apply drift_refl. }
  cbn [CreateNewMapPoints_matches] in H.
  destruct (keyframes (world s) !! cur) as [kf1|]; [|discriminate].
  destruct (keyframes (world s) !! pKF2) as [kf2|]; [|discriminate].
  run_in H.
  destruct (TriangulatePair _ _ _ kf1 kf2 idx1 idx2) as [out| |];
    try discriminate.
  run_in H. destruct out; try (by apply IH).
  destruct (RegisterNewMapPoint cur pKF2 idx1 idx2 s) as [s1| |] eqn:Hreg;
    try discriminate.
  run_in H.
  apply RegisterNewMapPoint_frame in Hreg
    as (_ & _ & _ & _ & _ & _ & _ & _ & Hlm & _).
  eapply lm_drift_trans; [|by apply IH]. rewrite Hlm. apply lm_drift_recent.
Qed.

Lemma CreateNewMapPoints_neighbors_drift (cur : kfptr) (l : list kfptr) :
  forall i e e',
  CreateNewMapPoints_neighbors env norm SVD_vt_row3 UnprojectStereo
    ComputeSceneMedianDepth SearchForTriangulation cur i l e = Ok e' ->
  lm_drift env (lm (sys e)) (lm (sys e')).
Proof.
  induction l as [|pKF2 rest IH]; intros i e e' H.
  { cbn in H. injection H as <-. apply drift_refl. }
  cbn [CreateNewMapPoints_neighbors] in H.
  set (e1 := if (0 <? i)%nat then yield'' e else e) in H.
  assert (H1 : lm_drift env (lm (sys e)) (lm (sys e1))).
  { subst e1. destruct (0 <? i)%nat; [apply lm_drift_yield|apply drift_refl]. }
  destruct ((0 <? i)%nat && CheckNewKeyFrames (lm (sys e1))).
  { by injection H as <-. }
  cbn [emit sys] in H.
  destruct (keyframes (world (sys e1)) !! cur) as [kf1|]; [|discriminate].
  destruct (keyframes (world (sys e1)) !! pKF2) as [kf2|]; [|discriminate].
  run_in H.
  match type of H with
  | (if ?b then _ else _) = _ => destruct b
  end.
  - apply IH in H. eapply lm_drift_trans; [exact H1|exact H].
  - destruct (CreateNewMapPoints_matches _ _ _ _ _ _ _) as [s| |] eqn:Hm;
      try discriminate.
    run_in H. apply CreateNewMapPoints_matches_drift in Hm. apply IH in H.
    eapply lm_drift_trans; [exact H1|].
    eapply lm_drift_trans; [exact Hm|exact H].
Qed.

Lemma SearchInNeighbors_fuse_drift (targets : list kfptr)
  (m : list (option mpptr)) :
  forall e,
  lm_drift env (lm (sys e)) (lm (sys (SearchInNeighbors_fuse env Fuse targets m e))).
Proof.
  induction targets as [|t rest IH]; intros e; [apply drift_refl|].
  cbn [SearchInNeighbors_fuse].
  eapply lm_drift_trans; [apply lm_drift_yield|].
  exact (IH (on_world (Fuse t m) (emit (EvFuse t) (yield'' e)))).
Qed.

Lemma SearchInNeighbors_drift (e e' : Exec) :
  SearchInNeighbors env GetBestCovisibilityKeyFrames Fuse e = Ok e' ->
  lm_drift env (lm (sys e)) (lm (sys e')).
Proof.
  unfold SearchInNeighbors. intros H.
  destruct (mpCurrentKeyFrame (lm (sys e))) as [cur|]; [|discriminate].
  run_in H.
  destruct (keyframes (world (sys e)) !! cur) as [kf|]; [|discriminate].
  run_in H.
  destruct (SearchInNeighbors_targets _ _ _ _ _) as [[w targets]| |];
    try discriminate.
  run_in H. cbv zeta in H.
  destruct (SearchInNeighbors_collect _ _ _ _) as [[w2 cands]| |];
    try discriminate.
  run_in H. injection H as <-. cbn [sys lm on_world emit].
  match goal with
  | |- context [SearchInNeighbors_fuse env Fuse ?ts ?m ?e0] =>
      pose proof (SearchInNeighbors_fuse_drift ts m e0) as Hf;
      set (ef := SearchInNeighbors_fuse env Fuse ts m e0) in *
  end.
  eapply lm_drift_trans; [exact Hf|].
  apply (drift_env env _ _ (clock ef) w2). apply drift_refl.
Qed.

Lemma MapPointCulling_drift (s s' : Sys) :
  MapPointCulling s = Ok s' -> lm_drift env (lm s) (lm s').
Proof.
  unfold MapPointCulling. intros H.
  destruct (mpCurrentKeyFrame (lm s)) as [cur|]; [|discriminate]. run_in H.
  destruct (keyframes (world s) !! cur) as [kf|]; [|discriminate]. run_in H.
  destruct (MapPointCulling_loop _ _ _ _) as [[w l]| |]; try discriminate.
  cbn in H. injection H as <-. apply lm_drift_recent.
Qed.

Lemma Run_optimization_drift (e e' : Exec) :
  Run_optimization'' e = Ok e' -> lm_drift env (lm (sys e)) (lm (sys e')).
Proof.
  unfold Run_optimization. cbv zeta. intros H.
  pose proof (lm_drift_yield e) as H1.
  destruct (negb (CheckNewKeyFrames (lm (sys (yield'' e)))));
    [|by injection H as <-].
  pose proof (lm_drift_yield (yield'' e)) as H2.
  destruct (negb (stopRequested (lm (sys (yield'' (yield'' e))))));
    [|injection H as <-; by eapply lm_drift_trans].
  pose proof (lm_drift_yield (yield'' (yield'' e))) as H3.
  assert (H123 : lm_drift env (lm (sys e))
                   (lm (sys (yield'' (yield'' (yield'' e))))))
    by (eapply lm_drift_trans; [exact H1|]; by eapply lm_drift_trans).
  match type of H with
  | context [mbind _ ?m] => destruct m as [e2| |] eqn:Hba
  end; try discriminate.
  run_in H.
  assert (Hlm2 : lm (sys e2) = lm (sys (yield'' (yield'' (yield'' e))))).
  { destruct (2 <? KeyFramesInMap _); [|by injection Hba as <-].
    destruct (mpCurrentKeyFrame _) as [cur|]; [|discriminate].
    by injection Hba as <-. }
  unfold KeyFrameCulling in H.
  destruct (mpCurrentKeyFrame (lm (sys e2))) as [cur|]; [|discriminate].
  run_in H.
  destruct (KeyFrameCulling_loop _ _ _) as [w| |]; try discriminate.
  run_in H. injection H as <-. cbn [sys lm emit on_world]. by rewrite Hlm2.
Qed.

Lemma Run_handoff_lm (e e' : Exec) :
  Run_handoff mpLoopCloser e = Ok e' -> lm (sys e') = lm (sys e).
Proof.
  unfold Run_handoff. intros H. destruct mpLoopCloser; [|by injection H as <-].
  destruct (mpCurrentKeyFrame _) as [cur|]; [|discriminate].
  by injection H as <-.
Qed.

Lemma ProcessNewKeyFrame_lm (s s' : Sys) :
  ProcessNewKeyFrame s = Ok s' ->
  exists cur q r,
    mlNewKeyFrames (lm s) = cur :: q
    /\ lm s' = set_mlpRecentAddedMapPoints r
                 (set_mpCurrentKeyFrame (Some cur)
                    (set_mlNewKeyFrames q (lm s))).
Proof.
  unfold ProcessNewKeyFrame. intros H.
  destruct (mlNewKeyFrames (lm s)) as [|cur q]; [discriminate|].
  destruct (keyframes (world s) !! cur) as [kf|]; [|discriminate]. run_in H.
  destruct (ProcessNewKeyFrame_loop _ _ _ _ _) as [[w r]| |];
    try discriminate.
  run_in H. injection H as <-. by exists cur, q, r.
Qed.

(** From the keyframe being taken to the end of line 81. *)
Lemma Run_mapping_lm (e e' : Exec) :
  Run_mapping'' e = Ok e' ->
  exists cur q r l1,
    mlNewKeyFrames (lm (sys (yield'' e))) = cur :: q
    /\ lm_drift env
         (set_mlpRecentAddedMapPoints r
            (set_mpCurrentKeyFrame (Some cur)
               (set_mlNewKeyFrames q (lm (sys (yield'' e)))))) l1
    /\ lm (sys e') = set_mbAbortBA false l1.
Proof.
  unfold Run_mapping. cbv zeta. intros H.
  destruct (ProcessNewKeyFrame (sys (yield'' e))) as [s1| |] eqn:Hp;
    try discriminate.
  run_in H.
  destruct (MapPointCulling s1) as [s2| |] eqn:Hc; try discriminate.
  run_in H.
  destruct (CreateNewMapPoints _ _ _ _ _ _ _ _) as [e3| |] eqn:Hn;
    try discriminate.
  run_in H.
  apply ProcessNewKeyFrame_lm in Hp as (cur & q & r & Hq & Hlm1).
  apply MapPointCulling_drift in Hc.
  assert (H3 : lm_drift env (lm s2) (lm (sys e3))).
  { unfold CreateNewMapPoints in Hn. cbn [with_sys sys] in Hn.
    destruct (mpCurrentKeyFrame (lm s2)) as [c|]; [|discriminate].
    run_in Hn. by apply CreateNewMapPoints_neighbors_drift in Hn. }
  match type of H with
  | context [mbind _ ?m] => destruct m as [e4| |] eqn:Hs
  end; try discriminate.
  run_in H. injection H as <-.
  assert (H4 : lm_drift env (lm (sys (yield'' e3))) (lm (sys e4))).
  { destruct (negb (CheckNewKeyFrames (lm (sys (yield'' e3)))));
      [by apply SearchInNeighbors_drift|].
    injection Hs as <-. apply drift_refl. }
  exists cur, q, r, (lm (sys e4)). split; [done|]. split; [|done].
  rewrite <- Hlm1.
  eapply lm_drift_trans; [exact Hc|].
  eapply lm_drift_trans; [exact H3|].
  eapply lm_drift_trans; [apply lm_drift_yield|exact H4].
Qed.

(** *** The queue is first in, first out *)

Lemma foldl_InsertKeyFrame (ks : list kfptr) :
  forall l, exists b,
    foldl (fun l k => InsertKeyFrame k l) l ks
    = set_mbAbortBA b (set_mlNewKeyFrames (mlNewKeyFrames l ++ ks) l).
Proof.
  induction ks as [|k ks IH]; intros l.
  - exists (mbAbortBA l). rewrite app_nil_r. by destruct l.
  - cbn [foldl]. destruct (IH (InsertKeyFrame k l)) as [b ->]. exists b.
    destruct l. cbn. by rewrite <- app_assoc.
Qed.

Lemma lm_drift_inserts (l l' : LocalMapping) :
  inserts_keyframes env ->
  lm_drift env l l' ->
  exists ks r b,
    l' = set_mbAbortBA b
           (set_mlpRecentAddedMapPoints r
              (set_mlNewKeyFrames (mlNewKeyFrames l ++ ks) l)).
Proof.
  intros Henv.
  induction 1 as [l|l l' t w _ IH|l l' r0 _ IH].
  - exists [], (mlpRecentAddedMapPoints l), (mbAbortBA l).
    rewrite app_nil_r. by destruct l.
  - destruct IH as (ks & r & b & ->).
    destruct (Henv t (mkSys l w)) as [ks0 Hins]. rewrite Hins.
    cbn [lm]. destruct (foldl_InsertKeyFrame ks0 l) as [b0 ->].
    exists (ks0 ++ ks), r, b. destruct l. cbn. by rewrite <- app_assoc.
  - destruct IH as (ks & r & b & ->). exists ks, r, b. by destruct l.
Qed.

(** X16. The queue of new keyframes is first in, first out.  When the
    other threads do nothing to the mapper but insert keyframes, the stages
    from [ProcessNewKeyFrame] to line 81 take exactly one keyframe, the
    oldest, and make it current; the keyframes that arrive meanwhile stay
    queued behind the others in the order of their arrival; the
    abort flag is down at the end, and no other flag has changed. *)
Theorem Run_mapping_fifo (e e' : Exec) :
  inserts_keyframes env ->
  Run_mapping'' e = Ok e' ->
  exists cur q ks r,
    mlNewKeyFrames (lm (sys e)) ++ ks = cur :: q
    /\ lm (sys e')
       = set_mbAbortBA false
           (set_mlpRecentAddedMapPoints r
              (set_mpCurrentKeyFrame (Some cur)
                 (set_mlNewKeyFrames q (lm (sys e))))).
Proof.
  intros Henv H.
  apply Run_mapping_lm in H as (cur & q & r & l1 & Hq & Hdrift & ->).
  apply (lm_drift_inserts _ _ Henv) in Hdrift as (ks & r' & b & ->).
  pose proof (lm_drift_inserts _ _ Henv (lm_drift_yield e))
    as (ks0 & r0 & b0 & Hy).
  rewrite Hy in Hq |- *. clear Hy.
  destruct (lm (sys e)) as [? ? ? ? ? ? ? ? ? queue ? ?]. cbn in Hq |- *.
  exists cur, (q ++ ks), (ks0 ++ ks), r'. split; [|done].
  by rewrite app_assoc, Hq.
Qed.

(** *** The flags the pipeline never writes *)

Lemma lm_drift_control
  (P : bool * bool * bool * bool * bool * bool -> Prop) (l l' : LocalMapping) :
  (forall t s, P (control (lm s)) -> P (control (lm (env t s)))) ->
  lm_drift env l l' -> P (control l) -> P (control l').
Proof.
  intros Henv. induction 1 as [l|l l' t w _ IH|l l' r _ IH]; intros HP.
  - done.
  - apply IH. by apply (Henv t (mkSys l w)).
  - by apply IH.
Qed.

Lemma Run_epilogue_control
  (P : bool * bool * bool * bool * bool * bool -> Prop) (e : Exec) :
  (forall t s, P (control (lm s)) -> P (control (lm (env t s)))) ->
  P (control (lm (sys e))) ->
  P (control (lm (sys (Run_epilogue env e).2))).
Proof.
  intros Henv HP. unfold Run_epilogue. cbv zeta. cbn [snd].
  set (e1 := on_lm ResetIfRequested (yield'' e)).
  set (e2 := on_lm (SetAcceptKeyFrames true) (yield'' e1)).
  assert (HP1 : P (control (lm (sys e1)))).
  { subst e1. cbn [sys lm on_lm].
    replace (control (ResetIfRequested (lm (sys (yield'' e)))))
      with (control (lm (sys (yield'' e))))
      by (unfold ResetIfRequested; by destruct (mbResetRequested _)).
    by apply (Henv (clock e) (sys e)). }
  assert (HP2 : P (control (lm (sys e2)))).
  { change (P (control (lm (sys (yield'' e1))))).
    by apply (Henv (clock e1) (sys e1)). }
  by apply (Henv (clock e2) (sys e2)).
Qed.

(** X17. The pipeline never writes the flags of the stop and finish
    protocol nor the sensor flag, and [Stop()] is called only in a turn
    that finds the queue empty: a property of these flags that the other
    threads maintain holds again after a whole turn of the loop of [Run],
    provided that [Stop()] maintains it too in case the turn finds the
    queue empty.  So a turn that processes a keyframe does not stop the
    mapper, even with a stop request pending. *)
Theorem Run_iteration_keeps_control
  (P : bool * bool * bool * bool * bool * bool -> Prop)
  (fuel : nat) (e e' : Exec) (leave : bool) :
  (forall t s, P (control (lm s)) -> P (control (lm (env t s)))) ->
  (CheckNewKeyFrames
     (lm (sys (yield'' (on_lm (SetAcceptKeyFrames false) (yield'' e)))))
   = false ->
   forall l, P (control l) -> P (control (snd (Stop l)))) ->
  P (control (lm (sys e))) ->
  Run_iteration'' fuel e = Ok (leave, e') ->
  P (control (lm (sys e'))).
Proof.
  intros Henv Hstop HP H. unfold Run_iteration in H. cbv zeta in H.
  set (e0 := yield'' (on_lm (SetAcceptKeyFrames false) (yield'' e))) in *.
  assert (HP0 : P (control (lm (sys e0)))).
  { subst e0. apply (Henv _ (sys (on_lm (SetAcceptKeyFrames false) _))).
    cbn [sys lm on_lm]. by apply (Henv (clock e) (sys e)). }
  destruct (CheckNewKeyFrames (lm (sys e0))).
  - destruct (Run_mapping'' e0) as [e1| |] eqn:Hm; try discriminate.
    run_in H.
    destruct (Run_optimization'' e1) as [e2| |] eqn:Ho; try discriminate.
    run_in H.
    destruct (Run_handoff mpLoopCloser e2) as [e3| |] eqn:Hh;
      try discriminate.
    run_in H.
    assert (HP3 : P (control (lm (sys e3)))).
    { rewrite (Run_handoff_lm _ _ Hh).
      apply (lm_drift_control P _ _ Henv (Run_optimization_drift _ _ Ho)).
      apply Run_mapping_lm in Hm as (cur & q & r & l1 & _ & Hdrift & ->).
      change (P (control l1)).
      apply (lm_drift_control P _ _ Henv Hdrift).
      by apply (Henv (clock e0) (sys e0)). }
    injection H as _ <-. exact (Run_epilogue_control P e3 Henv HP3).
  - assert (HPs : P (control (lm (sys (on_lm
                       (fun _ => snd (Stop (lm (sys (yield'' e0)))))
                       (yield'' e0)))))).
    { cbn [sys lm on_lm]. apply Hstop; [done|].
      by apply (Henv (clock e0) (sys e0)). }
    destruct (Stop (lm (sys (yield'' e0)))) as [stopped l] eqn:Hs.
    cbn [snd] in HPs.
    destruct stopped.
    + destruct (Run_wait env fuel _) as [e1| |] eqn:Hw; try discriminate.
      run_in H.
      assert (HP1 : P (control (lm (sys e1)))).
      { apply Run_wait_exit in Hw as [[n ->] _]. clear -Henv HPs.
        induction n as [|n IH]; [done|].
        cbn [Nat.iter]. by apply (Henv _ (sys (Nat.iter n yield'' _))). }
      destruct (CheckFinish (lm (sys (yield'' e1)))).
      * injection H as _ <-. by apply (Henv (clock e1) (sys e1)).
      * injection H as _ <-.
        exact (Run_epilogue_control P (yield'' e1) Henv
                 (Henv (clock e1) (sys e1) HP1)).
    + injection H as _ <-.
      exact (Run_epilogue_control P _ Henv HPs).
Qed.

(** *** The order of the calls in one turn *)

Lemma Run_mapping_calls (e e' : Exec) :
  Run_mapping'' e = Ok e' ->
  exists ts fs,
    log e' = log e ++ (EvTriangulate <$> ts) ++ (EvFuse <$> fs).
Proof.
  unfold Run_mapping. cbv zeta. intros H.
  destruct (ProcessNewKeyFrame (sys (yield'' e))) as [s1| |];
    try discriminate.
  run_in H. destruct (MapPointCulling s1) as [s2| |]; try discriminate.
  run_in H.
  destruct (CreateNewMapPoints _ _ _ _ _ _ _ _) as [e3| |] eqn:Hn;
    try discriminate.
  run_in H.
  assert (H3 : exists ts, log e3 = log e ++ (EvTriangulate <$> ts)).
  { unfold CreateNewMapPoints in Hn. cbn [with_sys sys] in Hn.
    destruct (mpCurrentKeyFrame (lm s2)) as [c|]; [|discriminate].
    run_in Hn. apply CreateNewMapPoints_neighbors_log in Hn as (ts & _ & Hl).
    by exists ts. }
  destruct H3 as [ts H3].
  match type of H with
  | context [mbind _ ?m] => destruct m as [e4| |] eqn:Hs
  end; try discriminate.
  run_in H. injection H as <-. cbn [log on_lm]. exists ts.
  destruct (negb (CheckNewKeyFrames (lm (sys (yield'' e3))))).
  - unfold SearchInNeighbors in Hs.
    destruct (mpCurrentKeyFrame _) as [cur|]; [|discriminate]. run_in Hs.
    destruct (keyframes _ !! cur) as [kf|]; [|discriminate]. run_in Hs.
    destruct (SearchInNeighbors_targets _ _ _ _ _) as [[w targets]| |];
      try discriminate.
    run_in Hs. cbv zeta in Hs.
    destruct (SearchInNeighbors_collect _ _ _ _) as [[w2 cands]| |];
      try discriminate.
    run_in Hs. injection Hs as <-. exists (targets ++ [cur]).
    cbn [log emit on_world yield].
    rewrite SearchInNeighbors_fuse_log. cbn [log on_world yield].
    by rewrite H3, fmap_app, <- !app_assoc.
  - injection Hs as <-. exists []. cbn [log yield]. rewrite H3.
    by rewrite fmap_nil, app_nil_r.
Qed.

Lemma Run_optimization_calls (e e' : Exec) :
  Run_optimization'' e = Ok e' ->
  exists ba,
    log e' = log e ++ ba
    /\ (ba = [] \/ ba = [EvKeyFrameCulling]
        \/ exists k, ba = [EvLocalBA k; EvKeyFrameCulling]).
Proof.
  unfold Run_optimization. cbv zeta. intros H.
  destruct (negb (CheckNewKeyFrames _));
    [|injection H as <-; exists []; split; [by rewrite app_nil_r|by left]].
  destruct (negb (stopRequested _));
    [|injection H as <-; exists []; split; [by rewrite app_nil_r|by left]].
  match type of H with
  | context [mbind _ ?m] => destruct m as [e2| |] eqn:Hba
  end; try discriminate.
  run_in H. unfold KeyFrameCulling in H.
  destruct (mpCurrentKeyFrame (lm (sys e2))) as [cur|]; [|discriminate].
  run_in H.
  destruct (KeyFrameCulling_loop _ _ _) as [w| |]; try discriminate.
  run_in H. injection H as <-. cbn [log emit on_world].
  destruct (2 <? KeyFramesInMap _).
  - destruct (mpCurrentKeyFrame _) as [k|]; [|discriminate].
    injection Hba as <-. exists [EvLocalBA k; EvKeyFrameCulling].
    cbn [log emit on_world yield].
    split; [by rewrite <- app_assoc|]. right. right. by exists k.
  - injection Hba as <-. exists [EvKeyFrameCulling]. split; [done|].
    right. by left.
Qed.

Lemma log_iter_yield (n : nat) (x : Exec) :
  log (Nat.iter n yield'' x) = log x.
Proof. induction n as [|n IH]; [done|]. cbn [Nat.iter]. exact IH. Qed.

(** X19. The calls of one turn of the loop of [Run] come in a fixed
    order.  A turn that finds a keyframe queued works on neighbours for
    triangulation, then on fuse targets, then runs local bundle adjustment
    followed by keyframe culling, or keyframe culling alone, or neither,
    and at last hands the keyframe to the loop closer if there is one.  A
    turn that finds the queue empty makes none of these calls. *)
Theorem Run_iteration_call_order (fuel : nat) (e e' : Exec) (leave : bool) :
  Run_iteration'' fuel e = Ok (leave, e') ->
  if CheckNewKeyFrames
       (lm (sys (yield'' (on_lm (SetAcceptKeyFrames false) (yield'' e)))))
  then
    exists ts fs ba closer,
      log e' = log e ++ (EvTriangulate <$> ts) ++ (EvFuse <$> fs)
                     ++ ba ++ closer
      /\ (ba = [] \/ ba = [EvKeyFrameCulling]
          \/ exists k, ba = [EvLocalBA k; EvKeyFrameCulling])
      /\ (if mpLoopCloser then exists k, closer = [EvLoopCloser k]
          else closer = [])
  else log e' = log e.
Proof.
  unfold Run_iteration. cbv zeta. intros H.
  set (e0 := yield'' (on_lm (SetAcceptKeyFrames false) (yield'' e))) in *.
  assert (H0 : log e0 = log e) by reflexivity.
  destruct (CheckNewKeyFrames (lm (sys e0))).
  - destruct (Run_mapping'' e0) as [e1| |] eqn:Hm; try discriminate.
    run_in H.
    destruct (Run_optimization'' e1) as [e2| |] eqn:Ho; try discriminate.
    run_in H.
    destruct (Run_handoff mpLoopCloser e2) as [e3| |] eqn:Hh;
      try discriminate.
    run_in H. injection H as _ <-.
    apply Run_mapping_calls in Hm as (ts & fs & Hm).
    apply Run_optimization_calls in Ho as (ba & Ho & Hba).
    exists ts, fs, ba.
    cbn [log yield on_lm]. unfold Run_handoff in Hh. destruct mpLoopCloser.
    + destruct (mpCurrentKeyFrame _) as [k|]; [|discriminate].
      injection Hh as <-. exists [EvLoopCloser k]. cbn [log emit].
      rewrite Ho, Hm, H0. split; [by rewrite <- !app_assoc|].
      split; [done|]. by exists k.
    + injection Hh as <-. exists []. rewrite Ho, Hm, H0.
      split; [by rewrite app_nil_r, <- !app_assoc|]. done.
  - destruct (Stop _) as [[|] l].
    + destruct (Run_wait env fuel _) as [e1| |] eqn:Hw; try discriminate.
      run_in H. apply Run_wait_exit in Hw as [[n ->] _].
      pose proof (log_iter_yield n) as Hn.
      destruct (CheckFinish _); injection H as _ <-.
      * cbn [log yield]. by rewrite Hn.
      * cbn [log yield on_lm]. by rewrite Hn.
    + by injection H as _ <-.
Qed.

(** *** The keyframe of a turn *)

Lemma lm_drift_current (l l' : LocalMapping) :
  inserts_keyframes env ->
  lm_drift env l l' -> mpCurrentKeyFrame l' = mpCurrentKeyFrame l.
Proof.
  intros Henv Hd. apply (lm_drift_inserts _ _ Henv) in Hd as (ks & r & b & ->).
  by destruct l.
Qed.

Lemma Run_optimization_calls_on (e e' : Exec) (cur : kfptr) :
  inserts_keyframes env ->
  mpCurrentKeyFrame (lm (sys e)) = Some cur ->
  Run_optimization'' e = Ok e' ->
  exists ba,
    log e' = log e ++ ba
    /\ (ba = [] \/ ba = [EvKeyFrameCulling]
        \/ ba = [EvLocalBA cur; EvKeyFrameCulling]).
Proof.
  intros Henv Hcur. unfold Run_optimization. cbv zeta. intros H.
  destruct (negb (CheckNewKeyFrames _));
    [|injection H as <-; exists []; split; [by rewrite app_nil_r|by left]].
  destruct (negb (stopRequested _));
    [|injection H as <-; exists []; split; [by rewrite app_nil_r|by left]].
  assert (Hc3 : mpCurrentKeyFrame (lm (sys (yield'' (yield'' (yield'' e)))))
                = Some cur).
  { rewrite <- Hcur. apply lm_drift_current; [done|].
    eapply lm_drift_trans; [apply lm_drift_yield|].
    eapply lm_drift_trans; apply lm_drift_yield. }
  match type of H with
  | context [mbind _ ?m] => destruct m as [e2| |] eqn:Hba
  end; try discriminate.
  run_in H. unfold KeyFrameCulling in H.
  destruct (mpCurrentKeyFrame (lm (sys e2))) as [c|]; [|discriminate].
  run_in H.
  destruct (KeyFrameCulling_loop _ _ _) as [w| |]; try discriminate.
  run_in H. injection H as <-. cbn [log emit on_world].
  destruct (2 <? KeyFramesInMap _).
  - rewrite Hc3 in Hba. run_in Hba.
    injection Hba as <-. exists [EvLocalBA cur; EvKeyFrameCulling].
    cbn [log emit on_world yield].
    split; [by rewrite <- app_assoc|]. right. by right.
  - injection Hba as <-. exists [EvKeyFrameCulling]. split; [done|].
    right. by left.
Qed.

(** X22. Every keyframe that is processed is handed to the loop closer.
    When the other threads do nothing to the mapper but insert keyframes and
    a loop closer is set, a turn that finds the queue not empty ends its
    calls with [mpLoopCloser->InsertKeyFrame] on the keyframe that was first
    in the queue, whether or not local bundle adjustment and keyframe
    culling ran; local bundle adjustment, if it ran, was on that
    keyframe. *)
Theorem Run_iteration_hands_over (fuel : nat) (e e' : Exec) (leave : bool)
  (cur : kfptr) (q : list kfptr) :
  inserts_keyframes env ->
  mpLoopCloser = true ->
  mlNewKeyFrames
    (lm (sys (yield'' (on_lm (SetAcceptKeyFrames false) (yield'' e)))))
  = cur :: q ->
  Run_iteration'' fuel e = Ok (leave, e') ->
  exists ts fs ba,
    log e' = log e ++ (EvTriangulate <$> ts) ++ (EvFuse <$> fs) ++ ba
                   ++ [EvLoopCloser cur]
    /\ (ba = [] \/ ba = [EvKeyFrameCulling]
        \/ ba = [EvLocalBA cur; EvKeyFrameCulling]).
Proof.
  intros Henv Hlc Hq H. unfold Run_iteration in H. cbv zeta in H.
  set (e0 := yield'' (on_lm (SetAcceptKeyFrames false) (yield'' e))) in *.
  assert (H0 : log e0 = log e) by reflexivity.
  unfold CheckNewKeyFrames in H. rewrite Hq in H.
  destruct (Run_mapping'' e0) as [e1| |] eqn:Hm; try discriminate.
  run_in H.
  destruct (Run_optimization'' e1) as [e2| |] eqn:Ho; try discriminate.
  run_in H.
  destruct (Run_handoff mpLoopCloser e2) as [e3| |] eqn:Hh;
    try discriminate.
  run_in H. injection H as _ <-. cbn [log yield on_lm].
  assert (Hcur1 : mpCurrentKeyFrame (lm (sys e1)) = Some cur).
  { apply Run_mapping_fifo in Hm as (c & q' & ks & r & Hq' & ->); [|done].
    rewrite Hq in Hq'. by injection Hq' as <- _. }
  assert (Hcur2 : mpCurrentKeyFrame (lm (sys e2)) = Some cur).
  { rewrite <- Hcur1. apply lm_drift_current; [done|].
    by apply Run_optimization_drift. }
  apply Run_mapping_calls in Hm as (ts & fs & Hm).
  apply (Run_optimization_calls_on _ _ cur Henv Hcur1) in Ho as (ba & Ho & Hba).
  exists ts, fs, ba. split; [|done].
  unfold Run_handoff in Hh. rewrite Hlc, Hcur2 in Hh. run_in Hh.
  injection Hh as <-. cbn [log emit]. rewrite Ho, Hm, H0.
  by rewrite <- !app_assoc.
Qed.

End WorkerLoop.

Lemma Run_returns_finished_witness :
  exists e',
    Run quiet_env unit_norm scene_svd scene_unproject scene_median
      scene_neighbors scene_covisible scene_matches scene_fuse scene_optimizer
      true 1 0 (on_lm RequestFinish (worker_scene [14%nat] None)) = Ok e'
    /\ isFinished (lm (sys e')) = true
    /\ isStopped (lm (sys e')) = true
    /\ CheckFinish (lm (sys e')) = true.
Proof.
  destruct (Run quiet_env unit_norm scene_svd scene_unproject scene_median
              scene_neighbors scene_covisible scene_matches scene_fuse
              scene_optimizer true 1 0
              (on_lm RequestFinish (worker_scene [14%nat] None)))
    as [e'| |] eqn:Hrun; [|by vm_compute in Hrun..].
  exists e'. split; [done|].
  apply (Run_returns_finished quiet_env unit_norm scene_svd scene_unproject
           scene_median scene_neighbors scene_covisible scene_matches
           scene_fuse scene_optimizer true 1 0
           (on_lm RequestFinish (worker_scene [14%nat] None)) e');
    [by intros t s|done].
Defined.

Lemma Run_wait_idles_witness :
  Run_wait quiet_env 7 stopped_scene = OutOfFuel.
Proof.
  apply (Run_wait_idles quiet_env 7 stopped_scene); [by intros t s|].
  by vm_compute.
Defined.

Lemma arrival_env_inserts (t0 : nat) (k : kfptr) :
  inserts_keyframes (arrival_env t0 k).
Proof.
  intros t s. unfold arrival_env.
  destruct (t =? t0)%nat; [by exists [k]|by exists []].
Qed.

Lemma Run_mapping_fifo_witness :
  exists e',
    Run_mapping (arrival_env 1 99%nat) unit_norm scene_svd scene_unproject
      scene_median scene_neighbors scene_matches scene_fuse
      (worker_scene [14%nat] None) = Ok e'
    /\ mpCurrentKeyFrame (lm (sys e')) = Some 14%nat
    /\ mlNewKeyFrames (lm (sys e')) = [99%nat].
Proof.
  destruct (Run_mapping (arrival_env 1 99%nat) unit_norm scene_svd
              scene_unproject scene_median scene_neighbors scene_matches
              scene_fuse (worker_scene [14%nat] None)) as [e'| |] eqn:Hrun;
    [|by vm_compute in Hrun..].
  destruct (Run_mapping_fifo _ _ _ _ _ _ _ _ _ _
              (arrival_env_inserts 1 99%nat) Hrun)
    as (cur & q & ks & r & Hq & Hlm).
  exists e'. split; [done|]. injection Hq as <- <-. rewrite Hlm.
  split; [done|]. cbn.
  vm_compute in Hrun. injection Hrun as <-. vm_compute in Hlm.
  by injection Hlm as <-.
Defined.

(** In the worker scene a stop is requested while keyframe 14 is being
    processed: the turn ends with the mapper not stopped. *)
Lemma Run_iteration_keeps_control_witness :
  exists leave e',
    Run_iteration (stop_env 3) unit_norm scene_svd scene_unproject scene_median
      scene_neighbors scene_covisible scene_matches scene_fuse scene_optimizer
      true 0 (worker_scene [14%nat] None) = Ok (leave, e')
    /\ stopRequested (lm (sys e')) = true
    /\ isStopped (lm (sys e')) = false.
Proof.
  destruct (Run_iteration (stop_env 3) unit_norm scene_svd scene_unproject
              scene_median scene_neighbors scene_covisible scene_matches
              scene_fuse scene_optimizer true 0 (worker_scene [14%nat] None))
    as [[leave e']| |] eqn:Hrun; [|by vm_compute in Hrun..].
  exists leave, e'. split; [done|]. split.
  - vm_compute in Hrun. by injection Hrun as _ <-.
  - apply (Run_iteration_keeps_control (stop_env 3) unit_norm scene_svd
             scene_unproject scene_median scene_neighbors scene_covisible
             scene_matches scene_fuse scene_optimizer true
             (fun c => c.1.1.2 = false) 0
             (worker_scene [14%nat] None) e' leave);
      [|by vm_compute|done|done].
    intros t s. unfold stop_env. destruct (t =? 3)%nat; [|done].
    by destruct s as [[] w].
Defined.

Lemma Run_iteration_call_order_witness :
  exists e',
    Run_iteration quiet_env unit_norm scene_svd scene_unproject scene_median
      scene_neighbors scene_covisible scene_matches scene_fuse scene_optimizer
      true 0 (worker_scene [14%nat] None) = Ok (false, e')
    /\ exists ts fs ba closer,
         log e' = (EvTriangulate <$> ts) ++ (EvFuse <$> fs) ++ ba ++ closer
         /\ (ba = [] \/ ba = [EvKeyFrameCulling]
             \/ exists k, ba = [EvLocalBA k; EvKeyFrameCulling])
         /\ exists k, closer = [EvLoopCloser k].
Proof.
  destruct (Run_iteration quiet_env unit_norm scene_svd scene_unproject
              scene_median scene_neighbors scene_covisible scene_matches
              scene_fuse scene_optimizer true 0 (worker_scene [14%nat] None))
    as [[leave e']| |] eqn:Hrun; [|by vm_compute in Hrun..].
  assert (leave = false) as ->
    by (vm_compute in Hrun; by injection Hrun as <- _).
  exists e'. split; [done|].
  exact (Run_iteration_call_order quiet_env unit_norm scene_svd scene_unproject
           scene_median scene_neighbors scene_covisible scene_matches
           scene_fuse scene_optimizer true 0 (worker_scene [14%nat] None) e'
           false Hrun).
Defined.

Lemma Run_iteration_hands_over_witness :
  exists leave e' ts fs ba,
    Run_iteration (arrival_env 1 99%nat) unit_norm scene_svd scene_unproject
      scene_median scene_neighbors scene_covisible scene_matches scene_fuse
      scene_optimizer true 0 (worker_scene [14%nat] None) = Ok (leave, e')
    /\ log e' = (EvTriangulate <$> ts) ++ (EvFuse <$> fs) ++ ba
                ++ [EvLoopCloser 14%nat].
Proof.
  destruct (Run_iteration (arrival_env 1 99%nat) unit_norm scene_svd
              scene_unproject scene_median scene_neighbors scene_covisible
              scene_matches scene_fuse scene_optimizer true 0
              (worker_scene [14%nat] None))
    as [[leave e']| |] eqn:Hrun; [|by vm_compute in Hrun..].
  destruct (Run_iteration_hands_over (arrival_env 1 99%nat) unit_norm
              scene_svd scene_unproject scene_median scene_neighbors
              scene_covisible scene_matches scene_fuse scene_optimizer true 0
              (worker_scene [14%nat] None) e' leave 14%nat [99%nat]
              (arrival_env_inserts 1 99%nat) eq_refl eq_refl Hrun)
    as (ts & fs & ba & Hlog & _).
  by exists leave, e', ts, fs, ba.
Defined.

(** ** The stop lock under the calls of the other threads *)

Lemma call_keeps_stop_lock (c : Call) (l : LocalMapping) :
  stop_lock (control l) ->
  stop_lock (control (call c l))
  /\ mbFinished (call c l) = mbFinished l
  /\ mbMonocular (call c l) = mbMonocular l
  /\ (mbFinishRequested l = true -> mbFinishRequested (call c l) = true).
Proof.
  destruct l as [mono reset finishReq finished abort stopped requested notStop
                 accept queue recent cur].
  destruct c as [k| | | | |flag|flag| |]; cbn;
    unfold Stop, Release, SetNotStop; cbn;
    destruct finished, stopped, requested, notStop; try destruct flag; cbn;
    intuition congruence.
Qed.

(** X18. The stop lock holds under every sequence of calls of the member
    functions that the other threads use: the mapper is stopped only while
    a stop is requested, and never while a client holds it with
    [SetNotStop(true)].  None of these calls changes the finished flag or
    the sensor flag, and none withdraws a finish request. *)
Theorem calls_keep_stop_lock (cs : list Call) (l : LocalMapping) :
  stop_lock (control l) ->
  stop_lock (control (calls cs l))
  /\ mbFinished (calls cs l) = mbFinished l
  /\ mbMonocular (calls cs l) = mbMonocular l
  /\ (mbFinishRequested l = true -> mbFinishRequested (calls cs l) = true).
Proof.
  unfold calls. revert l.
  induction cs as [|c cs IH]; intros l Hl; [done|].
  cbn [foldl].
  destruct (call_keeps_stop_lock c l Hl) as (Hc & Hf & Hm & Hr).
  destruct (IH _ Hc) as (Hc' & Hf' & Hm' & Hr').
  split; [done|]. split; [congruence|]. split; [congruence|]. auto.
Qed.

Lemma calls_keep_stop_lock_witness :
  isStopped
    (calls [CallRequestStop; CallSetNotStop true; CallStop; CallSetNotStop false;
            CallStop; CallSetNotStop true]
       (set_mbFinished false (LocalMapping_new false))) = true
  /\ mbNotStop
       (calls [CallRequestStop; CallSetNotStop true; CallStop;
               CallSetNotStop false; CallStop; CallSetNotStop true]
          (set_mbFinished false (LocalMapping_new false))) = false.
Proof.
  assert (Hs : isStopped
                 (calls [CallRequestStop; CallSetNotStop true; CallStop;
                         CallSetNotStop false; CallStop; CallSetNotStop true]
                    (set_mbFinished false (LocalMapping_new false))) = true)
    by reflexivity.
  split; [exact Hs|].
  destruct (calls_keep_stop_lock
              [CallRequestStop; CallSetNotStop true; CallStop;
               CallSetNotStop false; CallStop; CallSetNotStop true]
              (set_mbFinished false (LocalMapping_new false)))
    as (Hlock & _); [by vm_compute|].
  exact (proj2 (Hlock Hs)).
Defined.
